(** * Assignment plagiarism checker: text processing, similarity and clustering

    A shallow embedding of the analysis core of the repository
    (utils/textProcessing.ts, utils/similarityComputation.ts and
    utils/clustering.ts) together with proofs about it.

    Modelling conventions.
    - A JavaScript string is the list of its UTF-16 code units ([jsstring]).
    - Lengths, indices and table cells are natural numbers.
    - The fractional scores of similarityComputation.ts are exact rationals
      ([Q]); every integer operand is far below 2^53.
    - The numbers of [rabinKarpSearch] are rationals extended with Infinity and
      NaN ([jsnum]), because [Math.pow] overflows there.
    - A [for] loop over an index range is [forRange]; [push] appends.
    - A [Set] or [Map] is the list of its entries in insertion order.
    - The recursion of [dfs] is bounded by a fuel argument, the number of
      vertices; [findConnectedComponents_spec] shows that it never runs
      out on the graphs [createClusters] builds. *)

From Stdlib Require Import List Arith ZArith QArith Qround Qpower Lia Bool Permutation.
From Stdlib Require Qcanon.
Import ListNotations.
Close Scope Q_scope.
Open Scope nat_scope.

(* ================================================================= *)
(** ** Strings and loops *)

(** A string as the list of its UTF-16 code units. *)
Definition jsstring := list Z.

(** A code unit as [charCodeAt] can return it. *)
Definition codeUnit (c : Z) : Prop := (0 <= c < 65536)%Z.

Definition wfString (s : jsstring) : Prop := Forall codeUnit s.

Definition string_dec : forall a b : jsstring, {a = b} + {a <> b} :=
  list_eq_dec Z.eq_dec.

(** [a === b] on strings. *)
Definition string_eqb (a b : jsstring) : bool :=
  if string_dec a b then true else false.

(** [s[i] === t[j]]: an index out of range reads [undefined]. *)
Definition charAt_eqb (s : jsstring) (i : nat) (t : jsstring) (j : nat) : bool :=
  match nth_error s i, nth_error t j with
  | Some a, Some b => Z.eqb a b
  | None, None => true
  | _, _ => false
  end.

(** [s.substring(a, b)]: both ends are clamped to the length and swapped
    when out of order. *)
Definition substring (s : jsstring) (a b : nat) : jsstring :=
  let lo := Nat.min (Nat.min a b) (length s) in
  let hi := Nat.min (Nat.max a b) (length s) in
  firstn (hi - lo) (skipn lo s).

(** [l.slice(a, b)] for [0 <= a]. *)
Definition slice {A : Type} (l : list A) (a b : nat) : list A :=
  firstn (b - a) (skipn a l).

(** [for (let i = lo; i < lo + n; i++) s = body(i, s)]. *)
Definition forRange {S : Type} (lo n : nat) (body : nat -> S -> S) (s : S) : S :=
  fold_left (fun s i => body i s) (seq lo n) s.

(** The code units matched by the regular expression class [\s]. *)
Definition isWhiteSpace (c : Z) : bool :=
  existsb (Z.eqb c)
    [9; 10; 11; 12; 13; 32; 160; 5760; 8192; 8193; 8194; 8195; 8196; 8197;
     8198; 8199; 8200; 8201; 8202; 8232; 8233; 8239; 8287; 12288; 65279]%Z.

(** [text.split(/\s+/)], scanning left to right: [cur] is the token being
    read and [inSep] tells that the previous code unit was white space. The
    token before a separator and the token at the end are emitted even when
    they are empty, as [split] does. *)
Fixpoint split_go (s : jsstring) (cur : jsstring) (inSep : bool) : list jsstring :=
  match s with
  | [] => [cur]
  | c :: s' =>
      if isWhiteSpace c then
        if inSep then split_go s' cur true else cur :: split_go s' [] true
      else split_go s' (cur ++ [c]) false
  end.

Definition split_ws (text : jsstring) : list jsstring := split_go text [] false.

(** [words.join(sep)]. *)
Fixpoint join (sep : jsstring) (words : list jsstring) : jsstring :=
  match words with
  | [] => []
  | [w] => w
  | w :: rest => w ++ sep ++ join sep rest
  end.

Definition space : jsstring := [32%Z].

(** [.filter(Boolean)] on strings keeps the non-empty ones. *)
Definition nonEmpty (w : jsstring) : bool :=
  match w with [] => false | _ => true end.

(* ================================================================= *)
(** ** utils/textProcessing.ts *)

(** [createShingles(text, k)]. *)
Definition createShingles (text : jsstring) (k : nat) : list jsstring :=
  let words := split_ws text in
  forRange 0 (length words + 1 - k)
    (fun i shingles => shingles ++ [join space (slice words i (i + k))]) [].

(** [rabinKarpHash(str, prime)]; [%] is the truncated remainder. *)
Definition rabinKarpHash (str : jsstring) (prime : Z) : Z :=
  fold_left (fun hash c => Z.rem (hash * 256 + c) prime) str 0%Z.

(** The numbers of [rabinKarpSearch]: a finite value, Infinity or NaN. The
    finite values that occur are integers below 2^31 in absolute value, exact
    powers of two, or multiples of 2^-8, all of them exact as doubles. *)
Inductive jsnum : Type :=
  | Num (q : Q)
  | PosInf
  | NaN.

Definition ofZ (z : Z) : jsnum := Num (inject_Z z).

(** [Math.pow(256, e)] for [e >= -1]: 256^e is a power of two, hence exact, as
    long as it is below 2^1024, that is for [e <= 127]; above, the double
    overflows to Infinity. *)
Definition pow256 (e : Z) : jsnum :=
  if (e <=? 127)%Z then Num (Qpower (256 # 1)%Q e) else PosInf.

(** Truncation towards zero. *)
Definition Qtrunc (q : Q) : Z :=
  if Qle_bool 0 q then Qfloor q else Qceiling q.

(** [x % p] for a finite non-zero [p]. *)
Definition jsrem (x : jsnum) (p : Z) : jsnum :=
  match x with
  | Num q => Num (Qred (q - inject_Z p * inject_Z (Qtrunc (q / inject_Z p)))%Q)
  | PosInf => NaN
  | NaN => NaN
  end.

(** [a - b], [a * b] and [a + b]. The operands of the search are finite or
    NaN; an infinite operand cannot occur there and is not told apart from
    NaN. *)
Definition jssub (a b : jsnum) : jsnum :=
  match a, b with
  | Num x, Num y => Num (Qred (x - y)%Q)
  | _, _ => NaN
  end.

Definition jsmul (a b : jsnum) : jsnum :=
  match a, b with
  | Num x, Num y => Num (Qred (x * y)%Q)
  | _, _ => NaN
  end.

Definition jsadd (a b : jsnum) : jsnum :=
  match a, b with
  | Num x, Num y => Num (Qred (x + y)%Q)
  | _, _ => NaN
  end.

(** [a === b] on numbers: NaN equals nothing. *)
Definition jseq (a b : jsnum) : bool :=
  match a, b with
  | Num x, Num y => Qeq_bool x y
  | PosInf, PosInf => true
  | _, _ => false
  end.

(** [a < 0]. *)
Definition jsneg (a : jsnum) : bool :=
  match a with
  | Num x => negb (Qle_bool 0 x)
  | _ => false
  end.

(** [text.charCodeAt(i)]: NaN out of range. *)
Definition charCodeAt (text : jsstring) (i : nat) : jsnum :=
  match nth_error text i with
  | Some c => ofZ c
  | None => NaN
  end.

(** One round of the rolling hash of [rabinKarpSearch]. *)
Definition rollHash (text : jsstring) (m i : nat) (h textHash : jsnum) : jsnum :=
  let t :=
    jsrem (jsadd (jsmul (ofZ 256) (jssub textHash (jsmul (charCodeAt text i) h)))
                 (charCodeAt text (i + m))) 101 in
  if jsneg t then jsadd t (ofZ 101) else t.

(** The body of the search loop on the state [(matches, textHash)]. *)
Definition searchStep (text pattern : jsstring) (patternHash h : jsnum)
    (i : nat) (st : list nat * jsnum) : list nat * jsnum :=
  let m := length pattern in
  let n := length text in
  let '(matches, textHash) := st in
  let matches :=
    if jseq patternHash textHash then
      if string_eqb (substring text i (i + m)) pattern then matches ++ [i]
      else matches
    else matches in
  let textHash := if i <? n - m then rollHash text m i h textHash else textHash in
  (matches, textHash).

(** [rabinKarpSearch(text, pattern)]. *)
Definition rabinKarpSearch (text pattern : jsstring) : list nat :=
  let prime := 101%Z in
  let m := length pattern in
  let n := length text in
  if n <? m then []
  else
    let patternHash := ofZ (rabinKarpHash pattern prime) in
    let textHash := ofZ (rabinKarpHash (substring text 0 m) prime) in
    let h := jsrem (pow256 (Z.of_nat m - 1)) prime in
    fst (forRange 0 (n - m + 1) (searchStep text pattern patternHash h)
           ([], textHash)).

(** The dynamic-programming tables: [dp[i][j]] and [dp[i][j] = v]. Every
    access of the source is within the table; a write outside changes
    nothing here. *)
Definition table := list (list nat).

Fixpoint list_set {A : Type} (l : list A) (i : nat) (v : A) : list A :=
  match l, i with
  | [], _ => []
  | _ :: t, O => v :: t
  | x :: t, S i' => x :: list_set t i' v
  end.

Definition tget (dp : table) (i j : nat) : nat := nth j (nth i dp []) 0.

Definition tset (dp : table) (i j v : nat) : table :=
  list_set dp i (list_set (nth i dp []) j v).

(** [Array(m + 1).fill(0).map(() => Array(n + 1).fill(0))]. *)
Definition newTable (m n : nat) : table := repeat (repeat 0 (n + 1)) (m + 1).

(** The body of the inner loop of [editDistance]. *)
Definition editCell (str1 str2 : jsstring) (i j : nat) (dp : table) : table :=
  if charAt_eqb str1 (i - 1) str2 (j - 1) then tset dp i j (tget dp (i - 1) (j - 1))
  else tset dp i j
         (1 + Nat.min (Nat.min (tget dp (i - 1) j) (tget dp i (j - 1)))
                      (tget dp (i - 1) (j - 1))).

Definition editTable (str1 str2 : jsstring) : table :=
  let m := length str1 in
  let n := length str2 in
  let dp := newTable m n in
  let dp := forRange 0 (m + 1) (fun i dp => tset dp i 0 i) dp in
  let dp := forRange 0 (n + 1) (fun j dp => tset dp 0 j j) dp in
  forRange 1 m (fun i dp => forRange 1 n (editCell str1 str2 i) dp) dp.

(** [editDistance(str1, str2)]. *)
Definition editDistance (str1 str2 : jsstring) : nat :=
  tget (editTable str1 str2) (length str1) (length str2).

(** The state of [longestCommonSubstring]: the table, [maxLength] and
    [endIndex]. *)
Definition lcsState : Type := table * nat * nat.

(** The body of its inner loop. *)
Definition lcsCell (s1 s2 : jsstring) (i j : nat) (st : lcsState) : lcsState :=
  let '(dp, maxLength, endIndex) := st in
  if charAt_eqb s1 (i - 1) s2 (j - 1) then
    let dp := tset dp i j (tget dp (i - 1) (j - 1) + 1) in
    if maxLength <? tget dp i j then (dp, tget dp i j, i)
    else (dp, maxLength, endIndex)
  else (dp, maxLength, endIndex).

(** The truncation of an input to its first [maxChars] code units. *)
Definition capTo (maxChars : nat) (str : jsstring) : jsstring :=
  if maxChars <? length str then substring str 0 maxChars else str.

Definition lcsLoop (s1 s2 : jsstring) : lcsState :=
  let m := length s1 in
  let n := length s2 in
  forRange 1 m (fun i st => forRange 1 n (lcsCell s1 s2 i) st)
    (newTable m n, 0, 0).

(** [longestCommonSubstring(str1, str2, maxChars)]; [maxChars] is a count of
    characters. *)
Definition longestCommonSubstring (str1 str2 : jsstring) (maxChars : nat) : jsstring :=
  let s1 := capTo maxChars str1 in
  let s2 := capTo maxChars str2 in
  let '(_, maxLength, endIndex) := lcsLoop s1 s2 in
  substring s1 (endIndex - maxLength) endIndex.

(* ================================================================= *)
(** ** utils/similarityComputation.ts *)

(** A [Set<string>] as the list of its members in insertion order. *)
Definition set_has (s : list jsstring) (x : jsstring) : bool :=
  existsb (string_eqb x) s.

Definition set_add (s : list jsstring) (x : jsstring) : list jsstring :=
  if set_has s x then s else s ++ [x].

(** [new Set(l)]. *)
Definition mkSet (l : list jsstring) : list jsstring := fold_left set_add l [].

Definition QofNat (n : nat) : Q := inject_Z (Z.of_nat n).

(** [jaccardSimilarity(shingles1, shingles2)]. *)
Definition jaccardSimilarity (shingles1 shingles2 : list jsstring) : Q :=
  let set1 := mkSet shingles1 in
  let set2 := mkSet shingles2 in
  let intersection := mkSet (filter (set_has set2) set1) in
  let union := mkSet (set1 ++ set2) in
  if length union =? 0 then 0%Q
  else (QofNat (length intersection) / QofNat (length union))%Q.

Record Document : Type := mkDocument {
  doc_id : jsstring;
  doc_name : jsstring;
  doc_content : jsstring
}.

Record SimilarityResult : Type := mkSimilarityResult {
  doc1Id : jsstring;
  doc2Id : jsstring;
  doc1Name : jsstring;
  doc2Name : jsstring;
  similarity : Q;
  matchedSections : list jsstring;
  rawMatchCount : nat;
  avgWords : nat;
  matchMetric : Q;
  compositeScore : Q
}.

(** [documents[i]]; the loops of [computeAllSimilarities] never index past
    the end, where this model reads an empty document. *)
Definition docAt (documents : list Document) (i : nat) : Document :=
  nth i documents (mkDocument [] [] []).

(** [content.split(/\s+/).filter(Boolean).length || 0]. *)
Definition wordCount (content : jsstring) : nat :=
  length (filter nonEmpty (split_ws content)).

(** [for (const sh of set1) if (set2.has(sh)) commonCount++]. *)
Definition countCommon (set1 set2 : list jsstring) : nat :=
  fold_left (fun commonCount sh => if set_has set2 sh then commonCount + 1 else commonCount)
    set1 0.

(** The legacy composite score of one pair, before it is scaled. *)
Definition compositeOf (c1 c2 : jsstring) (jaccardScore : Q) : Q :=
  if negb (Qle_bool jaccardScore (15 # 100)) then
    let sample1 := substring c1 0 500 in
    let sample2 := substring c2 0 500 in
    let maxLen := Nat.max (length sample1) (length sample2) in
    let editDist := editDistance sample1 sample2 in
    let editScore :=
      if maxLen =? 0 then 0%Q else (1 - QofNat editDist / QofNat maxLen)%Q in
    let lcs := longestCommonSubstring c1 c2 800 in
    let denom := Nat.min (Nat.min (length c1) (length c2)) 800 in
    let lcsScore :=
      if denom =? 0 then 0%Q else (QofNat (length lcs) / QofNat denom)%Q in
    (jaccardScore * (5 # 10) + editScore * (3 # 10) + lcsScore * (2 # 10))%Q
  else jaccardScore.

Definition ellipsis : jsstring := [46; 46; 46]%Z.

(** The body of the inner loop of [computeAllSimilarities]: the result
    pushed for the pair [(i, j)]. *)
Definition pairResult (documents : list Document)
    (preShingles : list (list jsstring)) (wordCounts : list nat)
    (i j : nat) : SimilarityResult :=
  let s1 := nth i preShingles [] in
  let s2 := nth j preShingles [] in
  let jaccardScore := jaccardSimilarity s1 s2 in
  let set1 := mkSet s1 in
  let set2 := mkSet s2 in
  let commonCount := countCommon set1 set2 in
  let avgWords := Nat.max 1 ((nth i wordCounts 0 + nth j wordCounts 0) / 2) in
  let matchMetric := (QofNat commonCount / QofNat avgWords * 100)%Q in
  let di := docAt documents i in
  let dj := docAt documents j in
  let compositeScore := compositeOf (doc_content di) (doc_content dj) jaccardScore in
  let matchedSections :=
    if Qle_bool 5 matchMetric then
      let lcsVerbose := longestCommonSubstring (doc_content di) (doc_content dj) 2000 in
      if 50 <? length lcsVerbose then [substring lcsVerbose 0 200 ++ ellipsis] else []
    else [] in
  {| doc1Id := doc_id di;
     doc2Id := doc_id dj;
     doc1Name := doc_name di;
     doc2Name := doc_name dj;
     similarity := matchMetric;
     matchedSections := matchedSections;
     rawMatchCount := commonCount;
     avgWords := avgWords;
     matchMetric := matchMetric;
     compositeScore := (compositeScore * 100)%Q |}.

(** [computeAllSimilarities(documents)]. *)
Definition computeAllSimilarities (documents : list Document) : list SimilarityResult :=
  let preShingles := map (fun d => createShingles (doc_content d) 3) documents in
  let wordCounts := map (fun d => wordCount (doc_content d)) documents in
  let n := length documents in
  forRange 0 n
    (fun i results =>
       forRange (i + 1) (n - (i + 1))
         (fun j results => results ++ [pairResult documents preShingles wordCounts i j])
         results)
    [].

(* ================================================================= *)
(** ** utils/clustering.ts *)

(** The adjacency [Map<string, Set<string>>] of [Graph], entries in
    insertion order. *)
Definition adjList := list (jsstring * list jsstring).

Definition adj_has (g : adjList) (v : jsstring) : bool :=
  existsb (fun e => string_eqb (fst e) v) g.

Definition adj_get (g : adjList) (v : jsstring) : option (list jsstring) :=
  match find (fun e => string_eqb (fst e) v) g with
  | Some e => Some (snd e)
  | None => None
  end.

Definition adj_keys (g : adjList) : list jsstring := map fst g.

Definition addVertex (g : adjList) (vertex : jsstring) : adjList :=
  if adj_has g vertex then g else g ++ [(vertex, [])].

(** [adjList.get(v)!.add(w)]. *)
Definition addNeighbor (g : adjList) (v w : jsstring) : adjList :=
  map (fun e => if string_eqb (fst e) v then (fst e, set_add (snd e) w) else e) g.

Definition addEdge (g : adjList) (v1 v2 : jsstring) : adjList :=
  let g := addVertex g v1 in
  let g := addVertex g v2 in
  let g := addNeighbor g v1 v2 in
  addNeighbor g v2 v1.

(** [adjList.get(vertex) || new Set()]. *)
Definition neighborsOf (g : adjList) (vertex : jsstring) : list jsstring :=
  match adj_get g vertex with
  | Some s => s
  | None => []
  end.

(** The state the recursive [dfs] closure mutates: [visited] and the
    [component] under construction. *)
Definition dfsState : Type := list jsstring * list jsstring.

(** The loop over the neighbours inside [dfs]: [recurse] is the recursive
    call, made for every neighbour not visited yet; [None] is passed on. *)
Definition visitNeighbors (recurse : jsstring -> dfsState -> option dfsState)
    (neighbors : list jsstring) (st : option dfsState) : option dfsState :=
  fold_left
    (fun acc neighbor =>
       match acc with
       | None => None
       | Some (visited, component) =>
           if set_has visited neighbor then Some (visited, component)
           else recurse neighbor (visited, component)
       end)
    neighbors st.

(** [dfs(vertex, component)]. The recursion is bounded by [fuel], the depth
    still allowed; [None] means the bound was hit. *)
Fixpoint dfs (fuel : nat) (g : adjList) (vertex : jsstring) (st : dfsState)
    : option dfsState :=
  match fuel with
  | O => None
  | S fuel' =>
      let '(visited, component) := st in
      let visited := set_add visited vertex in
      let component := component ++ [vertex] in
      visitNeighbors (dfs fuel' g) (neighborsOf g vertex) (Some (visited, component))
  end.

(** The body of the loop over [adjList.keys()] on [(visited, components)]. *)
Definition componentStep (g : adjList)
    (acc : option (list jsstring * list (list jsstring))) (vertex : jsstring)
    : option (list jsstring * list (list jsstring)) :=
  match acc with
  | None => None
  | Some (visited, components) =>
      if set_has visited vertex then Some (visited, components)
      else
        match dfs (length g) g vertex (visited, []) with
        | Some (visited', component) => Some (visited', components ++ [component])
        | None => None
        end
  end.

(** [graph.findConnectedComponents()]: a recursion never nests deeper than
    the number of vertices, which is the depth allowed here. *)
Definition findConnectedComponents (g : adjList) : option (list (list jsstring)) :=
  match fold_left (componentStep g) (adj_keys g) (Some ([], [])) with
  | Some (_, components) => Some components
  | None => None
  end.

Record DocRef : Type := mkDocRef {
  ref_id : jsstring;
  ref_name : jsstring
}.

Record Cluster : Type := mkCluster {
  cluster_id : nat;
  cluster_documents : list jsstring;
  avgSimilarity : Q
}.

(** The graph [createClusters] builds: a vertex per document, then an edge
    per similarity at or above the threshold. *)
Definition buildGraph (documents : list DocRef) (similarities : list SimilarityResult)
    (threshold : Q) : adjList :=
  let graph := fold_left (fun g doc => addVertex g (ref_id doc)) documents [] in
  fold_left
    (fun g sim =>
       if Qle_bool threshold (similarity sim) then addEdge g (doc1Id sim) (doc2Id sim)
       else g)
    similarities graph.

(** [comp.includes(x)]. *)
Definition includes (comp : list jsstring) (x : jsstring) : bool := set_has comp x.

(** The cluster made of the component [comp] found at position [index].
    [avgSimilarity] is the exact mean; the sum and the division of the code
    round to doubles, so its value can differ from the mean in the last
    places, and only what rounding preserves is stated about it. *)
Definition toCluster (similarities : list SimilarityResult)
    (index : nat) (comp : list jsstring) : Cluster :=
  let clusterSims :=
    filter (fun sim => includes comp (doc1Id sim) && includes comp (doc2Id sim))
      similarities in
  let avgSim :=
    if 0 <? length clusterSims then
      (fold_left (fun sum s => (sum + similarity s)%Q) clusterSims 0%Q
       / QofNat (length clusterSims))%Q
    else 0%Q in
  {| cluster_id := index; cluster_documents := comp; avgSimilarity := avgSim |}.

(** [array.map((x, index) => f(index, x))]. *)
Fixpoint mapi_from {A B : Type} (f : nat -> A -> B) (start : nat) (l : list A) : list B :=
  match l with
  | [] => []
  | x :: t => f start x :: mapi_from f (S start) t
  end.

(** [createClusters(documents, similarities, threshold)]. *)
Definition createClusters (documents : list DocRef)
    (similarities : list SimilarityResult) (threshold : Q) : option (list Cluster) :=
  let graph := buildGraph documents similarities threshold in
  match findConnectedComponents graph with
  | Some components =>
      Some (mapi_from (toCluster similarities) 0
              (filter (fun comp => 1 <? length comp) components))
  | None => None
  end.

(* ================================================================= *)
(** ** Further functions of the same files *)

(** [computeSimilarity(doc1Content, doc2Content)] of
    utils/similarityComputation.ts: the weighted combination of the three
    scores, with the longest common substring capped at 1000 characters. *)
Definition computeSimilarity (doc1Content doc2Content : jsstring) : Q :=
  let shingles1 := createShingles doc1Content 3 in
  let shingles2 := createShingles doc2Content 3 in
  let jaccardScore := jaccardSimilarity shingles1 shingles2 in
  let sample1 := substring doc1Content 0 500 in
  let sample2 := substring doc2Content 0 500 in
  let maxLen := Nat.max (length sample1) (length sample2) in
  let editDist := editDistance sample1 sample2 in
  let editScore :=
    if maxLen =? 0 then 0%Q else (1 - QofNat editDist / QofNat maxLen)%Q in
  let lcs := longestCommonSubstring doc1Content doc2Content 1000 in
  let denom := Nat.min (Nat.min (length doc1Content) (length doc2Content)) 1000 in
  let lcsScore :=
    if denom =? 0 then 0%Q else (QofNat (length lcs) / QofNat denom)%Q in
  (jaccardScore * (5 # 10) + editScore * (3 # 10) + lcsScore * (2 # 10))%Q.

(** The loop over the neighbours inside [bfs] of utils/clustering.ts, on
    [(visited, queue)]: a neighbour not visited yet is marked and queued. *)
Definition enqueueNeighbors (neighbors : list jsstring)
    (st : list jsstring * list jsstring) : list jsstring * list jsstring :=
  fold_left
    (fun st neighbor =>
       let '(visited, queue) := st in
       if set_has visited neighbor then (visited, queue)
       else (set_add visited neighbor, queue ++ [neighbor]))
    neighbors st.

(** The [while (queue.length > 0)] loop of [bfs] on
    [(visited, queue, component)]; [fuel] bounds the number of rounds and
    [None] means the bound was hit. *)
Fixpoint bfsLoop (fuel : nat) (g : adjList)
    (st : list jsstring * list jsstring * list jsstring) {struct fuel}
    : option (list jsstring * list jsstring) :=
  let '(visited, queue, component) := st in
  match queue with
  | [] => Some (visited, component)
  | vertex :: queue =>
      match fuel with
      | O => None
      | S fuel' =>
          let component := component ++ [vertex] in
          let '(visited, queue) :=
            enqueueNeighbors (neighborsOf g vertex) (visited, queue) in
          bfsLoop fuel' g (visited, queue, component)
      end
  end.

(** [bfs(startVertex)]: the new [visited] and the component. A vertex is
    queued at most once, so the loop makes at most as many rounds as there
    are vertices. *)
Definition bfs (g : adjList) (visited : list jsstring) (startVertex : jsstring)
    : option (list jsstring * list jsstring) :=
  bfsLoop (length g) g (set_add visited startVertex, [startVertex], []).

Definition componentStepBFS (g : adjList)
    (acc : option (list jsstring * list (list jsstring))) (vertex : jsstring)
    : option (list jsstring * list (list jsstring)) :=
  match acc with
  | None => None
  | Some (visited, components) =>
      if set_has visited vertex then Some (visited, components)
      else
        match bfs g visited vertex with
        | Some (visited', component) => Some (visited', components ++ [component])
        | None => None
        end
  end.

(** [graph.findConnectedComponentsBFS()]. *)
Definition findConnectedComponentsBFS (g : adjList) : option (list (list jsstring)) :=
  match fold_left (componentStepBFS g) (adj_keys g) (Some ([], [])) with
  | Some (_, components) => Some components
  | None => None
  end.

(** [array.findIndex(p)], counting from [i]; -1 when nothing is found. *)
Fixpoint findIndexFrom {A : Type} (p : A -> bool) (l : list A) (i : Z) : Z :=
  match l with
  | [] => (-1)%Z
  | x :: t => if p x then i else findIndexFrom p t (i + 1)%Z
  end.

(** [clusters.findIndex(c => c.documents.includes(docId))]. *)
Definition clusterIndexOf (clusters : list Cluster) (docId : jsstring) : Z :=
  findIndexFrom (fun c => includes (cluster_documents c) docId) clusters 0%Z.

Record GraphEdge : Type := mkGraphEdge {
  edge_source : jsstring;
  edge_target : jsstring;
  edge_similarity : Q
}.

(** The edges of [createGraphData]: the similarities of 35 and more. *)
Definition graphEdges (similarities : list SimilarityResult) : list GraphEdge :=
  map (fun sim =>
         {| edge_source := doc1Id sim;
            edge_target := doc2Id sim;
            edge_similarity := similarity sim |})
    (filter (fun sim => Qle_bool 35 (similarity sim)) similarities).

Section GraphLayout.

(** The coordinates are floating-point values of [Math.cos] and [Math.sin];
    they are kept abstract: [circleX index count] stands for
    [5 * Math.cos((index * 2 * Math.PI) / count)] and [circleY] for the sine. *)
Variable coord : Type.
Variables circleX circleY : nat -> nat -> coord.

Record GraphNode : Type := mkGraphNode {
  node_id : jsstring;
  node_name : jsstring;
  node_x : coord;
  node_y : coord;
  node_z : Z;
  node_cluster : Z
}.

(** The node made of the document at position [index]. *)
Definition toNode (count : nat) (clusters : list Cluster) (index : nat) (doc : DocRef)
    : GraphNode :=
  let clusterIndex := clusterIndexOf clusters (ref_id doc) in
  {| node_id := ref_id doc;
     node_name := ref_name doc;
     node_x := circleX index count;
     node_y := circleY index count;
     node_z := if (0 <=? clusterIndex)%Z then (clusterIndex * 2)%Z else 0%Z;
     node_cluster := if (0 <=? clusterIndex)%Z then clusterIndex else (-1)%Z |}.

(** [createGraphData(documents, similarities, clusters)]. *)
Definition createGraphData (documents : list DocRef)
    (similarities : list SimilarityResult) (clusters : list Cluster)
    : list GraphNode * list GraphEdge :=
  (mapi_from (toNode (length documents) clusters) 0 documents,
   graphEdges similarities).

(** A document of the analysis as [createClusters] and [createGraphData]
    read it. *)
Definition toDocRef (d : Document) : DocRef := mkDocRef (doc_id d) (doc_name d).

(** The computation of workers/analysis.worker.ts on the posted documents:
    the similarities, the clusters at threshold 35 and the graph data. *)
Definition analysisWorker (documents : list Document)
    : option (list SimilarityResult * list Cluster
              * (list GraphNode * list GraphEdge)) :=
  let similarities := computeAllSimilarities documents in
  match createClusters (map toDocRef documents) similarities 35 with
  | Some clusters =>
      Some (similarities, clusters,
            createGraphData (map toDocRef documents) similarities clusters)
  | None => None
  end.

End GraphLayout.

Arguments node_id {coord} _.
Arguments node_name {coord} _.
Arguments node_x {coord} _.
Arguments node_y {coord} _.
Arguments node_z {coord} _.
Arguments node_cluster {coord} _.
Arguments toNode {coord} circleX circleY count clusters index doc.
Arguments createGraphData {coord} circleX circleY documents similarities clusters.
Arguments analysisWorker {coord} circleX circleY documents.

(* ================================================================= *)
(** ** preprocessText *)

From Stdlib Require String Ascii.
Import String.StringSyntax.

(** The code units of an ASCII literal. *)
Definition str (s : String.string) : jsstring :=
  map (fun a => Z.of_N (Ascii.N_of_ascii a)) (String.list_ascii_of_string s).

Open Scope string_scope.

(** The words [STOPWORDS] is created with. *)
Definition STOPWORDS_initial : list jsstring :=
  map str
    ["a"; "an"; "and"; "are"; "as"; "at"; "be"; "by"; "for"; "from";
     "has"; "he"; "in"; "is"; "it"; "its"; "of"; "on"; "that"; "the";
     "to"; "was"; "will"; "with"; "this"; "but"; "they"; "have"; "had";
     "what"; "when"; "where"; "who"; "which"; "why"; "how"].

Definition PDF_TOKENS : list jsstring :=
  map str
    ["endobj"; "obj"; "stream"; "endstream"; "xref"; "trailer"; "flatedecode";
     "filter"; "length"; "id"; "type"; "subtype"; "image"; "colorspace";
     "bitspercomponent"; "decode"; "width"; "height"].

(** The alternatives of [/%PDF|endobj|stream|FlateDecode/i]. *)
Definition PDF_SIGNATURES : list jsstring :=
  map str ["%PDF"; "endobj"; "stream"; "FlateDecode"].

Close Scope string_scope.

(** [STOPWORDS] after [for (const t of PDF_TOKENS) STOPWORDS.add(t)]. *)
Definition STOPWORDS : list jsstring :=
  fold_left set_add PDF_TOKENS (mkSet STOPWORDS_initial).

(** The form by which the flag [i] compares code units: a lower-case ASCII
    letter counts as its upper-case letter. The literals matched here are
    ASCII, and a code unit from 128 on is never equivalent to an ASCII one,
    so the other code units can stand for themselves. *)
Definition canonicalize (c : Z) : Z :=
  if ((97 <=? c) && (c <=? 122))%Z then (c - 32)%Z else c.

(** The literal matches at the start of [text], ignoring case. *)
Fixpoint matchesAt (literal text : jsstring) : bool :=
  match literal, text with
  | [], _ => true
  | _ :: _, [] => false
  | p :: literal', c :: text' =>
      (canonicalize p =? canonicalize c)%Z && matchesAt literal' text'
  end.

(** [/l1|l2|.../i.test(text)]: some literal matches at some position. *)
Fixpoint testAny (literals : list jsstring) (text : jsstring) : bool :=
  existsb (fun l => matchesAt l text) literals
  || match text with
     | [] => false
     | _ :: text' => testAny literals text'
     end.

(** The class [[^\x20-\x7E\s]]. *)
Definition nonPrintable (c : Z) : bool :=
  negb ((32 <=? c) && (c <=? 126))%Z && negb (isWhiteSpace c).

(** The class [\w]. *)
Definition isWordChar (c : Z) : bool :=
  ((48 <=? c) && (c <=? 57) || (65 <=? c) && (c <=? 90) || (c =? 95)
   || (97 <=? c) && (c <=? 122))%Z.

(** The first alternative of the token expression that matches at the start
    of [text]. *)
Fixpoint firstToken (tokens : list jsstring) (text : jsstring) : option jsstring :=
  match tokens with
  | [] => None
  | token :: rest =>
      if matchesAt token text then Some token else firstToken rest text
  end.

(** [cleaned.replace(pdfTokenRegex, ' ')] with the flags [gi], scanning left
    to right: at a position where a token matches, the match becomes one
    space and the scan resumes behind it; [skip] counts the code units of
    the current match still to pass. No token is empty. *)
Fixpoint replaceTokens (skip : nat) (text : jsstring) : jsstring :=
  match text with
  | [] => []
  | c :: rest =>
      match skip with
      | S skip' => replaceTokens skip' rest
      | O =>
          match firstToken PDF_TOKENS text with
          | Some token => 32%Z :: replaceTokens (length token - 1) rest
          | None => c :: replaceTokens 0 rest
          end
      end
  end.

(** [cleaned.replace(/[^\x20-\x7E\s]+/g, ' ')]: every maximal run of
    non-printable code units becomes one space; [inRun] tells that the
    previous code unit belonged to such a run. *)
Fixpoint collapseNonPrintable (inRun : bool) (text : jsstring) : jsstring :=
  match text with
  | [] => []
  | c :: rest =>
      if nonPrintable c then
        if inRun then collapseNonPrintable true rest
        else 32%Z :: collapseNonPrintable true rest
      else c :: collapseNonPrintable false rest
  end.

(** [.replace(/[^\w\s]/g, ' ')]. *)
Definition replacePunctuation (text : jsstring) : jsstring :=
  map (fun c => if isWordChar c || isWhiteSpace c then c else 32%Z) text.

(** [word => word.length > 2 && !STOPWORDS.has(word)]. *)
Definition keepWord (word : jsstring) : bool :=
  (2 <? length word) && negb (set_has STOPWORDS word).

Section PreprocessText.

(** [String.prototype.toLowerCase] maps the whole of Unicode and is kept
    abstract. *)
Variable toLowerCase : jsstring -> jsstring.

(** [preprocessText(text)]. The ratio is compared as an exact rational: for
    a string of fewer than 2^50 code units it exceeds [0.2] as a double
    exactly when it exceeds 1/5. *)
Definition preprocessText (text : jsstring) : jsstring :=
  match text with
  | [] => []
  | _ :: _ =>
      let looksLikePDF := testAny PDF_SIGNATURES text in
      let nonPrintableMatches := filter nonPrintable text in
      let nonPrintableRatio :=
        if 0 <? length text
        then (QofNat (length nonPrintableMatches) / QofNat (length text))%Q
        else 0%Q in
      let cleaned :=
        if looksLikePDF || negb (Qle_bool nonPrintableRatio (2 # 10))
        then collapseNonPrintable false (replaceTokens 0 text)
        else text in
      join space
        (filter keepWord (split_ws (replacePunctuation (toLowerCase cleaned))))
  end.

(** The step of [handleFilesProcessed] in pages/Index.tsx that replaces the
    content of every file by its preprocessed text. *)
Definition preprocessDocument (file : Document) : Document :=
  mkDocument (doc_id file) (doc_name file) (preprocessText (doc_content file)).

End PreprocessText.

(** [handleFilesProcessed(files)]: the files are preprocessed and then
    analysed, in the worker or on the main thread, by the same three
    calls. *)
Definition handleFilesProcessed {coord : Type} (circleX circleY : nat -> nat -> coord)
    (toLowerCase : jsstring -> jsstring) (files : list Document) :=
  analysisWorker circleX circleY (map (preprocessDocument toLowerCase) files).
(* ================================================================= *)
(** * Notions used in the statements *)

(** The pairs of indices [(i, j)], [i < j < n], in the order the two loops of
    [computeAllSimilarities] visit them. *)
Definition pairs (n : nat) : list (nat * nat) :=
  flat_map (fun i => map (fun j => (i, j)) (seq (i + 1) (n - (i + 1)))) (seq 0 n).

(** [y] is a neighbour of [x] in the adjacency structure. *)
Definition edge (g : adjList) (x y : jsstring) : Prop := In y (neighborsOf g x).

(** [y] can be reached from [x] along edges. *)
Inductive reach (g : adjList) (x : jsstring) : jsstring -> Prop :=
  | reach_refl : reach g x x
  | reach_step (y z : jsstring) : reach g x y -> edge g y z -> reach g x z.

(** Every neighbour is a vertex, and edges go both ways. *)
Definition wfGraph (g : adjList) : Prop :=
  (forall x y, edge g x y -> In y (adj_keys g))
  /\ (forall x y, edge g x y -> edge g y x).

(** The number of vertices not visited yet. *)
Definition unvisited (g : adjList) (visited : list jsstring) : nat :=
  length (filter (fun k => negb (set_has visited k)) (adj_keys g)).

(** A connected component as the traversal returns it: it starts at the
    vertex it was discovered from, all its members are reachable from there,
    and it is closed under taking neighbours. *)
Definition goodComponent (g : adjList) (c : list jsstring) : Prop :=
  exists h t,
    c = h :: t
    /\ In h (adj_keys g)
    /\ (forall x, In x c -> reach g h x)
    /\ (forall x y, In x c -> edge g x y -> In y c).

(** A similarity at or above the threshold. *)
Definition qualifies (threshold : Q) (sim : SimilarityResult) : Prop :=
  Qle_bool threshold (similarity sim) = true.

(** What one call [dfs(vertex, component)] does to the state
    [(visited, component)] when [vertex] was not visited: it appends
    [vertex] and then new vertices to the component and marks exactly those
    visited; they are distinct, were not visited, are reachable from
    [vertex], and all their neighbours end up visited. *)
Definition dfsPost (g : adjList) (v : jsstring) (st st' : dfsState) : Prop :=
  exists new,
    snd st' = snd st ++ v :: new
    /\ (forall x, In x (fst st') <-> In x (fst st) \/ In x (v :: new))
    /\ NoDup (v :: new)
    /\ (forall x, In x (v :: new) -> ~ In x (fst st))
    /\ (forall x, In x (v :: new) -> reach g v x)
    /\ (forall x y, In x (v :: new) -> edge g x y -> In y (fst st')).

(** The same for the loop over the neighbours [nbs] of [root]. *)
Definition neighborsPost (g : adjList) (root : jsstring) (nbs : list jsstring)
    (st st' : dfsState) : Prop :=
  exists new,
    snd st' = snd st ++ new
    /\ (forall x, In x (fst st') <-> In x (fst st) \/ In x new)
    /\ NoDup new
    /\ (forall x, In x new -> ~ In x (fst st))
    /\ (forall x, In x new -> reach g root x)
    /\ (forall x y, In x new -> edge g x y -> In y (fst st'))
    /\ (forall nb, In nb nbs -> In nb (fst st')).

(** The invariant of the loop over the vertices in
    [findConnectedComponents]. *)
Definition componentsInv (g : adjList) (visited : list jsstring)
    (components : list (list jsstring)) : Prop :=
  (forall x, In x visited <-> In x (concat components))
  /\ NoDup (concat components)
  /\ (forall x y, In x visited -> edge g x y -> In y visited)
  /\ Forall (goodComponent g) components.

(** Example data: four documents a, b, c, d with similarities a-b 50,
    c-d 50 and b-c 40. *)
Definition docRefOf (c : Z) : DocRef := mkDocRef [c] [c].

Definition simOf (a b : Z) (q : Q) : SimilarityResult :=
  mkSimilarityResult [a] [b] [] [] q [] 0 1 q 0%Q.

Definition abcd_documents : list DocRef :=
  [docRefOf 97; docRefOf 98; docRefOf 99; docRefOf 100]%Z.

Definition abcd_similarities : list SimilarityResult :=
  [simOf 97 98 50%Q; simOf 99 100 50%Q; simOf 98 99 40%Q]%Z.

(** A table of [rows] rows of [cols] cells each. *)
Definition tableShape (dp : table) (rows cols : nat) : Prop :=
  length dp = rows /\ Forall (fun r => length r = cols) dp.

(** The Levenshtein recurrence on lists, read from the front; the three
    alternatives of the minimum are deletion, insertion and substitution, in
    the order of [editDistance]. *)
Fixpoint ldist (a : jsstring) : jsstring -> nat :=
  match a with
  | [] => fun b => length b
  | x :: a' =>
      fix inner (b : jsstring) : nat :=
        match b with
        | [] => S (length a')
        | y :: b' =>
            if Z.eqb x y then ldist a' b'
            else 1 + Nat.min (Nat.min (ldist a' b) (inner b')) (ldist a' b')
        end
  end.

(** [edit a b n]: [a] is turned into [b] by a script of [n] unit-cost
    deletions, insertions and substitutions. *)
Inductive edit : jsstring -> jsstring -> nat -> Prop :=
  | edit_nil : edit [] [] 0
  | edit_keep (x : Z) (a b : jsstring) (n : nat) :
      edit a b n -> edit (x :: a) (x :: b) n
  | edit_subst (x y : Z) (a b : jsstring) (n : nat) :
      edit a b n -> edit (x :: a) (y :: b) (S n)
  | edit_delete (x : Z) (a b : jsstring) (n : nat) :
      edit a b n -> edit (x :: a) b (S n)
  | edit_insert (y : Z) (a b : jsstring) (n : nat) :
      edit a b n -> edit a (y :: b) (S n).

(** The cell [(i, j)] of the edit-distance table as it should be: the
    distance between the first [i] code units of [s1] and the first [j] of
    [s2] (prefixes grow at the end, hence the reversal). *)
Definition levCell (s1 s2 : jsstring) (i j : nat) : nat :=
  ldist (rev (firstn i s1)) (rev (firstn j s2)).

(** The length of the longest common prefix. *)
Fixpoint commonPrefix (a b : jsstring) : nat :=
  match a, b with
  | x :: a', y :: b' => if Z.eqb x y then S (commonPrefix a' b') else 0
  | _, _ => 0
  end.

(** The cell [(i, j)] of the common-substring table as it should be: the
    length of the longest common suffix of the two prefixes. *)
Definition sufCell (s1 s2 : jsstring) (i j : nat) : nat :=
  commonPrefix (rev (firstn i s1)) (rev (firstn j s2)).

(** [r] occurs in [s] as a contiguous substring. *)
Definition isSubstring (r s : jsstring) : Prop :=
  exists pre post, s = pre ++ r ++ post.

(** The polynomial in base 256 whose remainder modulo the prime is the
    hash. *)
Definition poly (w : jsstring) : Z := fold_left (fun h c => (h * 256 + c)%Z) w 0%Z.

(** The offsets at which [pattern] occurs in [text], in increasing order. *)
Definition occurrences (text pattern : jsstring) : list nat :=
  filter (fun i => string_eqb (substring text i (i + length pattern)) pattern)
    (seq 0 (length text + 1 - length pattern)).

(** Two identifiers are linked when a similarity at or above the threshold
    names them both, in either order. *)
Definition linked (similarities : list SimilarityResult) (threshold : Q)
    (x y : jsstring) : Prop :=
  exists s, In s similarities /\ qualifies threshold s
            /\ ((x = doc1Id s /\ y = doc2Id s) \/ (x = doc2Id s /\ y = doc1Id s)).

(** A chain of links from [x] to [y], possibly of length 0. *)
Inductive chained (similarities : list SimilarityResult) (threshold : Q)
    (x : jsstring) : jsstring -> Prop :=
  | chained_refl : chained similarities threshold x x
  | chained_step (y z : jsstring) :
      chained similarities threshold x y ->
      linked similarities threshold y z ->
      chained similarities threshold x z.

(** Two lists with the same members. *)
Definition sameMembers (c c' : list jsstring) : Prop :=
  forall x, In x c <-> In x c'.

(** What a traversal started at the unvisited vertex [v] must deliver: the
    new [visited'] and the component [v :: new], whose members are the
    vertices it marked; they are distinct, were not visited, are reachable
    from [v], and all their neighbours end up visited. *)
Definition traversalPost (g : adjList) (visited : list jsstring) (v : jsstring)
    (visited' component : list jsstring) : Prop :=
  exists new,
    component = v :: new
    /\ (forall x, In x visited' <-> In x visited \/ In x (v :: new))
    /\ NoDup (v :: new)
    /\ (forall x, In x (v :: new) -> ~ In x visited)
    /\ (forall x, In x (v :: new) -> reach g v x)
    /\ (forall x y, In x (v :: new) -> edge g x y -> In y visited').

(** The body of the loop over [adjList.keys()] that both traversals share,
    with the traversal [run] left open. *)
Definition stepWith
    (run : list jsstring -> jsstring -> option (list jsstring * list jsstring))
    (acc : option (list jsstring * list (list jsstring))) (vertex : jsstring)
    : option (list jsstring * list (list jsstring)) :=
  match acc with
  | None => None
  | Some (visited, components) =>
      if set_has visited vertex then Some (visited, components)
      else
        match run visited vertex with
        | Some (visited', component) => Some (visited', components ++ [component])
        | None => None
        end
  end.

(** Two components that start at the same vertex and have the same
    members. *)
Definition sameComponent (c c' : list jsstring) : Prop :=
  hd_error c = hd_error c' /\ Permutation c c'.

(** The invariant of the [while] loop of [bfs] started at [s] with
    [visited0] visited before. *)
Definition bfsInv (g : adjList) (visited0 : list jsstring) (s : jsstring)
    (visited queue component : list jsstring) : Prop :=
  (forall x, In x visited <-> In x visited0 \/ In x (component ++ queue))
  /\ NoDup (component ++ queue)
  /\ (forall x, In x (component ++ queue) -> ~ In x visited0)
  /\ (forall x, In x (component ++ queue) -> reach g s x)
  /\ (forall x y, In x component -> edge g x y -> In y visited)
  /\ (exists rest, component ++ queue = s :: rest).

(** The words of C1: the non-empty white-space-separated tokens of a
    content, and its 3-word shingles, the runs of three consecutive words
    joined by single spaces. Written from the claim, not from
    [createShingles]. *)
Definition wordsOf (content : jsstring) : list jsstring :=
  filter nonEmpty (split_ws content).

Definition wordShingles (content : jsstring) : list jsstring :=
  map (fun i => join space (slice (wordsOf content) i (i + 3)))
    (seq 0 (length (wordsOf content) + 1 - 3)).

(** A content that neither starts nor ends with white space; the empty
    content is one. *)
Definition trimmed (content : jsstring) : Prop :=
  isWhiteSpace (hd 0%Z content) = false /\ isWhiteSpace (last content 0%Z) = false.

(* ================================================================= *)
(** * Proofs *)

(** ** Loops *)

Lemma forRange_S {S : Type} (lo n : nat) (body : nat -> S -> S) (s : S) :
  forRange lo (Datatypes.S n) body s = body (lo + n) (forRange lo n body s).
Proof.
  unfold forRange. rewrite seq_S, fold_left_app. reflexivity.
Qed.

Lemma forRange_0 {S : Type} (lo : nat) (body : nat -> S -> S) (s : S) :
  forRange lo 0 body s = s.
Proof. reflexivity. Qed.

(** The loop-invariant rule: [P k] holds of the state after [k] rounds. *)
Lemma forRange_inv {S : Type} (P : nat -> S -> Prop) (lo n : nat)
    (body : nat -> S -> S) (s : S) :
  P 0 s ->
  (forall k st, k < n -> P k st -> P (Datatypes.S k) (body (lo + k) st)) ->
  P n (forRange lo n body s).
Proof.
  intros H0 Hstep. induction n as [|n IH].
  - exact H0.
  - rewrite forRange_S. apply Hstep; [lia|]. apply IH.
    intros k st Hk. apply Hstep. lia.
Qed.

Lemma string_eqb_eq (a b : jsstring) : string_eqb a b = true <-> a = b.
Proof.
  unfold string_eqb. destruct (string_dec a b); split; congruence.
Qed.

Lemma string_eqb_refl (a : jsstring) : string_eqb a a = true.
Proof. apply string_eqb_eq. reflexivity. Qed.

Lemma string_eqb_neq (a b : jsstring) : string_eqb a b = false <-> a <> b.
Proof.
  unfold string_eqb. destruct (string_dec a b); split; congruence.
Qed.

(** ** rabinKarpSearch *)

Lemma searchStep_sound (text pattern : jsstring) (ph h : jsnum) (i : nat)
    (st : list nat * jsnum) :
  Forall (fun k => substring text k (k + length pattern) = pattern) (fst st) ->
  Forall (fun k => substring text k (k + length pattern) = pattern)
    (fst (searchStep text pattern ph h i st)).
Proof.
  destruct st as [matches th]. unfold searchStep. cbn [fst]. intros H.
  destruct (jseq ph th); [|exact H].
  destruct (string_eqb (substring text i (i + length pattern)) pattern) eqn:E;
    [|exact H].
  apply Forall_app. split; [exact H|].
  constructor; [|constructor]. apply string_eqb_eq. exact E.
Qed.

(** C10. Every offset [rabinKarpSearch] reports is a true occurrence: the
    substring of the text that starts there and has the pattern's length is
    the pattern. This holds for every text and pattern (the empty pattern
    included) and whatever the rolling hash evaluates to, since an offset is
    pushed only after the substring comparison succeeded. *)
Theorem rabinKarpSearch_sound (text pattern : jsstring) :
  Forall (fun i => substring text i (i + length pattern) = pattern)
    (rabinKarpSearch text pattern).
Proof.
  unfold rabinKarpSearch.
  destruct (length text <? length pattern); [constructor|].
  apply (forRange_inv
           (fun _ st => Forall (fun k => substring text k (k + length pattern) = pattern)
                          (fst st))).
  - constructor.
  - intros k st _ H. apply searchStep_sound. exact H.
Qed.

(** The search does report offsets: "aba" occurs in "ababa" at 0 and 2. *)
Example rabinKarpSearch_ababa :
  rabinKarpSearch [97; 98; 97; 98; 97]%Z [97; 98; 97]%Z = [0; 2].
Proof. vm_compute. reflexivity. Qed.

(** C3, at the input where the code departs from the claim. The pattern is
    129 times "a" and the text 130 times "a", so the pattern occurs at
    offsets 0 and 1. [Math.pow(256, 128)] is Infinity, its remainder modulo
    101 is NaN, and so is every rolled hash: only offset 0 is reported. *)
Theorem rabinKarpSearch_misses_long_pattern :
  let pattern := repeat 97%Z 129 in
  let text := repeat 97%Z 130 in
  rabinKarpSearch text pattern = [0]
  /\ occurrences text pattern = [0; 1].
Proof. vm_compute. split; reflexivity. Qed.

(** One code unit shorter and both offsets are found. *)
Example rabinKarpSearch_128 :
  rabinKarpSearch (repeat 97%Z 129) (repeat 97%Z 128) = [0; 1].
Proof. vm_compute. reflexivity. Qed.

(** ** createShingles *)

Lemma forRange_push {A : Type} (f : nat -> A) (lo n : nat) (acc : list A) :
  forRange lo n (fun i l => l ++ [f i]) acc = acc ++ map f (seq lo n).
Proof.
  induction n as [|n IH].
  - cbn. rewrite app_nil_r. reflexivity.
  - rewrite forRange_S, IH, seq_S, map_app, app_assoc. reflexivity.
Qed.

(** The shingles are the windows of the split, left to right. *)
Lemma createShingles_windows (text : jsstring) (k : nat) :
  createShingles text k =
  map (fun i => join space (slice (split_ws text) i (i + k)))
    (seq 0 (length (split_ws text) + 1 - k)).
Proof.
  unfold createShingles. rewrite forRange_push. reflexivity.
Qed.

Lemma createShingles_length (text : jsstring) (k : nat) :
  length (createShingles text k) = length (split_ws text) + 1 - k.
Proof.
  rewrite createShingles_windows, length_map, length_seq. reflexivity.
Qed.

(** C4, at inputs where the code departs from the claim. The text " a b "
    has two words, fewer than k = 3, yet two shingles come out, " a b" and
    "a b ": [split] yields an empty token before the leading and after the
    trailing white space, and [createShingles] takes them for words, whereas
    the word count of [computeAllSimilarities] filters them out. Likewise the
    empty text yields the shingle "" at k = 1. *)
Theorem createShingles_counts_empty_tokens :
  let text := [32; 97; 32; 98; 32]%Z in
  wordCount text = 2
  /\ createShingles text 3 = [[32; 97; 32; 98]%Z; [97; 32; 98; 32]%Z]
  /\ wordCount [] = 0
  /\ createShingles [] 1 = [[]].
Proof. vm_compute. repeat split; reflexivity. Qed.

(** A split has at most two empty tokens, the first and the last one. *)
Lemma split_go_empties (s : jsstring) :
  length (split_go s [] true) <= length (filter nonEmpty (split_go s [] true)) + 1
  /\ forall cur, cur <> [] ->
       length (split_go s cur false)
       <= length (filter nonEmpty (split_go s cur false)) + 1.
Proof.
  induction s as [|c s [IHt IHf]]; split.
  - cbn. lia.
  - intros cur Hcur. destruct cur; [congruence|]. cbn. lia.
  - cbn [split_go]. destruct (isWhiteSpace c); [exact IHt|].
    apply IHf. cbn. congruence.
  - intros cur Hcur. cbn [split_go]. destruct (isWhiteSpace c).
    + destruct cur as [|x cur]; [congruence|]. cbn [filter nonEmpty length]. lia.
    + apply IHf. destruct cur; cbn; congruence.
Qed.

Lemma split_ws_length (text : jsstring) :
  length (split_ws text) <= wordCount text + 2.
Proof.
  unfold wordCount, split_ws. destruct text as [|c s].
  - cbn. lia.
  - cbn [split_go]. destruct (split_go_empties s) as [Ht Hf].
    destruct (isWhiteSpace c).
    + cbn [filter nonEmpty length]. lia.
    + specialize (Hf ([] ++ [c])). cbn in Hf |- *.
      assert ([c] <> []) by congruence. specialize (Hf H). lia.
Qed.

(** A document never has more 3-word shingles than words. *)
Lemma createShingles_le_wordCount (text : jsstring) :
  length (createShingles text 3) <= wordCount text.
Proof.
  rewrite createShingles_length. pose proof (split_ws_length text). lia.
Qed.


(** ** createShingles on texts without leading or trailing white space *)

Lemma last_cons (c : Z) (s : jsstring) (d : Z) : last (c :: s) d = last s c.
Proof.
  revert c d. induction s as [|x t IH]; intros c d; [reflexivity|].
  change (last (c :: x :: t) d) with (last (x :: t) d).
  rewrite (IH x d), (IH x c). reflexivity.
Qed.

Lemma split_go_clean (s : jsstring) :
  (isWhiteSpace (last s 32%Z) = false ->
   Forall (fun w => nonEmpty w = true) (split_go s [] true))
  /\ forall cur, cur <> [] -> isWhiteSpace (last s 0%Z) = false ->
       Forall (fun w => nonEmpty w = true) (split_go s cur false).
Proof.
  induction s as [|c s [IHt IHf]]; split.
  - cbn. discriminate.
  - intros cur Hcur _. constructor; [|constructor].
    destruct cur; [congruence|reflexivity].
  - rewrite last_cons. intros Hlast. cbn [split_go].
    destruct (isWhiteSpace c) eqn:Ec.
    + apply IHt. destruct s as [|x t]; [cbn [last] in Hlast; congruence|].
      rewrite last_cons in Hlast |- *. exact Hlast.
    + apply IHf; [cbn; congruence|].
      destruct s as [|x t]; [reflexivity|].
      rewrite last_cons in Hlast |- *. exact Hlast.
  - intros cur Hcur. rewrite last_cons. intros Hlast. cbn [split_go].
    destruct (isWhiteSpace c) eqn:Ec.
    + constructor; [destruct cur; [congruence|reflexivity]|].
      apply IHt. destruct s as [|x t]; [cbn [last] in Hlast; congruence|].
      rewrite last_cons in Hlast |- *. exact Hlast.
    + apply IHf; [destruct cur; cbn; congruence|].
      destruct s as [|x t]; [reflexivity|].
      rewrite last_cons in Hlast |- *. exact Hlast.
Qed.

Lemma filter_all {A : Type} (p : A -> bool) (l : list A) :
  Forall (fun x => p x = true) l -> filter p l = l.
Proof.
  induction 1 as [|x l Hx Hl IH]; [reflexivity|]. cbn. rewrite Hx, IH. reflexivity.
Qed.

(** A text that neither starts nor ends with white space splits into its
    words. *)
Lemma split_ws_clean (text : jsstring) :
  isWhiteSpace (hd 32%Z text) = false ->
  isWhiteSpace (last text 32%Z) = false ->
  filter nonEmpty (split_ws text) = split_ws text.
Proof.
  intros Hhd Hlast. apply filter_all. unfold split_ws.
  destruct text as [|c s]; [cbn in Hhd; discriminate|].
  cbn [hd] in Hhd. cbn [split_go]. rewrite Hhd.
  apply (proj2 (split_go_clean s)); [cbn; congruence|].
  rewrite last_cons in Hlast. destruct s as [|x t]; [reflexivity|].
  rewrite last_cons in Hlast |- *. exact Hlast.
Qed.

(** On such a text [createShingles] does what C4 says: it returns
    [max(0, wordCount - k + 1)] shingles, the windows of [k] consecutive
    words joined by single spaces, from left to right. *)
Theorem createShingles_clean_text (text : jsstring) (k : nat) :
  isWhiteSpace (hd 32%Z text) = false ->
  isWhiteSpace (last text 32%Z) = false ->
  let words := filter nonEmpty (split_ws text) in
  length (createShingles text k) = wordCount text + 1 - k
  /\ createShingles text k =
     map (fun i => join space (slice words i (i + k)))
       (seq 0 (wordCount text + 1 - k)).
Proof.
  intros Hhd Hlast. cbv zeta. unfold wordCount.
  rewrite (split_ws_clean text Hhd Hlast). split.
  - apply createShingles_length.
  - apply createShingles_windows.
Qed.

Example createShingles_abcd :
  createShingles [97; 32; 98; 32; 32; 99; 10; 100]%Z 3
  = [[97; 32; 98; 32; 99]%Z; [98; 32; 99; 32; 100]%Z].
Proof. vm_compute. reflexivity. Qed.

(** ** Tables *)

Lemma list_set_length {A : Type} (l : list A) (i : nat) (v : A) :
  length (list_set l i v) = length l.
Proof.
  revert i. induction l as [|x l IH]; intros [|i]; cbn; auto.
Qed.

Lemma nth_list_set_eq {A : Type} (l : list A) (i : nat) (v d : A) :
  i < length l -> nth i (list_set l i v) d = v.
Proof.
  revert i. induction l as [|x l IH]; intros [|i] H; cbn in *; try lia; auto.
  apply IH. lia.
Qed.

Lemma nth_list_set_neq {A : Type} (l : list A) (i j : nat) (v d : A) :
  i <> j -> nth j (list_set l i v) d = nth j l d.
Proof.
  revert i j. induction l as [|x l IH]; intros [|i] [|j] H; cbn; auto; try lia.
Qed.

Lemma list_set_Forall {A : Type} (P : A -> Prop) (l : list A) (i : nat) (v : A) :
  Forall P l -> P v -> Forall P (list_set l i v).
Proof.
  intros Hl Hv. revert i. induction Hl as [|x l Hx Hl IH]; intros [|i]; cbn;
    constructor; auto.
Qed.

Lemma newTable_shape (m n : nat) : tableShape (newTable m n) (m + 1) (n + 1).
Proof.
  unfold newTable, tableShape. split; [apply repeat_length|].
  apply Forall_forall. intros r Hr. apply repeat_spec in Hr. subst.
  apply repeat_length.
Qed.

Lemma tableShape_row (dp : table) (rows cols i : nat) :
  tableShape dp rows cols -> i < rows -> length (nth i dp []) = cols.
Proof.
  intros [Hlen Hrows] Hi. rewrite Forall_forall in Hrows.
  apply Hrows, nth_In. lia.
Qed.

Lemma list_set_overflow {A : Type} (l : list A) (i : nat) (v : A) :
  length l <= i -> list_set l i v = l.
Proof.
  revert i. induction l as [|x l IH]; intros [|i] H; cbn in *; auto; try lia.
  rewrite IH by lia. reflexivity.
Qed.

Lemma tset_shape (dp : table) (rows cols i j v : nat) :
  tableShape dp rows cols -> tableShape (tset dp i j v) rows cols.
Proof.
  intros [Hlen Hrows]. unfold tset.
  destruct (Nat.lt_ge_cases i (length dp)) as [Hi|Hi].
  - split; [rewrite list_set_length; exact Hlen|].
    apply list_set_Forall; [exact Hrows|]. rewrite list_set_length.
    rewrite Forall_forall in Hrows. apply Hrows, nth_In, Hi.
  - rewrite list_set_overflow by exact Hi. split; assumption.
Qed.

Lemma tget_tset_eq (dp : table) (rows cols i j v : nat) :
  tableShape dp rows cols -> i < rows -> j < cols ->
  tget (tset dp i j v) i j = v.
Proof.
  intros Hs Hi Hj. unfold tget, tset.
  rewrite nth_list_set_eq by (destruct Hs; lia).
  apply nth_list_set_eq. rewrite (tableShape_row dp rows cols i Hs Hi). exact Hj.
Qed.

Lemma tget_tset_neq (dp : table) (i j v i' j' : nat) :
  i <> i' \/ j <> j' -> tget (tset dp i j v) i' j' = tget dp i' j'.
Proof.
  intros H. unfold tget, tset.
  destruct (Nat.eq_dec i i') as [<-|Hi].
  - destruct H as [H|H]; [congruence|].
    destruct (Nat.lt_ge_cases i (length dp)) as [Hlt|Hge].
    + rewrite nth_list_set_eq by exact Hlt. apply nth_list_set_neq, H.
    + rewrite list_set_overflow by exact Hge. reflexivity.
  - rewrite nth_list_set_neq by exact Hi. reflexivity.
Qed.

(** ** The Levenshtein recurrence *)

Lemma ldist_nil_l (b : jsstring) : ldist [] b = length b.
Proof. reflexivity. Qed.

Lemma ldist_nil_r (a : jsstring) : ldist a [] = length a.
Proof. destruct a; reflexivity. Qed.

Lemma ldist_cons (x y : Z) (a b : jsstring) :
  ldist (x :: a) (y :: b) =
  if Z.eqb x y then ldist a b
  else 1 + Nat.min (Nat.min (ldist a (y :: b)) (ldist (x :: a) b)) (ldist a b).
Proof. reflexivity. Qed.

Lemma ldist_refl (a : jsstring) : ldist a a = 0.
Proof.
  induction a as [|x a IH]; [reflexivity|].
  rewrite ldist_cons, Z.eqb_refl. exact IH.
Qed.

Lemma ldist_sym (a b : jsstring) : ldist a b = ldist b a.
Proof.
  revert b. induction a as [|x a IHa]; intros b.
  - rewrite ldist_nil_l, ldist_nil_r. reflexivity.
  - induction b as [|y b IHb].
    + rewrite ldist_nil_l, ldist_nil_r. reflexivity.
    + rewrite !ldist_cons, (Z.eqb_sym y x), IHb, (IHa (y :: b)), (IHa b).
      destruct (Z.eqb x y); [reflexivity|]. lia.
Qed.

(** Adding one code unit to either side moves the distance by at most one. *)
Lemma ldist_step (n : nat) :
  forall a b, length a + length b <= n ->
    (forall x, ldist a b <= S (ldist (x :: a) b))
    /\ (forall y, ldist a (y :: b) <= S (ldist a b)).
Proof.
  induction n as [|n IH]; intros a b Hlen.
  - destruct a, b; cbn in Hlen; try lia. split; intros; cbn; lia.
  - split.
    + intros x. destruct b as [|y b'].
      * rewrite !ldist_nil_r. cbn. lia.
      * rewrite (ldist_cons x y). cbn [length] in Hlen.
        destruct (IH a b' ltac:(lia)) as [L1 U2].
        specialize (L1 x). specialize (U2 y).
        destruct (Z.eqb x y); lia.
    + intros y. destruct a as [|x a'].
      * rewrite !ldist_nil_l. cbn. lia.
      * rewrite (ldist_cons x y). cbn [length] in Hlen.
        destruct (IH a' b ltac:(lia)) as [L1 _]. specialize (L1 x).
        destruct (Z.eqb x y); lia.
Qed.

Lemma ldist_drop_l (x : Z) (a b : jsstring) : ldist a b <= S (ldist (x :: a) b).
Proof. apply (ldist_step (length a + length b) a b (le_n _)). Qed.

Lemma ldist_drop_r (y : Z) (a b : jsstring) : ldist a b <= S (ldist a (y :: b)).
Proof. rewrite (ldist_sym a b), (ldist_sym a (y :: b)). apply ldist_drop_l. Qed.

(** The recurrence yields the cost of some script ... *)
Lemma ldist_edit (a b : jsstring) : edit a b (ldist a b).
Proof.
  revert b. induction a as [|x a IHa]; intros b.
  - rewrite ldist_nil_l. induction b as [|y b IHb]; [constructor|].
    cbn [length]. apply edit_insert, IHb.
  - induction b as [|y b IHb].
    + rewrite ldist_nil_r. cbn [length]. apply edit_delete.
      specialize (IHa []). rewrite ldist_nil_r in IHa. exact IHa.
    + rewrite ldist_cons. destruct (Z.eqb x y) eqn:E.
      * apply Z.eqb_eq in E. subst y. apply edit_keep, IHa.
      * destruct (Nat.min_spec (Nat.min (ldist a (y :: b)) (ldist (x :: a) b))
                    (ldist a b)) as [[_ ->]|[_ ->]].
        -- destruct (Nat.min_spec (ldist a (y :: b)) (ldist (x :: a) b))
             as [[_ ->]|[_ ->]].
           ++ apply edit_delete, IHa.
           ++ apply edit_insert, IHb.
        -- apply edit_subst, IHa.
Qed.

(** ... and no script is cheaper. *)
Lemma edit_ldist (a b : jsstring) (n : nat) : edit a b n -> ldist a b <= n.
Proof.
  induction 1 as [|x a b n H IH|x y a b n H IH|x a b n H IH|y a b n H IH].
  - cbn. lia.
  - rewrite ldist_cons, Z.eqb_refl. exact IH.
  - rewrite ldist_cons. destruct (Z.eqb x y); lia.
  - pose proof (ldist_drop_r x a b) as Hd.
    destruct b as [|y b'].
    + rewrite ldist_nil_r in *. cbn [length]. lia.
    + rewrite ldist_cons. pose proof (ldist_drop_r y a b').
      destruct (Z.eqb x y); lia.
  - destruct a as [|x a'].
    + rewrite ldist_nil_l in *. cbn [length]. lia.
    + rewrite ldist_cons. pose proof (ldist_drop_l x a' b).
      destruct (Z.eqb x y); lia.
Qed.

(** Scripts compose, costs add up. *)
Lemma edit_trans (a b : jsstring) (n : nat) :
  edit a b n ->
  forall c k, edit b c k -> exists p, p <= n + k /\ edit a c p.
Proof.
  induction 1 as [|x a b n H IH|x y a b n H IH|x a b n H IH|y a b n H IH];
    intros c k H2.
  - exists k. split; [lia|exact H2].
  - remember (x :: b) as b0 eqn:Eb. revert Eb.
    induction H2 as [|x' b1 c k H2 IH2|x' z b1 c k H2 IH2|x' b1 c k H2 IH2
                     |z b1 c k H2 IH2]; intros Eb.
    + discriminate.
    + inversion Eb; subst. destruct (IH c k H2) as [p [Hp He]].
      exists p. split; [lia|]. apply edit_keep, He.
    + inversion Eb; subst. destruct (IH c k H2) as [p [Hp He]].
      exists (S p). split; [lia|]. apply edit_subst, He.
    + inversion Eb; subst. destruct (IH c k H2) as [p [Hp He]].
      exists (S p). split; [lia|]. apply edit_delete, He.
    + destruct (IH2 Eb) as [p [Hp He]].
      exists (S p). split; [lia|]. apply edit_insert, He.
  - remember (y :: b) as b0 eqn:Eb. revert Eb.
    induction H2 as [|x' b1 c k H2 IH2|x' z b1 c k H2 IH2|x' b1 c k H2 IH2
                     |z b1 c k H2 IH2]; intros Eb.
    + discriminate.
    + inversion Eb; subst. destruct (IH c k H2) as [p [Hp He]].
      exists (S p). split; [lia|]. apply edit_subst, He.
    + inversion Eb; subst. destruct (IH c k H2) as [p [Hp He]].
      exists (S p). split; [lia|]. apply edit_subst, He.
    + inversion Eb; subst. destruct (IH c k H2) as [p [Hp He]].
      exists (S p). split; [lia|]. apply edit_delete, He.
    + destruct (IH2 Eb) as [p [Hp He]].
      exists (S p). split; [lia|]. apply edit_insert, He.
  - destruct (IH c k H2) as [p [Hp He]].
    exists (S p). split; [lia|]. apply edit_delete, He.
  - remember (y :: b) as b0 eqn:Eb. revert Eb.
    induction H2 as [|x' b1 c k H2 IH2|x' z b1 c k H2 IH2|x' b1 c k H2 IH2
                     |z b1 c k H2 IH2]; intros Eb.
    + discriminate.
    + inversion Eb; subst. destruct (IH c k H2) as [p [Hp He]].
      exists (S p). split; [lia|]. apply edit_insert, He.
    + inversion Eb; subst. destruct (IH c k H2) as [p [Hp He]].
      exists (S p). split; [lia|]. apply edit_insert, He.
    + inversion Eb; subst. destruct (IH c k H2) as [p [Hp He]].
      exists p. split; [lia|]. exact He.
    + destruct (IH2 Eb) as [p [Hp He]].
      exists (S p). split; [lia|]. apply edit_insert, He.
Qed.

Lemma ldist_triangle (a b c : jsstring) : ldist a c <= ldist a b + ldist b c.
Proof.
  destruct (edit_trans a b _ (ldist_edit a b) c _ (ldist_edit b c)) as [p [Hp He]].
  apply edit_ldist in He. lia.
Qed.

(** ** editDistance computes the recurrence *)

Lemma firstn_succ (s : jsstring) (i : nat) (x : Z) :
  nth_error s i = Some x -> firstn (S i) s = firstn i s ++ [x].
Proof.
  revert i. induction s as [|c s IH]; intros [|i] H; cbn in H; try discriminate.
  - inversion H. reflexivity.
  - rewrite firstn_cons, (IH i H). reflexivity.
Qed.

Lemma rev_firstn_succ (s : jsstring) (i : nat) (x : Z) :
  nth_error s i = Some x -> rev (firstn (S i) s) = x :: rev (firstn i s).
Proof.
  intros H. rewrite (firstn_succ s i x H), rev_app_distr. reflexivity.
Qed.

Lemma nth_error_lt (s : jsstring) (i : nat) :
  i < length s -> exists x, nth_error s i = Some x.
Proof.
  intros H. destruct (nth_error s i) as [x|] eqn:E; [eauto|].
  apply nth_error_None in E. lia.
Qed.

Lemma levCell_0_l (s1 s2 : jsstring) (j : nat) :
  j <= length s2 -> levCell s1 s2 0 j = j.
Proof.
  intros H. unfold levCell. cbn [firstn rev].
  rewrite ldist_nil_l, length_rev, firstn_length_le; auto.
Qed.

Lemma levCell_0_r (s1 s2 : jsstring) (i : nat) :
  i <= length s1 -> levCell s1 s2 i 0 = i.
Proof.
  intros H. unfold levCell. cbn [firstn rev].
  rewrite ldist_nil_r, length_rev, firstn_length_le; auto.
Qed.

Lemma levCell_S (s1 s2 : jsstring) (i j : nat) :
  i < length s1 -> j < length s2 ->
  levCell s1 s2 (S i) (S j) =
  if charAt_eqb s1 i s2 j then levCell s1 s2 i j
  else 1 + Nat.min (Nat.min (levCell s1 s2 i (S j)) (levCell s1 s2 (S i) j))
                   (levCell s1 s2 i j).
Proof.
  intros Hi Hj.
  destruct (nth_error_lt s1 i Hi) as [x Hx].
  destruct (nth_error_lt s2 j Hj) as [y Hy].
  unfold levCell, charAt_eqb.
  rewrite (rev_firstn_succ s1 i x Hx), (rev_firstn_succ s2 j y Hy), Hx, Hy.
  apply ldist_cons.
Qed.

Section EditTable.

Variables s1 s2 : jsstring.
Let m := length s1.
Let n := length s2.

(** The table after the two initialisation loops. *)
Let initInv (dp : table) : Prop :=
  tableShape dp (m + 1) (n + 1)
  /\ (forall a, a <= m -> tget dp a 0 = a)
  /\ (forall b, b <= n -> tget dp 0 b = b).

(** The table when rows [0 .. k] are filled. *)
Let rowsInv (k : nat) (dp : table) : Prop :=
  tableShape dp (m + 1) (n + 1)
  /\ (forall a, a <= m -> tget dp a 0 = a)
  /\ (forall a b, a <= k -> b <= n -> tget dp a b = levCell s1 s2 a b).

Lemma editTable_init :
  initInv
    (forRange 0 (n + 1) (fun j dp => tset dp 0 j j)
       (forRange 0 (m + 1) (fun i dp => tset dp i 0 i) (newTable m n))).
Proof.
  assert (H1 : tableShape
                 (forRange 0 (m + 1) (fun i dp => tset dp i 0 i) (newTable m n))
                 (m + 1) (n + 1)
               /\ forall a, a < m + 1 ->
                    tget (forRange 0 (m + 1) (fun i dp => tset dp i 0 i)
                            (newTable m n)) a 0 = a).
  { apply (forRange_inv
             (fun k dp => tableShape dp (m + 1) (n + 1)
                          /\ forall a, a < k -> tget dp a 0 = a)).
    - split; [apply newTable_shape|]. intros a Ha. lia.
    - intros k dp Hk [Hs Hc]. cbn [Nat.add]. split; [apply tset_shape, Hs|].
      intros a Ha. destruct (Nat.eq_dec a k) as [->|Hne].
      + apply (tget_tset_eq dp (m + 1) (n + 1)); auto. lia.
      + rewrite tget_tset_neq by lia. apply Hc. lia. }
  destruct H1 as [Hs1 Hc1].
  set (dp1 := forRange 0 (m + 1) _ _) in *.
  assert (H2 : tableShape (forRange 0 (n + 1) (fun j dp => tset dp 0 j j) dp1)
                 (m + 1) (n + 1)
               /\ (forall a, a <= m ->
                     tget (forRange 0 (n + 1) (fun j dp => tset dp 0 j j) dp1) a 0 = a)
               /\ forall b, b < n + 1 ->
                    tget (forRange 0 (n + 1) (fun j dp => tset dp 0 j j) dp1) 0 b = b).
  { apply (forRange_inv
             (fun k dp => tableShape dp (m + 1) (n + 1)
                          /\ (forall a, a <= m -> tget dp a 0 = a)
                          /\ forall b, b < k -> tget dp 0 b = b)).
    - split; [exact Hs1|]. split; [intros a Ha; apply Hc1; lia|]. intros; lia.
    - intros k dp Hk [Hs [Hc Hr]]. cbn [Nat.add].
      split; [apply tset_shape, Hs|]. split.
      + intros a Ha. destruct (Nat.eq_dec a 0) as [->|Ha0].
        * destruct (Nat.eq_dec k 0) as [->|Hk0].
          -- apply (tget_tset_eq dp (m + 1) (n + 1)); auto; lia.
          -- rewrite tget_tset_neq by lia. apply Hc. lia.
        * rewrite tget_tset_neq by lia. apply Hc, Ha.
      + intros b Hb. destruct (Nat.eq_dec b k) as [->|Hne].
        * apply (tget_tset_eq dp (m + 1) (n + 1)); auto. lia.
        * rewrite tget_tset_neq by lia. apply Hr. lia. }
  destruct H2 as [Hs2 [Hc2 Hr2]].
  split; [exact Hs2|]. split; [exact Hc2|]. intros b Hb. apply Hr2. lia.
Qed.

Lemma editTable_row (k : nat) (dp : table) :
  k < m -> rowsInv k dp ->
  rowsInv (S k) (forRange 1 n (editCell s1 s2 (S k)) dp).
Proof.
  intros Hk [Hs [Hc Hr]].
  assert (H : tableShape (forRange 1 n (editCell s1 s2 (S k)) dp) (m + 1) (n + 1)
              /\ (forall a, a <= m ->
                    tget (forRange 1 n (editCell s1 s2 (S k)) dp) a 0 = a)
              /\ (forall a b, a <= k -> b <= n ->
                    tget (forRange 1 n (editCell s1 s2 (S k)) dp) a b
                    = levCell s1 s2 a b)
              /\ (forall b, b <= n ->
                    tget (forRange 1 n (editCell s1 s2 (S k)) dp) (S k) b
                    = levCell s1 s2 (S k) b)).
  { apply (forRange_inv
             (fun l dp => tableShape dp (m + 1) (n + 1)
                          /\ (forall a, a <= m -> tget dp a 0 = a)
                          /\ (forall a b, a <= k -> b <= n ->
                                tget dp a b = levCell s1 s2 a b)
                          /\ (forall b, b <= l ->
                                tget dp (S k) b = levCell s1 s2 (S k) b))).
    - split; [exact Hs|]. split; [exact Hc|]. split; [exact Hr|].
      intros b Hb. assert (b = 0) as -> by lia.
      rewrite Hc by lia. symmetry. apply levCell_0_r. fold m. lia.
    - intros l t Hl [Ts [Tc [Tr Tl]]]. cbn [Nat.add].
      assert (Hset : forall v,
                tableShape (tset t (S k) (S l) v) (m + 1) (n + 1)
                /\ (forall a, a <= m -> tget (tset t (S k) (S l) v) a 0 = a)
                /\ (forall a b, a <= k -> b <= n ->
                      tget (tset t (S k) (S l) v) a b = levCell s1 s2 a b)
                /\ (forall b, b <= l ->
                      tget (tset t (S k) (S l) v) (S k) b = levCell s1 s2 (S k) b)
                /\ tget (tset t (S k) (S l) v) (S k) (S l) = v).
      { intros v. split; [apply tset_shape, Ts|].
        split; [intros a Ha; rewrite tget_tset_neq by lia; apply Tc, Ha|].
        split; [intros a b Ha Hb; rewrite tget_tset_neq by lia; apply Tr; lia|].
        split; [intros b Hb; rewrite tget_tset_neq by lia; apply Tl, Hb|].
        apply (tget_tset_eq t (m + 1) (n + 1)); auto; lia. }
      assert (Hval : tget (editCell s1 s2 (S k) (S l) t) (S k) (S l)
                     = levCell s1 s2 (S k) (S l)
                     /\ exists v, editCell s1 s2 (S k) (S l) t = tset t (S k) (S l) v).
      { unfold editCell. cbn [Nat.sub]. rewrite !Nat.sub_0_r.
        rewrite (levCell_S s1 s2 k l) by (fold m n; lia).
        rewrite (Tr k l) by lia. rewrite (Tr k (S l)) by lia.
        rewrite (Tl l) by lia.
        destruct (charAt_eqb s1 k s2 l).
        - split; [apply Hset|eauto].
        - split; [apply Hset|eauto]. }
      destruct Hval as [Hv [v Ev]]. rewrite Ev in Hv |- *.
      destruct (Hset v) as [A1 [A2 [A3 [A4 A5]]]].
      split; [exact A1|]. split; [exact A2|]. split; [exact A3|].
      intros b Hb. destruct (Nat.eq_dec b (S l)) as [->|Hne]; [exact Hv|].
      apply A4. lia. }
  destruct H as [A1 [A2 [A3 A4]]].
  split; [exact A1|]. split; [exact A2|].
  intros a b Ha Hb. destruct (Nat.eq_dec a (S k)) as [->|Hne].
  - apply A4, Hb.
  - apply A3; lia.
Qed.

Lemma editTable_correct :
  forall a b, a <= m -> b <= n ->
    tget (editTable s1 s2) a b = levCell s1 s2 a b.
Proof.
  assert (H : rowsInv m (editTable s1 s2)).
  { unfold editTable. fold m n.
    apply (forRange_inv (fun k dp => rowsInv k dp)).
    - destruct editTable_init as [Hs [Hc Hr]].
      split; [exact Hs|]. split; [exact Hc|].
      intros a b Ha Hb. assert (a = 0) as -> by lia.
      rewrite Hr by exact Hb. symmetry. apply levCell_0_l. exact Hb.
    - intros k dp Hk Hinv. apply (editTable_row k dp Hk Hinv). }
  destruct H as [_ [_ H]]. intros a b Ha Hb. apply H; assumption.
Qed.

End EditTable.

(** [editDistance] is the Levenshtein recurrence on the reversed strings. *)
Lemma editDistance_ldist (s1 s2 : jsstring) :
  editDistance s1 s2 = ldist (rev s1) (rev s2).
Proof.
  unfold editDistance. rewrite editTable_correct by lia.
  unfold levCell. rewrite !firstn_all. reflexivity.
Qed.

Lemma editDistance_sym (s1 s2 : jsstring) :
  editDistance s1 s2 = editDistance s2 s1.
Proof. rewrite !editDistance_ldist. apply ldist_sym. Qed.

(** C9. [editDistance] satisfies the Levenshtein metric laws: it is 0 from a
    string to itself, the length of [s] from the empty string to [s], and it
    obeys the triangle inequality for arbitrary strings. *)
Theorem editDistance_metric :
  (forall s, editDistance s s = 0)
  /\ (forall s, editDistance [] s = length s)
  /\ (forall a b c, editDistance a c <= editDistance a b + editDistance b c).
Proof.
  split; [|split].
  - intros s. rewrite editDistance_ldist. apply ldist_refl.
  - intros s. rewrite editDistance_ldist. cbn [rev].
    rewrite ldist_nil_l. apply length_rev.
  - intros a b c. rewrite !editDistance_ldist. apply ldist_triangle.
Qed.

(** The distance is the cost of the cheapest edit script. *)
Lemma editDistance_minimal (s1 s2 : jsstring) :
  edit (rev s1) (rev s2) (editDistance s1 s2)
  /\ forall n, edit (rev s1) (rev s2) n -> editDistance s1 s2 <= n.
Proof.
  rewrite editDistance_ldist. split; [apply ldist_edit|].
  intros n. apply edit_ldist.
Qed.

Example editDistance_kitten :
  editDistance [107; 105; 116; 116; 101; 110]%Z [115; 105; 116; 116; 105; 110; 103]%Z = 3.
Proof. vm_compute. reflexivity. Qed.

(** ** longestCommonSubstring *)

Lemma commonPrefix_nil_r (a : jsstring) : commonPrefix a [] = 0.
Proof. destruct a; reflexivity. Qed.

Lemma commonPrefix_sym (a b : jsstring) : commonPrefix a b = commonPrefix b a.
Proof.
  revert b. induction a as [|x a IH]; intros [|y b]; cbn; auto.
  rewrite (Z.eqb_sym y x), IH. reflexivity.
Qed.

Lemma commonPrefix_le_l (a b : jsstring) : commonPrefix a b <= length a.
Proof.
  revert b. induction a as [|x a IH]; intros [|y b]; cbn; try lia.
  destruct (Z.eqb x y); [|lia]. specialize (IH b). lia.
Qed.

Lemma commonPrefix_le_r (a b : jsstring) : commonPrefix a b <= length b.
Proof. rewrite commonPrefix_sym. apply commonPrefix_le_l. Qed.

Lemma commonPrefix_firstn (a b : jsstring) :
  firstn (commonPrefix a b) a = firstn (commonPrefix a b) b.
Proof.
  revert b. induction a as [|x a IH]; intros [|y b]; cbn; auto.
  destruct (Z.eqb x y) eqn:E; [|reflexivity].
  apply Z.eqb_eq in E. subst y. cbn. rewrite IH. reflexivity.
Qed.

(** A positive common prefix starts with a shared code unit. *)
Lemma commonPrefix_pos (a b : jsstring) :
  0 < commonPrefix a b -> exists c, In c a /\ In c b.
Proof.
  destruct a as [|x a], b as [|y b]; cbn; try lia.
  destruct (Z.eqb x y) eqn:E; [|lia]. apply Z.eqb_eq in E. subst y.
  intros _. exists x. split; left; reflexivity.
Qed.

Lemma sufCell_sym (s1 s2 : jsstring) (i j : nat) :
  sufCell s1 s2 i j = sufCell s2 s1 j i.
Proof. apply commonPrefix_sym. Qed.

Lemma sufCell_0_l (s1 s2 : jsstring) (j : nat) : sufCell s1 s2 0 j = 0.
Proof. reflexivity. Qed.

Lemma sufCell_0_r (s1 s2 : jsstring) (i : nat) : sufCell s1 s2 i 0 = 0.
Proof. unfold sufCell. cbn [firstn rev]. apply commonPrefix_nil_r. Qed.

Lemma sufCell_S (s1 s2 : jsstring) (i j : nat) :
  i < length s1 -> j < length s2 ->
  sufCell s1 s2 (S i) (S j) =
  if charAt_eqb s1 i s2 j then S (sufCell s1 s2 i j) else 0.
Proof.
  intros Hi Hj.
  destruct (nth_error_lt s1 i Hi) as [x Hx].
  destruct (nth_error_lt s2 j Hj) as [y Hy].
  unfold sufCell, charAt_eqb.
  rewrite (rev_firstn_succ s1 i x Hx), (rev_firstn_succ s2 j y Hy), Hx, Hy.
  reflexivity.
Qed.

Lemma sufCell_le_l (s1 s2 : jsstring) (i j : nat) : sufCell s1 s2 i j <= i.
Proof.
  unfold sufCell. etransitivity; [apply commonPrefix_le_l|].
  rewrite length_rev. apply firstn_le_length.
Qed.

Lemma sufCell_le_r (s1 s2 : jsstring) (i j : nat) : sufCell s1 s2 i j <= j.
Proof. rewrite sufCell_sym. apply sufCell_le_l. Qed.

Lemma substring_le (s : jsstring) (a b : nat) :
  a <= b -> b <= length s -> substring s a b = firstn (b - a) (skipn a s).
Proof.
  intros Hab Hb. unfold substring.
  replace (Nat.min (Nat.min a b) (length s)) with a by lia.
  replace (Nat.min (Nat.max a b) (length s)) with b by lia.
  reflexivity.
Qed.

Lemma substring_length (s : jsstring) (a b : nat) :
  a <= b -> b <= length s -> length (substring s a b) = b - a.
Proof.
  intros Hab Hb. rewrite substring_le by assumption.
  rewrite length_firstn, length_skipn. lia.
Qed.

Lemma substring_isSubstring (s : jsstring) (a b : nat) :
  isSubstring (substring s a b) s.
Proof.
  unfold substring.
  set (lo := Nat.min (Nat.min a b) (length s)).
  set (hi := Nat.min (Nat.max a b) (length s)).
  exists (firstn lo s), (skipn (hi - lo) (skipn lo s)).
  rewrite firstn_skipn, firstn_skipn. reflexivity.
Qed.

(** The last [len] code units of the prefix of length [e]. *)
Lemma substring_suffix (s : jsstring) (e len : nat) :
  len <= e -> e <= length s ->
  substring s (e - len) e = rev (firstn len (rev (firstn e s))).
Proof.
  intros Hl He. rewrite substring_le by lia.
  rewrite firstn_rev, rev_involutive, firstn_length_le by exact He.
  rewrite skipn_firstn_comm. reflexivity.
Qed.

(** A cell of value [len] at [(e, b)] is a common substring ending there. *)
Lemma sufCell_substring (s1 s2 : jsstring) (e b : nat) :
  e <= length s1 -> b <= length s2 ->
  substring s1 (e - sufCell s1 s2 e b) e = substring s2 (b - sufCell s1 s2 e b) b.
Proof.
  intros He Hb.
  rewrite (substring_suffix s1) by (auto; apply sufCell_le_l).
  rewrite (substring_suffix s2) by (auto; apply sufCell_le_r).
  unfold sufCell. rewrite commonPrefix_firstn. reflexivity.
Qed.

Lemma tget_newTable (rows cols a b : nat) : tget (newTable rows cols) a b = 0.
Proof.
  unfold tget, newTable.
  destruct (Nat.lt_ge_cases a (rows + 1)) as [Ha|Ha].
  - rewrite (nth_indep _ [] (repeat 0 (cols + 1))) by (rewrite repeat_length; lia).
    rewrite nth_repeat. apply nth_repeat.
  - rewrite (nth_overflow (repeat (repeat 0 (cols + 1)) (rows + 1)))
      by (rewrite repeat_length; lia).
    destruct b; reflexivity.
Qed.

Section LcsTable.

Variables s1 s2 : jsstring.
Let m := length s1.
Let n := length s2.

(** The cells the loops have been through when rows [1 .. k] are complete
    and row [k + 1] is filled up to column [l]. *)
Let filled (k l a b : nat) : Prop := a <= k \/ (a = S k /\ b <= l).

Let lcsInv (k l : nat) (st : lcsState) : Prop :=
  let '(dp, maxLength, endIndex) := st in
  tableShape dp (m + 1) (n + 1)
  /\ (forall a b, a <= m -> b <= n -> filled k l a b ->
        tget dp a b = sufCell s1 s2 a b)
  /\ (forall a b, a <= m -> b <= n -> ~ filled k l a b -> tget dp a b = 0)
  /\ (forall a b, a <= m -> b <= n -> filled k l a b ->
        sufCell s1 s2 a b <= maxLength)
  /\ exists b, b <= n /\ endIndex <= m /\ sufCell s1 s2 endIndex b = maxLength.

Lemma lcsCell_inv (k l : nat) (st : lcsState) :
  k < m -> l < n -> lcsInv k l st ->
  lcsInv k (S l) (lcsCell s1 s2 (S k) (S l) st).
Proof.
  intros Hk Hl. destruct st as [[dp mx] e]. intros [Hs [Hf [Hz [Hmax Hex]]]].
  unfold lcsCell. cbn [Nat.sub]. rewrite !Nat.sub_0_r.
  pose proof (sufCell_S s1 s2 k l Hk Hl) as Hrec.
  destruct (charAt_eqb s1 k s2 l).
  - rewrite (Hf k l) by (unfold filled; lia).
    rewrite (tget_tset_eq dp (m + 1) (n + 1)) by (auto; lia).
    replace (sufCell s1 s2 k l + 1) with (sufCell s1 s2 (S k) (S l)) by lia.
    set (v := sufCell s1 s2 (S k) (S l)).
    assert (Hcells :
              tableShape (tset dp (S k) (S l) v) (m + 1) (n + 1)
              /\ (forall a b, a <= m -> b <= n -> filled k (S l) a b ->
                    tget (tset dp (S k) (S l) v) a b = sufCell s1 s2 a b)
              /\ (forall a b, a <= m -> b <= n -> ~ filled k (S l) a b ->
                    tget (tset dp (S k) (S l) v) a b = 0)).
    { split; [apply tset_shape, Hs|]. split.
      - intros a b Ha Hb Hfill.
        destruct (Nat.eq_dec a (S k)) as [->|Hna].
        + destruct (Nat.eq_dec b (S l)) as [->|Hnb].
          * apply (tget_tset_eq dp (m + 1) (n + 1)); auto; lia.
          * rewrite tget_tset_neq by lia. apply Hf; auto. unfold filled in *. lia.
        + rewrite tget_tset_neq by lia. apply Hf; auto. unfold filled in *. lia.
      - intros a b Ha Hb Hfill. rewrite tget_tset_neq by (unfold filled in *; lia).
        apply Hz; auto. unfold filled in *. lia. }
    destruct Hcells as [C1 [C2 C3]].
    destruct (mx <? v) eqn:Elt.
    + apply Nat.ltb_lt in Elt. split; [exact C1|]. split; [exact C2|].
      split; [exact C3|]. split.
      * intros a b Ha Hb Hfill.
        destruct (Nat.eq_dec a (S k)) as [->|Hna].
        -- destruct (Nat.eq_dec b (S l)) as [->|Hnb]; [fold v; lia|].
           assert (sufCell s1 s2 (S k) b <= mx); [|lia].
           apply Hmax; auto. unfold filled in *. lia.
        -- assert (sufCell s1 s2 a b <= mx); [|lia].
           apply Hmax; auto. unfold filled in *. lia.
      * exists (S l). repeat split; auto; lia.
    + apply Nat.ltb_ge in Elt. split; [exact C1|]. split; [exact C2|].
      split; [exact C3|]. split; [|exact Hex].
      intros a b Ha Hb Hfill.
      destruct (Nat.eq_dec a (S k)) as [->|Hna].
      * destruct (Nat.eq_dec b (S l)) as [->|Hnb]; [fold v; lia|].
        apply Hmax; auto. unfold filled in *. lia.
      * apply Hmax; auto. unfold filled in *. lia.
  - split; [exact Hs|]. split; [|split; [|split; [|exact Hex]]].
    + intros a b Ha Hb Hfill.
      destruct (Nat.eq_dec a (S k)) as [->|Hna].
      * destruct (Nat.eq_dec b (S l)) as [->|Hnb].
        -- rewrite Hrec. apply Hz; auto. unfold filled. lia.
        -- apply Hf; auto. unfold filled in *. lia.
      * apply Hf; auto. unfold filled in *. lia.
    + intros a b Ha Hb Hfill. apply Hz; auto. unfold filled in *. lia.
    + intros a b Ha Hb Hfill.
      destruct (Nat.eq_dec a (S k)) as [->|Hna].
      * destruct (Nat.eq_dec b (S l)) as [->|Hnb]; [lia|].
        apply Hmax; auto. unfold filled in *. lia.
      * apply Hmax; auto. unfold filled in *. lia.
Qed.

Lemma lcsRow_inv (k : nat) (st : lcsState) :
  k < m -> lcsInv k 0 st ->
  lcsInv (S k) 0 (forRange 1 n (lcsCell s1 s2 (S k)) st).
Proof.
  intros Hk Hinv.
  assert (H : lcsInv k n (forRange 1 n (lcsCell s1 s2 (S k)) st)).
  { apply (forRange_inv (fun l st => lcsInv k l st)); [exact Hinv|].
    intros l st' Hl Hst'. apply (lcsCell_inv k l st' Hk Hl Hst'). }
  destruct (forRange 1 n (lcsCell s1 s2 (S k)) st) as [[dp mx] e].
  destruct H as [Hs [Hf [Hz [Hmax Hex]]]].
  split; [exact Hs|]. split; [|split; [|split; [|exact Hex]]].
  - intros a b Ha Hb Hfill.
    destruct (Nat.eq_dec a (S (S k))) as [->|Hna].
    + assert (b = 0) as -> by (unfold filled in Hfill; lia).
      rewrite sufCell_0_r. apply Hz; auto. unfold filled. lia.
    + apply Hf; auto. unfold filled in *. lia.
  - intros a b Ha Hb Hfill. apply Hz; auto. unfold filled in *. lia.
  - intros a b Ha Hb Hfill.
    destruct (Nat.eq_dec a (S (S k))) as [->|Hna].
    + assert (b = 0) as -> by (unfold filled in Hfill; lia).
      rewrite sufCell_0_r. lia.
    + apply Hmax; auto. unfold filled in *. lia.
Qed.

(** After the loops [maxLength] bounds every cell and is the value of a cell
    in row [endIndex]. *)
Lemma lcsLoop_spec :
  let '(_, maxLength, endIndex) := lcsLoop s1 s2 in
  (forall a b, a <= m -> b <= n -> sufCell s1 s2 a b <= maxLength)
  /\ exists b, b <= n /\ endIndex <= m /\ sufCell s1 s2 endIndex b = maxLength.
Proof.
  assert (H : lcsInv m 0 (lcsLoop s1 s2)).
  { unfold lcsLoop. fold m n.
    apply (forRange_inv (fun k st => lcsInv k 0 st)).
    - split; [apply newTable_shape|].
      assert (Hzero : forall a b, a <= m -> b <= n -> tget (newTable m n) a b = 0).
      { intros a b _ _. apply tget_newTable. }
      split; [|split; [|split]].
      + intros a b Ha Hb Hfill. rewrite Hzero by assumption.
        unfold filled in Hfill.
        destruct Hfill as [Hfill|[Hfill Hb0]].
        * assert (a = 0) as -> by lia. reflexivity.
        * assert (b = 0) as -> by lia. symmetry. apply sufCell_0_r.
      + intros a b Ha Hb _. apply Hzero; assumption.
      + intros a b Ha Hb Hfill. unfold filled in Hfill.
        destruct Hfill as [Hfill|[Hfill Hb0]].
        * assert (a = 0) as -> by lia. cbn. lia.
        * assert (b = 0) as -> by lia. rewrite sufCell_0_r. lia.
      + exists 0. repeat split; try lia.
    - intros k st Hk Hst. apply (lcsRow_inv k st Hk Hst). }
  destruct (lcsLoop s1 s2) as [[dp mx] e].
  destruct H as [_ [_ [_ [Hmax Hex]]]].
  split; [|exact Hex]. intros a b Ha Hb. apply Hmax; auto. unfold filled. lia.
Qed.

End LcsTable.

Lemma capTo_firstn (cap : nat) (s : jsstring) : capTo cap s = firstn cap s.
Proof.
  unfold capTo. destruct (cap <? length s) eqn:E.
  - apply Nat.ltb_lt in E. rewrite substring_le by lia.
    rewrite Nat.sub_0_r. reflexivity.
  - apply Nat.ltb_ge in E. symmetry. apply firstn_all2, E.
Qed.

(** The result is the common suffix recorded in a cell [(e, j)] of maximal
    value. *)
Lemma longestCommonSubstring_spec (a b : jsstring) (cap : nat) :
  let s1 := firstn cap a in
  let s2 := firstn cap b in
  let r := longestCommonSubstring a b cap in
  exists e j,
    e <= length s1 /\ j <= length s2
    /\ length r = sufCell s1 s2 e j
    /\ r = substring s1 (e - length r) e
    /\ r = substring s2 (j - length r) j
    /\ forall a' b', a' <= length s1 -> b' <= length s2 ->
         sufCell s1 s2 a' b' <= length r.
Proof.
  cbv zeta. unfold longestCommonSubstring. rewrite !capTo_firstn.
  pose proof (lcsLoop_spec (firstn cap a) (firstn cap b)) as H.
  destruct (lcsLoop (firstn cap a) (firstn cap b)) as [[dp mx] e].
  destruct H as [Hmax [j [Hj [He Hcell]]]].
  pose proof (sufCell_le_l (firstn cap a) (firstn cap b) e j) as Hle.
  assert (Hlen : length (substring (firstn cap a) (e - mx) e) = mx).
  { rewrite substring_length by lia. lia. }
  exists e, j. rewrite Hlen. split; [exact He|]. split; [exact Hj|].
  split; [symmetry; exact Hcell|]. split; [reflexivity|].
  split; [|exact Hmax].
  rewrite <- Hcell. apply sufCell_substring; assumption.
Qed.

(** C8. For all strings [a], [b] and every cap, the result of
    [longestCommonSubstring(a, b, cap)] is no longer than
    [min(len(a), len(b), cap)], occurs as a contiguous substring in both
    inputs truncated to their first [cap] code units, and is empty when the
    truncated inputs share no code unit. *)
Theorem longestCommonSubstring_bounded (a b : jsstring) (cap : nat) :
  let r := longestCommonSubstring a b cap in
  length r <= Nat.min (Nat.min (length a) (length b)) cap
  /\ isSubstring r (firstn cap a)
  /\ isSubstring r (firstn cap b)
  /\ ((forall c, In c (firstn cap a) -> ~ In c (firstn cap b)) -> r = []).
Proof.
  cbv zeta.
  destruct (longestCommonSubstring_spec a b cap)
    as [e [j [He [Hj [Hlen [Hr1 [Hr2 _]]]]]]].
  set (r := longestCommonSubstring a b cap) in *.
  split; [|split; [|split]].
  - pose proof (sufCell_le_l (firstn cap a) (firstn cap b) e j).
    pose proof (sufCell_le_r (firstn cap a) (firstn cap b) e j).
    rewrite length_firstn in He, Hj. lia.
  - rewrite Hr1. apply substring_isSubstring.
  - rewrite Hr2. apply substring_isSubstring.
  - intros Hdisj. destruct (Nat.eq_dec (length r) 0) as [H0|Hpos].
    + destruct r; [reflexivity|discriminate].
    + exfalso. unfold sufCell in Hlen.
      destruct (commonPrefix_pos (rev (firstn e (firstn cap a)))
                  (rev (firstn j (firstn cap b)))) as [c [Hc1 Hc2]]; [lia|].
      apply In_rev in Hc1, Hc2.
      apply (Hdisj c).
      * rewrite <- (firstn_skipn e (firstn cap a)). apply in_app_iff. left. exact Hc1.
      * rewrite <- (firstn_skipn j (firstn cap b)). apply in_app_iff. left. exact Hc2.
Qed.

(** The length of the result does not depend on the order of the inputs. *)
Lemma longestCommonSubstring_length_sym (a b : jsstring) (cap : nat) :
  length (longestCommonSubstring a b cap) = length (longestCommonSubstring b a cap).
Proof.
  destruct (longestCommonSubstring_spec a b cap)
    as [e [j [He [Hj [Hlen [_ [_ Hmax]]]]]]].
  destruct (longestCommonSubstring_spec b a cap)
    as [e' [j' [He' [Hj' [Hlen' [_ [_ Hmax']]]]]]].
  apply Nat.le_antisymm.
  - rewrite Hlen, sufCell_sym. apply Hmax'; assumption.
  - rewrite Hlen', sufCell_sym. apply Hmax; assumption.
Qed.

Example longestCommonSubstring_abcab :
  longestCommonSubstring [97; 98; 99; 97; 98]%Z [99; 97; 98; 97]%Z 2000 = [99; 97; 98]%Z
  /\ longestCommonSubstring [97; 98; 99; 97; 98]%Z [99; 97; 98; 97]%Z 3 = [97; 98]%Z.
Proof. vm_compute. split; reflexivity. Qed.

Lemma commonPrefix_app (p x y : jsstring) :
  commonPrefix (p ++ x) (p ++ y) = length p + commonPrefix x y.
Proof.
  induction p as [|c p IH]; [reflexivity|].
  cbn. rewrite Z.eqb_refl, IH. reflexivity.
Qed.

Lemma firstn_length_app {A : Type} (l l' : list A) :
  firstn (length l) (l ++ l') = l.
Proof.
  induction l as [|x l IH]; [reflexivity|]. cbn. rewrite IH. reflexivity.
Qed.

(** The result is a longest one: no contiguous substring common to the two
    truncated inputs is longer. *)
Lemma longestCommonSubstring_longest (a b : jsstring) (cap : nat) (r : jsstring) :
  isSubstring r (firstn cap a) -> isSubstring r (firstn cap b) ->
  length r <= length (longestCommonSubstring a b cap).
Proof.
  intros [pre1 [post1 E1]] [pre2 [post2 E2]].
  destruct (longestCommonSubstring_spec a b cap) as [_ [_ [_ [_ [_ [_ [_ Hmax]]]]]]].
  specialize (Hmax (length (pre1 ++ r)) (length (pre2 ++ r))).
  unfold sufCell in Hmax. rewrite E1, E2 in Hmax.
  rewrite !app_assoc, !firstn_length_app, !rev_app_distr in Hmax.
  rewrite commonPrefix_app, length_rev in Hmax.
  etransitivity; [|apply Hmax; rewrite !length_app; lia]. lia.
Qed.

(** ** rabinKarpSearch on patterns of at most 128 code units *)

Lemma Qred_ofZ (q : Q) (z : Z) : (q == inject_Z z)%Q -> Qred q = inject_Z z.
Proof.
  intros H. rewrite (Qred_complete _ _ H).
  apply Qcanon.Qred_identity. cbn. apply Z.gcd_1_r.
Qed.

Lemma jsmul_ofZ (a b : Z) : jsmul (ofZ a) (ofZ b) = ofZ (a * b).
Proof.
  unfold jsmul, ofZ. f_equal. apply Qred_ofZ. rewrite inject_Z_mult. reflexivity.
Qed.

Lemma jsadd_ofZ (a b : Z) : jsadd (ofZ a) (ofZ b) = ofZ (a + b).
Proof.
  unfold jsadd, ofZ. f_equal. apply Qred_ofZ. rewrite inject_Z_plus. reflexivity.
Qed.

Lemma jssub_ofZ (a b : Z) : jssub (ofZ a) (ofZ b) = ofZ (a - b).
Proof.
  unfold jssub, ofZ. f_equal. apply Qred_ofZ.
  unfold Z.sub. rewrite inject_Z_plus, inject_Z_opp. reflexivity.
Qed.

Lemma jsneg_ofZ (a : Z) : jsneg (ofZ a) = (a <? 0)%Z.
Proof.
  unfold jsneg, ofZ. destruct (Qle_bool 0 (inject_Z a)) eqn:E; cbn [negb].
  - apply Qle_bool_iff in E. change 0%Q with (inject_Z 0) in E.
    rewrite <- Zle_Qle in E. symmetry. apply Z.ltb_ge, E.
  - symmetry. apply Z.ltb_lt. apply Z.nle_gt. intros H.
    assert (Qle_bool 0 (inject_Z a) = true); [|congruence].
    apply Qle_bool_iff. change 0%Q with (inject_Z 0). rewrite <- Zle_Qle. exact H.
Qed.

Lemma Qtrunc_comp (p q : Q) : (p == q)%Q -> Qtrunc p = Qtrunc q.
Proof.
  intros H. unfold Qtrunc.
  assert (E : Qle_bool 0 p = Qle_bool 0 q).
  { destruct (Qle_bool 0 p) eqn:Ep, (Qle_bool 0 q) eqn:Eq; auto.
    - apply Qle_bool_iff in Ep. rewrite H in Ep. apply Qle_bool_iff in Ep. congruence.
    - apply Qle_bool_iff in Eq. rewrite <- H in Eq. apply Qle_bool_iff in Eq.
      congruence. }
  rewrite E. destruct (Qle_bool 0 q); rewrite H; reflexivity.
Qed.

Lemma Qtrunc_div_101 (x : Z) :
  Qtrunc (inject_Z x / inject_Z 101) = Z.quot x 101.
Proof.
  unfold Qtrunc.
  assert (Hq : (inject_Z x / inject_Z 101 == x # 101)%Q).
  { unfold Qeq. cbn. lia. }
  destruct (Qle_bool 0 (inject_Z x / inject_Z 101)) eqn:E.
  - apply Qle_bool_iff in E. rewrite Hq in E.
    assert (0 <= x)%Z by (unfold Qle in E; cbn in E; lia).
    rewrite Hq. cbn. apply eq_sym, Z.quot_div_nonneg; lia.
  - assert (x < 0)%Z.
    { apply Z.nle_gt. intros Hx.
      assert (Qle_bool 0 (inject_Z x / inject_Z 101) = true); [|congruence].
      apply Qle_bool_iff. rewrite Hq. unfold Qle. cbn. lia. }
    rewrite Hq. unfold Qceiling. cbn.
    rewrite <- (Z.opp_involutive x) at 2. rewrite Z.quot_opp_l by lia.
    rewrite Z.quot_div_nonneg by lia. reflexivity.
Qed.

Lemma jsrem_Num (q : Q) (x : Z) :
  (q == inject_Z x)%Q -> jsrem (Num q) 101 = ofZ (Z.rem x 101).
Proof.
  intros H. unfold jsrem, ofZ. f_equal. apply Qred_ofZ.
  rewrite (Qtrunc_comp (q / inject_Z 101) (inject_Z x / inject_Z 101))
    by (rewrite H; reflexivity).
  rewrite Qtrunc_div_101, H.
  rewrite (Z.quot_rem' x 101) at 1.
  rewrite inject_Z_plus, inject_Z_mult. ring.
Qed.

Lemma jsrem_ofZ (x : Z) : jsrem (ofZ x) 101 = ofZ (Z.rem x 101).
Proof. apply jsrem_Num. reflexivity. Qed.

(** The multiplier [h] is exact as long as the power does not overflow. *)
Lemma search_multiplier (m : nat) :
  1 <= m <= 128 ->
  jsrem (pow256 (Z.of_nat m - 1)) 101 = ofZ ((256 ^ (Z.of_nat m - 1)) mod 101).
Proof.
  intros Hm. unfold pow256.
  assert (E : (Z.of_nat m - 1 <=? 127)%Z = true) by (apply Z.leb_le; lia).
  rewrite E.
  rewrite (jsrem_Num _ (256 ^ (Z.of_nat m - 1))).
  - rewrite Z.rem_mod_nonneg; [reflexivity| |lia].
    apply Z.pow_nonneg. lia.
  - rewrite Zpower_Qpower by lia. reflexivity.
Qed.

Lemma rem_fix_mod (x : Z) :
  (if (Z.rem x 101 <? 0)%Z then Z.rem x 101 + 101 else Z.rem x 101)%Z
  = (x mod 101)%Z.
Proof.
  pose proof (Z.quot_rem' x 101) as Hq.
  assert (Hb : (-101 < Z.rem x 101 < 101)%Z).
  { pose proof (Z.rem_bound_abs x 101). lia. }
  destruct (Z.rem x 101 <? 0)%Z eqn:E.
  - apply Z.ltb_lt in E. apply (Z.mod_unique_pos x 101 (Z.quot x 101 - 1)); lia.
  - apply Z.ltb_ge in E. apply (Z.mod_unique_pos x 101 (Z.quot x 101)); lia.
Qed.

(** One round of the rolling hash on integers. *)
Lemma rollHash_ofZ (text : jsstring) (m i : nat) (h H c c' : Z) :
  nth_error text i = Some c ->
  nth_error text (i + m) = Some c' ->
  rollHash text m i (ofZ h) (ofZ H) = ofZ ((256 * (H - c * h) + c') mod 101).
Proof.
  intros Hc Hc'. unfold rollHash, charCodeAt. rewrite Hc, Hc'.
  rewrite jsmul_ofZ, jssub_ofZ, jsmul_ofZ, jsadd_ofZ, jsrem_ofZ, jsneg_ofZ.
  rewrite <- rem_fix_mod.
  destruct (Z.rem (256 * (H - c * h) + c') 101 <? 0)%Z; [|reflexivity].
  apply jsadd_ofZ.
Qed.

Lemma poly_fold (w : jsstring) (p0 : Z) :
  fold_left (fun h c => (h * 256 + c)%Z) w p0
  = (p0 * 256 ^ Z.of_nat (length w) + poly w)%Z.
Proof.
  unfold poly. revert p0. induction w as [|c w IH]; intros p0.
  - cbn. lia.
  - cbn [fold_left length]. rewrite (IH (p0 * 256 + c)%Z), (IH (0 * 256 + c)%Z).
    rewrite Nat2Z.inj_succ, Z.pow_succ_r by lia. ring.
Qed.

Lemma poly_cons (c : Z) (w : jsstring) :
  poly (c :: w) = (c * 256 ^ Z.of_nat (length w) + poly w)%Z.
Proof.
  unfold poly at 1. cbn [fold_left]. rewrite poly_fold. ring.
Qed.

Lemma poly_snoc (w : jsstring) (c : Z) : poly (w ++ [c]) = (poly w * 256 + c)%Z.
Proof. unfold poly. rewrite fold_left_app. reflexivity. Qed.

(** On code units, which are not negative, the hash is the polynomial
    modulo the prime. *)
Lemma rabinKarpHash_poly (w : jsstring) :
  wfString w -> rabinKarpHash w 101 = (poly w mod 101)%Z.
Proof.
  unfold rabinKarpHash, poly.
  assert (G : forall h0 p0,
             wfString w -> (0 <= h0)%Z -> h0 = (p0 mod 101)%Z ->
             fold_left (fun hash c => Z.rem (hash * 256 + c) 101) w h0
             = (fold_left (fun h c => (h * 256 + c)%Z) w p0 mod 101)%Z).
  { induction w as [|c w IH]; intros h0 p0 Hwf Hh Hp; cbn [fold_left].
    - exact Hp.
    - inversion Hwf as [|? ? Hc Hw]; subst. unfold codeUnit in Hc.
      apply IH; [exact Hw| |].
      + apply Z.rem_nonneg; lia.
      + rewrite Z.rem_mod_nonneg by lia.
        rewrite <- Z.add_mod_idemp_l by lia.
        rewrite Z.mul_mod_idemp_l by lia.
        rewrite Z.add_mod_idemp_l by lia. reflexivity. }
  intros Hwf. apply G; [exact Hwf|lia|reflexivity].
Qed.

(** Removing the leading code unit and appending one, modulo the prime. *)
Lemma roll_mod (c c' P X : Z) :
  ((256 * ((c * P + X) mod 101 - c * (P mod 101)) + c') mod 101
   = (X * 256 + c') mod 101)%Z.
Proof.
  rewrite (Z.mod_eq (c * P + X) 101), (Z.mod_eq P 101) by lia.
  replace (256 * (c * P + X - 101 * ((c * P + X) / 101)
                  - c * (P - 101 * (P / 101))) + c')%Z
    with (X * 256 + c' + (256 * (c * (P / 101) - (c * P + X) / 101)) * 101)%Z
    by ring.
  apply Z_mod_plus_full.
Qed.

Lemma skipn_nth_error (s : jsstring) (k : nat) (c : Z) :
  nth_error s k = Some c -> skipn k s = c :: skipn (S k) s.
Proof.
  revert k. induction s as [|x s IH]; intros [|k] H; cbn in H; try discriminate.
  - inversion H. reflexivity.
  - cbn [skipn]. apply IH, H.
Qed.

(** Two consecutive windows of [m] code units. *)
Lemma windows_step (text : jsstring) (m k : nat) :
  1 <= m -> k + m < length text ->
  exists c c' w,
    nth_error text k = Some c
    /\ nth_error text (k + m) = Some c'
    /\ length w = m - 1
    /\ substring text k (k + m) = c :: w
    /\ substring text (S k) (S k + m) = w ++ [c'].
Proof.
  intros Hm Hk.
  destruct (nth_error_lt text k ltac:(lia)) as [c Hc].
  destruct (nth_error_lt text (k + m) ltac:(lia)) as [c' Hc'].
  exists c, c', (firstn (m - 1) (skipn (S k) text)).
  split; [exact Hc|]. split; [exact Hc'|]. split.
  - rewrite length_firstn, length_skipn. lia.
  - rewrite !substring_le by lia.
    replace (k + m - k) with (S (m - 1)) by lia.
    replace (S k + m - S k) with (S (m - 1)) by lia.
    rewrite (skipn_nth_error text k c Hc). split; [reflexivity|].
    apply firstn_succ. rewrite nth_error_skipn.
    replace (S k + (m - 1)) with (k + m) by lia. exact Hc'.
Qed.

Lemma substring_wf (text : jsstring) (a b : nat) :
  wfString text -> wfString (substring text a b).
Proof.
  intros H. unfold wfString, substring in *. rewrite Forall_forall in *.
  intros x Hx. apply H.
  set (lo := Nat.min (Nat.min a b) (length text)) in *.
  rewrite <- (firstn_skipn lo text). apply in_app_iff. right.
  set (hi := Nat.min (Nat.max a b) (length text)) in *.
  rewrite <- (firstn_skipn (hi - lo) (skipn lo text)). apply in_app_iff. left.
  exact Hx.
Qed.

(** The rolled hash is the hash of the next window. *)
Lemma rollHash_window (text : jsstring) (m k : nat) :
  wfString text -> 1 <= m <= 128 -> k + m < length text ->
  rollHash text m k (jsrem (pow256 (Z.of_nat m - 1)) 101)
    (ofZ (rabinKarpHash (substring text k (k + m)) 101))
  = ofZ (rabinKarpHash (substring text (S k) (S k + m)) 101).
Proof.
  intros Hwf Hm Hk.
  destruct (windows_step text m k ltac:(lia) Hk) as [c [c' [w [Hc [Hc' [Hw [E1 E2]]]]]]].
  rewrite (search_multiplier m Hm).
  rewrite (rollHash_ofZ text m k _ _ c c' Hc Hc').
  rewrite !rabinKarpHash_poly by (apply substring_wf, Hwf).
  rewrite E1, E2, poly_cons, poly_snoc, Hw.
  replace (Z.of_nat (m - 1)) with (Z.of_nat m - 1)%Z by lia.
  rewrite roll_mod. reflexivity.
Qed.

Lemma jseq_ofZ_refl (z : Z) : jseq (ofZ z) (ofZ z) = true.
Proof. apply Qeq_bool_refl. Qed.

(** X6. For a pattern of 1 to 128 code units [rabinKarpSearch] is exact: it
    returns the offsets of all occurrences, in increasing order. *)
Theorem rabinKarpSearch_exact_short (text pattern : jsstring) :
  wfString text -> 1 <= length pattern <= 128 ->
  rabinKarpSearch text pattern = occurrences text pattern.
Proof.
  intros Hwf Hm. unfold rabinKarpSearch, occurrences.
  set (m := length pattern) in *. set (n := length text) in *.
  destruct (n <? m) eqn:Enm.
  - apply Nat.ltb_lt in Enm. replace (n + 1 - m) with 0 by lia. reflexivity.
  - apply Nat.ltb_ge in Enm. replace (n + 1 - m) with (n - m + 1) by lia.
    set (P := fun i => string_eqb (substring text i (i + m)) pattern).
    set (ph := ofZ (rabinKarpHash pattern 101)).
    set (h := jsrem (pow256 (Z.of_nat m - 1)) 101).
    assert (Hinv :
              let st := forRange 0 (n - m + 1) (searchStep text pattern ph h)
                          ([], ofZ (rabinKarpHash (substring text 0 m) 101)) in
              fst st = filter P (seq 0 (n - m + 1))
              /\ (n - m + 1 <= n - m ->
                  snd st = ofZ (rabinKarpHash
                                  (substring text (n - m + 1) (n - m + 1 + m)) 101))).
    { apply (forRange_inv
               (fun k st =>
                  fst st = filter P (seq 0 k)
                  /\ (k <= n - m ->
                      snd st = ofZ (rabinKarpHash (substring text k (k + m)) 101)))).
      - split; [reflexivity|]. intros _. reflexivity.
      - intros k [matches th] Hk [Hmatches Hth]. cbn [Nat.add fst snd] in *.
        specialize (Hth ltac:(lia)). subst th matches.
        unfold searchStep. fold m n. cbn [fst snd].
        rewrite seq_S, filter_app. cbn [filter Nat.add]. split.
        + change (P k) with (string_eqb (substring text k (k + m)) pattern).
          destruct (string_eqb (substring text k (k + m)) pattern) eqn:EP.
          * apply string_eqb_eq in EP. rewrite EP.
            unfold ph. rewrite jseq_ofZ_refl. reflexivity.
          * destruct (jseq ph _); rewrite app_nil_r; reflexivity.
        + intros HSk. assert (Hlt : (k <? n - m) = true) by (apply Nat.ltb_lt; lia).
          rewrite Hlt. apply rollHash_window; auto. fold n. lia. }
    cbv zeta in Hinv. destruct Hinv as [Hfst _]. exact Hfst.
Qed.

(** A pattern longer than the text is found nowhere, whatever its length. *)
Lemma rabinKarpSearch_longer_pattern (text pattern : jsstring) :
  length text < length pattern ->
  rabinKarpSearch text pattern = [] /\ occurrences text pattern = [].
Proof.
  intros H. unfold rabinKarpSearch, occurrences.
  apply Nat.ltb_lt in H as Hb. rewrite Hb.
  replace (length text + 1 - length pattern) with 0 by lia. split; reflexivity.
Qed.

(** [occurrences] lists the offsets at which the text reads the pattern. *)
Lemma occurrences_spec (text pattern : jsstring) (i : nat) :
  In i (occurrences text pattern) <->
  exists pre post, text = pre ++ pattern ++ post /\ length pre = i.
Proof.
  unfold occurrences. rewrite filter_In, in_seq, string_eqb_eq. split.
  - intros [Hi E]. rewrite substring_le in E by lia.
    replace (i + length pattern - i) with (length pattern) in E by lia.
    exists (firstn i text), (skipn (length pattern) (skipn i text)).
    split.
    + rewrite <- E at 1. rewrite !firstn_skipn. reflexivity.
    + apply firstn_length_le. lia.
  - intros [pre [post [E Hlen]]]. subst text i. rewrite !length_app.
    split; [lia|]. rewrite substring_le by (rewrite ?length_app; lia).
    replace (length pre + length pattern - length pre) with (length pattern) by lia.
    rewrite skipn_app, Nat.sub_diag, skipn_all. cbn [skipn app].
    apply firstn_length_app.
Qed.

(** ** Sets as lists *)

Lemma set_has_In (s : list jsstring) (x : jsstring) :
  set_has s x = true <-> In x s.
Proof.
  unfold set_has. rewrite existsb_exists. split.
  - intros [y [Hy E]]. apply string_eqb_eq in E. subst. exact Hy.
  - intros H. exists x. split; [exact H|apply string_eqb_refl].
Qed.

Lemma set_has_false (s : list jsstring) (x : jsstring) :
  set_has s x = false <-> ~ In x s.
Proof.
  rewrite <- set_has_In. destruct (set_has s x); split; congruence.
Qed.

Lemma set_add_In (s : list jsstring) (x y : jsstring) :
  In y (set_add s x) <-> In y s \/ y = x.
Proof.
  unfold set_add. destruct (set_has s x) eqn:E.
  - apply set_has_In in E. split; [tauto|]. intros [H|H]; subst; assumption.
  - rewrite in_app_iff. cbn. split; intros [H|H]; auto.
    destruct H as [H|[]]; auto.
Qed.

Lemma set_add_NoDup (s : list jsstring) (x : jsstring) :
  NoDup s -> NoDup (set_add s x).
Proof.
  intros H. unfold set_add. destruct (set_has s x) eqn:E; [exact H|].
  apply set_has_false in E.
  apply NoDup_app; [exact H|repeat constructor; cbn; tauto|].
  intros y Hy [Hx|[]]. subst. contradiction.
Qed.

Lemma set_add_length (s : list jsstring) (x : jsstring) :
  length (set_add s x) <= S (length s).
Proof.
  unfold set_add. destruct (set_has s x); [lia|]. rewrite length_app. cbn. lia.
Qed.

Lemma fold_set_add_In (l acc : list jsstring) (y : jsstring) :
  In y (fold_left set_add l acc) <-> In y acc \/ In y l.
Proof.
  revert acc. induction l as [|x l IH]; intros acc; cbn.
  - tauto.
  - rewrite IH, set_add_In. intuition.
Qed.

Lemma fold_set_add_NoDup (l acc : list jsstring) :
  NoDup acc -> NoDup (fold_left set_add l acc).
Proof.
  revert acc. induction l as [|x l IH]; intros acc H; cbn; [exact H|].
  apply IH, set_add_NoDup, H.
Qed.

Lemma fold_set_add_length (l acc : list jsstring) :
  length (fold_left set_add l acc) <= length acc + length l.
Proof.
  revert acc. induction l as [|x l IH]; intros acc; cbn; [lia|].
  specialize (IH (set_add acc x)). pose proof (set_add_length acc x). lia.
Qed.

Lemma mkSet_In (l : list jsstring) (y : jsstring) : In y (mkSet l) <-> In y l.
Proof. unfold mkSet. rewrite fold_set_add_In. cbn. tauto. Qed.

Lemma mkSet_NoDup (l : list jsstring) : NoDup (mkSet l).
Proof. apply fold_set_add_NoDup. constructor. Qed.

Lemma mkSet_length (l : list jsstring) : length (mkSet l) <= length l.
Proof. unfold mkSet. pose proof (fold_set_add_length l []). cbn in H. lia. Qed.

(** Two duplicate-free lists with the same members have the same length. *)
Lemma NoDup_same_length (l1 l2 : list jsstring) :
  NoDup l1 -> NoDup l2 -> (forall x, In x l1 <-> In x l2) -> length l1 = length l2.
Proof.
  intros H1 H2 H. apply Permutation_length, NoDup_Permutation; assumption.
Qed.

Lemma countCommon_filter (set1 set2 : list jsstring) :
  countCommon set1 set2 = length (filter (set_has set2) set1).
Proof.
  unfold countCommon.
  assert (G : forall l n,
             fold_left (fun c sh => if set_has set2 sh then c + 1 else c) l n
             = n + length (filter (set_has set2) l)).
  { induction l as [|x l IH]; intros n; cbn; [lia|].
    rewrite IH. destruct (set_has set2 x); cbn; lia. }
  apply G.
Qed.

(** [commonCount] is the number of distinct shared shingles, however they
    are listed. *)
Lemma countCommon_spec (s1 s2 common : list jsstring) :
  NoDup common ->
  (forall sh, In sh common <-> In sh s1 /\ In sh s2) ->
  countCommon (mkSet s1) (mkSet s2) = length common.
Proof.
  intros Hnd Hc. rewrite countCommon_filter.
  apply NoDup_same_length.
  - apply NoDup_filter, mkSet_NoDup.
  - exact Hnd.
  - intros x. rewrite filter_In, set_has_In, !mkSet_In, Hc. tauto.
Qed.

Lemma countCommon_le_l (s1 s2 : list jsstring) :
  countCommon (mkSet s1) (mkSet s2) <= length s1.
Proof.
  rewrite countCommon_filter.
  pose proof (filter_length_le (set_has (mkSet s2)) (mkSet s1)).
  pose proof (mkSet_length s1). lia.
Qed.

Lemma countCommon_sym (s1 s2 : list jsstring) :
  countCommon (mkSet s1) (mkSet s2) = countCommon (mkSet s2) (mkSet s1).
Proof.
  rewrite !countCommon_filter. apply NoDup_same_length.
  - apply NoDup_filter, mkSet_NoDup.
  - apply NoDup_filter, mkSet_NoDup.
  - intros x. rewrite !filter_In, !set_has_In. tauto.
Qed.

Lemma countCommon_le_r (s1 s2 : list jsstring) :
  countCommon (mkSet s1) (mkSet s2) <= length s2.
Proof. rewrite countCommon_sym. apply countCommon_le_l. Qed.

(** ** computeAllSimilarities: the shape of the result *)


Lemma forRange_append {A : Type} (f : nat -> list A) (lo n : nat) (acc : list A) :
  forRange lo n (fun i l => l ++ f i) acc = acc ++ flat_map f (seq lo n).
Proof.
  induction n as [|n IH].
  - cbn. rewrite app_nil_r. reflexivity.
  - rewrite forRange_S, IH, seq_S, flat_map_app, <- app_assoc. cbn.
    rewrite app_nil_r. reflexivity.
Qed.

Lemma pairs_In (n i j : nat) : In (i, j) (pairs n) <-> i < j < n.
Proof.
  unfold pairs. rewrite in_flat_map. split.
  - intros [a [Ha H]]. apply in_map_iff in H. destruct H as [b [E Hb]].
    inversion E; subst. apply in_seq in Ha, Hb. lia.
  - intros H. exists i. split; [apply in_seq; lia|].
    apply in_map_iff. exists j. split; [reflexivity|apply in_seq; lia].
Qed.


Lemma forRange_ext {S : Type} (lo n : nat) (body body' : nat -> S -> S) (s : S) :
  (forall i st, body i st = body' i st) ->
  forRange lo n body s = forRange lo n body' s.
Proof.
  intros H. induction n as [|n IH]; [reflexivity|].
  rewrite !forRange_S, IH. apply H.
Qed.

Lemma forRange_nested_push {A : Type} (f : nat -> nat -> A) (n : nat) :
  forRange 0 n
    (fun i results =>
       forRange (i + 1) (n - (i + 1)) (fun j results => results ++ [f i j]) results)
    [] =
  map (fun p => f (fst p) (snd p))
    (flat_map (fun i => map (fun j => (i, j)) (seq (i + 1) (n - (i + 1)))) (seq 0 n)).
Proof.
  transitivity
    (forRange 0 n
       (fun i l => l ++ map (f i) (seq (i + 1) (n - (i + 1)))) []).
  - apply forRange_ext. intros i acc. apply (forRange_push (f i)).
  - rewrite forRange_append. cbn [app].
    rewrite flat_map_concat_map, flat_map_concat_map, concat_map, map_map.
    f_equal. apply map_ext. intros i. rewrite map_map. reflexivity.
Qed.

(** One result per pair [i < j], in loop order. *)
Lemma computeAllSimilarities_pairs (documents : list Document) :
  computeAllSimilarities documents =
  map (fun p =>
         pairResult documents
           (map (fun d => createShingles (doc_content d) 3) documents)
           (map (fun d => wordCount (doc_content d)) documents)
           (fst p) (snd p))
    (pairs (length documents)).
Proof.
  unfold computeAllSimilarities, pairs.
  apply (forRange_nested_push (pairResult documents _ _)).
Qed.

(** ** The primary similarity *)

Lemma QofNat_pos (n : nat) : 1 <= n -> (0 < QofNat n)%Q.
Proof.
  intros H. unfold QofNat, Qlt. cbn. lia.
Qed.

Lemma QofNat_le (a b : nat) : a <= b -> (QofNat a <= QofNat b)%Q.
Proof.
  intros H. unfold QofNat. rewrite <- Zle_Qle. lia.
Qed.

(** A ratio of a count to a larger positive count, as a percentage, is at
    most 100. *)
Lemma percentage_le_100 (c a : nat) :
  c <= a -> 1 <= a -> (QofNat c / QofNat a * 100 <= 100)%Q.
Proof.
  intros Hca Ha.
  assert (H1 : (QofNat c / QofNat a <= 1)%Q).
  { apply Qle_shift_div_r; [apply QofNat_pos, Ha|].
    rewrite Qmult_1_l. apply QofNat_le, Hca. }
  setoid_replace (100 : Q) with (1 * 100)%Q at 2 by reflexivity.
  apply Qmult_le_compat_r; [exact H1|]. discriminate.
Qed.

Lemma docAt_nth_error (documents : list Document) (i : nat) (d : Document) :
  nth_error documents i = Some d -> docAt documents i = d.
Proof. intros H. unfold docAt. apply nth_error_nth. exact H. Qed.

Lemma nth_map_some {A B : Type} (f : A -> B) (l : list A) (i : nat) (x : A) (d : B) :
  nth_error l i = Some x -> nth i (map f l) d = f x.
Proof.
  intros H. apply nth_error_nth. rewrite nth_error_map, H. reflexivity.
Qed.

(** What [pairResult] stores for documents [di] and [dj]. *)
Lemma pairResult_fields (documents : list Document) (i j : nat) (di dj : Document) :
  nth_error documents i = Some di ->
  nth_error documents j = Some dj ->
  let r := pairResult documents
             (map (fun d => createShingles (doc_content d) 3) documents)
             (map (fun d => wordCount (doc_content d)) documents) i j in
  let s1 := createShingles (doc_content di) 3 in
  let s2 := createShingles (doc_content dj) 3 in
  let commonCount := countCommon (mkSet s1) (mkSet s2) in
  let avg := Nat.max 1 ((wordCount (doc_content di) + wordCount (doc_content dj)) / 2) in
  doc1Id r = doc_id di /\ doc2Id r = doc_id dj
  /\ rawMatchCount r = commonCount
  /\ avgWords r = avg
  /\ similarity r = (QofNat commonCount / QofNat avg * 100)%Q
  /\ matchMetric r = similarity r
  /\ compositeScore r =
     (compositeOf (doc_content di) (doc_content dj) (jaccardSimilarity s1 s2) * 100)%Q.
Proof.
  intros Hi Hj. unfold pairResult. cbn.
  rewrite (docAt_nth_error _ _ _ Hi), (docAt_nth_error _ _ _ Hj).
  rewrite (nth_map_some _ _ _ _ _ Hi), (nth_map_some _ _ _ _ _ Hj).
  rewrite (nth_map_some _ _ _ _ _ Hi), (nth_map_some _ _ _ _ _ Hj).
  repeat split; reflexivity.
Qed.

(** The shared shingles of two documents are never more than the average of
    their word counts. *)
Lemma commonCount_le_avgWords (c1 c2 : jsstring) :
  countCommon (mkSet (createShingles c1 3)) (mkSet (createShingles c2 3))
  <= Nat.max 1 ((wordCount c1 + wordCount c2) / 2).
Proof.
  pose proof (countCommon_le_l (createShingles c1 3) (createShingles c2 3)) as H1.
  pose proof (countCommon_le_r (createShingles c1 3) (createShingles c2 3)) as H2.
  pose proof (createShingles_le_wordCount c1) as H3.
  pose proof (createShingles_le_wordCount c2) as H4.
  set (c := countCommon _ _) in *.
  assert (c <= (wordCount c1 + wordCount c2) / 2).
  { apply Nat.div_le_lower_bound; lia. }
  lia.
Qed.

(** The result emitted for a pair, found by its position. *)
Lemma computeAllSimilarities_at (documents : list Document) (i j : nat) :
  i < j < length documents ->
  exists k,
    nth_error (pairs (length documents)) k = Some (i, j)
    /\ nth_error (computeAllSimilarities documents) k =
       Some (pairResult documents
               (map (fun d => createShingles (doc_content d) 3) documents)
               (map (fun d => wordCount (doc_content d)) documents) i j).
Proof.
  intros H. apply pairs_In in H. apply In_nth_error in H. destruct H as [k Hk].
  exists k. split; [exact Hk|].
  rewrite computeAllSimilarities_pairs, nth_error_map, Hk. reflexivity.
Qed.

(** On a trimmed content the shingles [createShingles] returns are the
    3-word shingles. *)
Lemma createShingles_trimmed (content : jsstring) :
  trimmed content -> createShingles content 3 = wordShingles content.
Proof.
  intros [Hhd Hlast]. destruct content as [|c s]; [reflexivity|].
  assert (Hclean : filter nonEmpty (split_ws (c :: s)) = split_ws (c :: s)).
  { apply split_ws_clean; [exact Hhd|].
    rewrite last_cons in Hlast |- *. destruct s as [|x t]; [exact Hhd|].
    rewrite last_cons in Hlast |- *. exact Hlast. }
  rewrite createShingles_windows. unfold wordShingles, wordsOf.
  rewrite Hclean. reflexivity.
Qed.

(** C1, amended. For every list of documents and every pair of indices
    [i < j] whose two contents neither start nor end with white space, the
    result emitted for that pair (the one at the pair's position in loop
    order) has as primary similarity [(commonCount / avgWords) * 100], where
    [commonCount] is the number of distinct 3-word shingles the two
    documents share, the words being the non-empty tokens, and [avgWords] is
    [max(1, floor((w_i + w_j) / 2))] for the counts of non-empty
    white-space-separated tokens. No clamp is applied, and none is needed:
    the value is at most 100. *)
Theorem computeAllSimilarities_similarity
    (documents : list Document) (i j : nat) (di dj : Document)
    (common : list jsstring) :
  i < j ->
  nth_error documents i = Some di ->
  nth_error documents j = Some dj ->
  trimmed (doc_content di) -> trimmed (doc_content dj) ->
  NoDup common ->
  (forall sh, In sh common <->
              In sh (wordShingles (doc_content di))
              /\ In sh (wordShingles (doc_content dj))) ->
  exists k r,
    nth_error (pairs (length documents)) k = Some (i, j)
    /\ nth_error (computeAllSimilarities documents) k = Some r
    /\ doc1Id r = doc_id di /\ doc2Id r = doc_id dj
    /\ similarity r =
       (QofNat (length common)
        / QofNat (Nat.max 1 ((length (wordsOf (doc_content di))
                              + length (wordsOf (doc_content dj))) / 2))
        * 100)%Q
    /\ (similarity r <= 100)%Q.
Proof.
  intros Hij Hi Hj Hti Htj Hnd Hc.
  rewrite <- (createShingles_trimmed _ Hti), <- (createShingles_trimmed _ Htj) in Hc.
  assert (Hlen : i < j < length documents).
  { split; [exact Hij|]. apply nth_error_Some. congruence. }
  destruct (computeAllSimilarities_at documents i j Hlen) as [k [Hk Hr]].
  exists k. eexists. split; [exact Hk|]. split; [exact Hr|].
  destruct (pairResult_fields documents i j di dj Hi Hj)
    as [H1 [H2 [_ [_ [H5 _]]]]].
  split; [exact H1|]. split; [exact H2|].
  change (length (wordsOf (doc_content di))) with (wordCount (doc_content di)).
  change (length (wordsOf (doc_content dj))) with (wordCount (doc_content dj)).
  rewrite H5, (countCommon_spec _ _ common Hnd Hc). split; [reflexivity|].
  rewrite <- (countCommon_spec _ _ common Hnd Hc).
  apply percentage_le_100; [apply commonCount_le_avgWords|lia].
Qed.

(** C1 as stated fails in its last part: no input makes the primary
    similarity exceed 100. *)
Lemma similarity_never_exceeds_100 :
  ~ exists (documents : list Document) (r : SimilarityResult),
      In r (computeAllSimilarities documents) /\ (100 < similarity r)%Q.
Proof.
  intros [documents [r [Hin Hgt]]].
  rewrite computeAllSimilarities_pairs in Hin. apply in_map_iff in Hin.
  destruct Hin as [[i j] [Hr Hp]]. cbn [fst snd] in Hr.
  apply pairs_In in Hp.
  destruct (nth_error documents i) as [di|] eqn:Hi;
    [|apply nth_error_None in Hi; lia].
  destruct (nth_error documents j) as [dj|] eqn:Hj;
    [|apply nth_error_None in Hj; lia].
  destruct (pairResult_fields documents i j di dj Hi Hj)
    as [_ [_ [_ [_ [H5 _]]]]].
  rewrite Hr in H5. rewrite H5 in Hgt.
  apply (Qlt_not_le _ _ Hgt).
  apply percentage_le_100; [apply commonCount_le_avgWords|lia].
Qed.

(** The theorem at two documents "a b c": one shared shingle, three words
    each. *)
Lemma computeAllSimilarities_similarity_witness :
  let d1 := mkDocument [49]%Z [49]%Z [97; 32; 98; 32; 99]%Z in
  let d2 := mkDocument [50]%Z [50]%Z [97; 32; 98; 32; 99]%Z in
  exists k r,
    nth_error (pairs 2) k = Some (0, 1)
    /\ nth_error (computeAllSimilarities [d1; d2]) k = Some r
    /\ doc1Id r = [49]%Z /\ doc2Id r = [50]%Z
    /\ similarity r = (QofNat 1 / QofNat (Nat.max 1 ((3 + 3) / 2)) * 100)%Q
    /\ (similarity r <= 100)%Q.
Proof.
  intros d1 d2.
  apply (computeAllSimilarities_similarity [d1; d2] 0 1 d1 d2
           [[97; 32; 98; 32; 99]%Z]).
  - lia.
  - reflexivity.
  - reflexivity.
  - split; reflexivity.
  - split; reflexivity.
  - repeat constructor. cbn. tauto.
  - intros sh. vm_compute. tauto.
Defined.

(** ** Symmetry of the scores *)

Lemma jaccard_intersection_sym (s1 s2 : list jsstring) :
  length (mkSet (filter (set_has (mkSet s2)) (mkSet s1)))
  = length (mkSet (filter (set_has (mkSet s1)) (mkSet s2))).
Proof.
  apply NoDup_same_length; try apply mkSet_NoDup.
  intros x. rewrite !mkSet_In, !filter_In, !set_has_In. tauto.
Qed.

Lemma jaccard_union_sym (s1 s2 : list jsstring) :
  length (mkSet (mkSet s1 ++ mkSet s2)) = length (mkSet (mkSet s2 ++ mkSet s1)).
Proof.
  apply NoDup_same_length; try apply mkSet_NoDup.
  intros x. rewrite !mkSet_In, !in_app_iff. tauto.
Qed.

Lemma jaccardSimilarity_sym (s1 s2 : list jsstring) :
  jaccardSimilarity s1 s2 = jaccardSimilarity s2 s1.
Proof.
  unfold jaccardSimilarity.
  rewrite (jaccard_intersection_sym s1 s2), (jaccard_union_sym s1 s2).
  reflexivity.
Qed.

(** The Jaccard score is the size of the intersection over the size of the
    union of the two sets of shingles, and 0 when both are empty. *)
Lemma jaccardSimilarity_spec (s1 s2 inter union : list jsstring) :
  NoDup inter -> (forall x, In x inter <-> In x s1 /\ In x s2) ->
  NoDup union -> (forall x, In x union <-> In x s1 \/ In x s2) ->
  jaccardSimilarity s1 s2 =
  if length union =? 0 then 0%Q
  else (QofNat (length inter) / QofNat (length union))%Q.
Proof.
  intros Hni Hi Hnu Hu. unfold jaccardSimilarity.
  assert (E1 : length (mkSet (filter (set_has (mkSet s2)) (mkSet s1))) = length inter).
  { apply NoDup_same_length; [apply mkSet_NoDup|exact Hni|].
    intros x. rewrite mkSet_In, filter_In, set_has_In, !mkSet_In, Hi. tauto. }
  assert (E2 : length (mkSet (mkSet s1 ++ mkSet s2)) = length union).
  { apply NoDup_same_length; [apply mkSet_NoDup|exact Hnu|].
    intros x. rewrite mkSet_In, in_app_iff, !mkSet_In, Hu. tauto. }
  rewrite E1, E2. reflexivity.
Qed.

Lemma compositeOf_sym (c1 c2 : jsstring) (jaccardScore : Q) :
  compositeOf c1 c2 jaccardScore = compositeOf c2 c1 jaccardScore.
Proof.
  unfold compositeOf.
  rewrite (editDistance_sym (substring c1 0 500) (substring c2 0 500)).
  rewrite (Nat.max_comm (length (substring c1 0 500))).
  rewrite (longestCommonSubstring_length_sym c1 c2 800).
  rewrite (Nat.min_comm (length c1) (length c2)).
  reflexivity.
Qed.

(** The result for a list of two documents. *)
Lemma computeAllSimilarities_two (A B : Document) :
  computeAllSimilarities [A; B] =
  [pairResult [A; B]
     (map (fun d => createShingles (doc_content d) 3) [A; B])
     (map (fun d => wordCount (doc_content d)) [A; B]) 0 1].
Proof. rewrite computeAllSimilarities_pairs. reflexivity. Qed.

(** C5. Every similarity component is symmetric in the two documents: the
    Jaccard similarity of two shingle lists, and, for the pair (A, B) against
    the swapped pair (B, A), the primary match metric and the composite score
    that [computeAllSimilarities] reports. *)
Theorem similarity_symmetric :
  (forall s1 s2, jaccardSimilarity s1 s2 = jaccardSimilarity s2 s1)
  /\ forall A B,
       exists rab rba,
         computeAllSimilarities [A; B] = [rab]
         /\ computeAllSimilarities [B; A] = [rba]
         /\ similarity rab = similarity rba
         /\ matchMetric rab = matchMetric rba
         /\ compositeScore rab = compositeScore rba.
Proof.
  split; [exact jaccardSimilarity_sym|].
  intros A B. eexists. eexists.
  split; [apply computeAllSimilarities_two|].
  split; [apply computeAllSimilarities_two|].
  destruct (pairResult_fields [A; B] 0 1 A B eq_refl eq_refl)
    as [_ [_ [_ [_ [S1 [M1 C1]]]]]].
  destruct (pairResult_fields [B; A] 0 1 B A eq_refl eq_refl)
    as [_ [_ [_ [_ [S2 [M2 C2]]]]]].
  assert (Hs : similarity
                 (pairResult [A; B]
                    (map (fun d => createShingles (doc_content d) 3) [A; B])
                    (map (fun d => wordCount (doc_content d)) [A; B]) 0 1)
               = similarity
                   (pairResult [B; A]
                      (map (fun d => createShingles (doc_content d) 3) [B; A])
                      (map (fun d => wordCount (doc_content d)) [B; A]) 0 1)).
  { rewrite S1, S2.
    rewrite (countCommon_sym (createShingles (doc_content A) 3)).
    rewrite (Nat.add_comm (wordCount (doc_content A))). reflexivity. }
  split; [exact Hs|]. split; [rewrite M1, M2; exact Hs|].
  rewrite C1, C2, jaccardSimilarity_sym, compositeOf_sym. reflexivity.
Qed.

Example similarity_symmetric_example :
  let A := mkDocument [49]%Z [49]%Z [97; 32; 98; 32; 99; 32; 100]%Z in
  let B := mkDocument [50]%Z [50]%Z [98; 32; 99; 32; 100; 32; 101; 32; 102]%Z in
  map (fun r => (similarity r, compositeScore r)) (computeAllSimilarities [A; B])
  = map (fun r => (similarity r, compositeScore r)) (computeAllSimilarities [B; A]).
Proof. vm_compute. reflexivity. Qed.

(** ** The composite score *)

Lemma split_go_length (s cur : jsstring) (inSep : bool) :
  length (split_go s cur inSep) <= length s + 1.
Proof.
  revert cur inSep. induction s as [|c s IH]; intros cur inSep;
    cbn [split_go length]; [lia|].
  destruct (isWhiteSpace c).
  - destruct inSep; [specialize (IH cur true); lia|].
    cbn [length]. specialize (IH [] true). lia.
  - specialize (IH (cur ++ [c]) false). lia.
Qed.

(** A text that has a 3-word shingle has at least two code units. *)
Lemma createShingles_nonempty (text sh : jsstring) :
  In sh (createShingles text 3) -> 2 <= length text.
Proof.
  intros H.
  assert (Hlen : 1 <= length (createShingles text 3)).
  { destruct (createShingles text 3); [destruct H|cbn; lia]. }
  rewrite createShingles_length in Hlen.
  pose proof (split_go_length text [] false). unfold split_ws in Hlen. lia.
Qed.

Lemma firstn_min_length {A : Type} (k : nat) (l : list A) :
  firstn (Nat.min k (length l)) l = firstn k l.
Proof.
  destruct (Nat.le_ge_cases k (length l)) as [H|H].
  - rewrite Nat.min_l by exact H. reflexivity.
  - rewrite Nat.min_r by exact H. rewrite firstn_all, firstn_all2; auto.
Qed.

Lemma substring_0 (s : jsstring) (k : nat) : substring s 0 k = firstn k s.
Proof.
  unfold substring. cbn [Nat.min Nat.max skipn]. rewrite Nat.sub_0_r.
  apply firstn_min_length.
Qed.

(** A positive Jaccard score needs a shared shingle. *)
Lemma jaccardSimilarity_pos (s1 s2 : list jsstring) :
  (0 < jaccardSimilarity s1 s2)%Q -> exists sh, In sh s1 /\ In sh s2.
Proof.
  unfold jaccardSimilarity.
  destruct (length (mkSet (mkSet s1 ++ mkSet s2)) =? 0); [intros H; discriminate H|].
  destruct (mkSet (filter (set_has (mkSet s2)) (mkSet s1))) as [|sh inter] eqn:E.
  - intros H. exfalso. revert H. unfold Qlt, QofNat. cbn. lia.
  - intros _. assert (H : In sh (mkSet (filter (set_has (mkSet s2)) (mkSet s1)))).
    { rewrite E. left. reflexivity. }
    rewrite mkSet_In, filter_In, set_has_In, !mkSet_In in H. exists sh. exact H.
Qed.

(** The composite score with the gate closed and with the gate open; in the
    latter case no denominator is zero. *)
Lemma compositeOf_default (c1 c2 : jsstring) (J : Q) :
  (J <= 15 # 100)%Q -> compositeOf c1 c2 J = J.
Proof.
  intros H. unfold compositeOf. apply Qle_bool_iff in H. rewrite H. reflexivity.
Qed.

Lemma compositeOf_blend (c1 c2 : jsstring) (J : Q) :
  (15 # 100 < J)%Q -> 2 <= length c1 -> 2 <= length c2 ->
  let sample1 := firstn 500 c1 in
  let sample2 := firstn 500 c2 in
  let maxLen := Nat.max (length sample1) (length sample2) in
  let denom := Nat.min (Nat.min (length c1) (length c2)) 800 in
  0 < maxLen /\ 0 < denom
  /\ compositeOf c1 c2 J =
     (J * (5 # 10)
      + (1 - QofNat (editDistance sample1 sample2) / QofNat maxLen) * (3 # 10)
      + QofNat (length (longestCommonSubstring c1 c2 800)) / QofNat denom * (2 # 10))%Q.
Proof.
  intros HJ H1 H2. cbv zeta.
  assert (Hmax : 0 < Nat.max (length (firstn 500 c1)) (length (firstn 500 c2))).
  { rewrite !length_firstn. lia. }
  assert (Hden : 0 < Nat.min (Nat.min (length c1) (length c2)) 800) by lia.
  split; [exact Hmax|]. split; [exact Hden|].
  unfold compositeOf. rewrite !substring_0.
  assert (Hgate : Qle_bool J (15 # 100) = false).
  { destruct (Qle_bool J (15 # 100)) eqn:E; [|reflexivity].
    apply Qle_bool_iff in E. exfalso. apply (Qlt_not_le _ _ HJ E). }
  rewrite Hgate. cbn [negb].
  destruct (Nat.max (length (firstn 500 c1)) (length (firstn 500 c2)) =? 0) eqn:E1;
    [apply Nat.eqb_eq in E1; lia|].
  destruct (Nat.min (Nat.min (length c1) (length c2)) 800 =? 0) eqn:E2;
    [apply Nat.eqb_eq in E2; lia|].
  reflexivity.
Qed.

(** C7, amended. For every pair of documents, the compositeScore reported
    by [computeAllSimilarities] is 100 times the following score: by default
    the Jaccard similarity of the two 3-shingle sets; only when that is
    strictly greater than 0.15, the blend 0.5 * Jaccard
    + 0.3 * (1 - editDistance(first 500 code units of each) / max(sample lengths))
    + 0.2 * (length of the longest common substring with cap 800
             / min(len1, len2, 800)), where both denominators are positive. *)
Theorem computeAllSimilarities_compositeScore
    (documents : list Document) (i j : nat) (di dj : Document) :
  i < j ->
  nth_error documents i = Some di ->
  nth_error documents j = Some dj ->
  let c1 := doc_content di in
  let c2 := doc_content dj in
  let J := jaccardSimilarity (createShingles c1 3) (createShingles c2 3) in
  let sample1 := firstn 500 c1 in
  let sample2 := firstn 500 c2 in
  let maxLen := Nat.max (length sample1) (length sample2) in
  let denom := Nat.min (Nat.min (length c1) (length c2)) 800 in
  let blend :=
    ((5 # 10) * J
     + (3 # 10) * (1 - QofNat (editDistance sample1 sample2) / QofNat maxLen)
     + (2 # 10) * (QofNat (length (longestCommonSubstring c1 c2 800)) / QofNat denom))%Q in
  exists k r,
    nth_error (pairs (length documents)) k = Some (i, j)
    /\ nth_error (computeAllSimilarities documents) k = Some r
    /\ ((J <= 15 # 100)%Q -> (compositeScore r == 100 * J)%Q)
    /\ ((15 # 100 < J)%Q ->
        0 < maxLen /\ 0 < denom /\ (compositeScore r == 100 * blend)%Q).
Proof.
  intros Hij Hi Hj. cbv zeta.
  assert (Hlen : i < j < length documents).
  { split; [exact Hij|]. apply nth_error_Some. congruence. }
  destruct (computeAllSimilarities_at documents i j Hlen) as [k [Hk Hr]].
  exists k. eexists. split; [exact Hk|]. split; [exact Hr|].
  destruct (pairResult_fields documents i j di dj Hi Hj)
    as [_ [_ [_ [_ [_ [_ HC]]]]]].
  rewrite HC. split.
  - intros HJ. rewrite (compositeOf_default _ _ _ HJ). ring.
  - intros HJ.
    destruct (jaccardSimilarity_pos (createShingles (doc_content di) 3)
                (createShingles (doc_content dj) 3)) as [sh [Hs1 Hs2]].
    { eapply Qlt_trans; [|exact HJ]. reflexivity. }
    destruct (compositeOf_blend (doc_content di) (doc_content dj) _ HJ
                (createShingles_nonempty _ _ Hs1) (createShingles_nonempty _ _ Hs2))
      as [Hmax [Hden Hval]].
    split; [exact Hmax|]. split; [exact Hden|]. rewrite Hval. ring.
Qed.

(** The theorem at the documents "a b c" and "a b c d". *)
Lemma computeAllSimilarities_compositeScore_witness :
  let d1 := mkDocument [49]%Z [49]%Z [97; 32; 98; 32; 99]%Z in
  let d2 := mkDocument [50]%Z [50]%Z [97; 32; 98; 32; 99; 32; 100]%Z in
  let c1 := doc_content d1 in
  let c2 := doc_content d2 in
  let J := jaccardSimilarity (createShingles c1 3) (createShingles c2 3) in
  let sample1 := firstn 500 c1 in
  let sample2 := firstn 500 c2 in
  let maxLen := Nat.max (length sample1) (length sample2) in
  let denom := Nat.min (Nat.min (length c1) (length c2)) 800 in
  let blend :=
    ((5 # 10) * J
     + (3 # 10) * (1 - QofNat (editDistance sample1 sample2) / QofNat maxLen)
     + (2 # 10) * (QofNat (length (longestCommonSubstring c1 c2 800)) / QofNat denom))%Q in
  exists k r,
    nth_error (pairs 2) k = Some (0, 1)
    /\ nth_error (computeAllSimilarities [d1; d2]) k = Some r
    /\ ((J <= 15 # 100)%Q -> (compositeScore r == 100 * J)%Q)
    /\ ((15 # 100 < J)%Q ->
        0 < maxLen /\ 0 < denom /\ (compositeScore r == 100 * blend)%Q).
Proof.
  intros d1 d2.
  apply (computeAllSimilarities_compositeScore [d1; d2] 0 1 d1 d2).
  - lia.
  - reflexivity.
  - reflexivity.
Defined.

(** C7 as stated fails: for two copies of "a b c" the Jaccard similarity is
    1, the blend is 0.5 + 0.3 + 0.2 = 1, and the compositeScore reported is
    100, not 1. *)
Lemma compositeScore_is_a_percentage :
  let d := mkDocument [49]%Z [49]%Z [97; 32; 98; 32; 99]%Z in
  let c := doc_content d in
  let J := jaccardSimilarity (createShingles c 3) (createShingles c 3) in
  let blend :=
    ((5 # 10) * J
     + (3 # 10) * (1 - QofNat (editDistance (firstn 500 c) (firstn 500 c))
                       / QofNat (Nat.max (length (firstn 500 c)) (length (firstn 500 c))))
     + (2 # 10) * (QofNat (length (longestCommonSubstring c c 800))
                   / QofNat (Nat.min (Nat.min (length c) (length c)) 800)))%Q in
  exists r,
    computeAllSimilarities [d; d] = [r]
    /\ (15 # 100 < J)%Q
    /\ (blend == 1)%Q
    /\ (compositeScore r == 100)%Q
    /\ ~ (compositeScore r == blend)%Q.
Proof.
  cbv zeta. eexists. split; [vm_compute; reflexivity|].
  split; [vm_compute; reflexivity|]. split; [vm_compute; reflexivity|].
  split; [vm_compute; reflexivity|]. vm_compute. discriminate.
Qed.

(** ** The similarity graph *)

Lemma adj_has_In (g : adjList) (v : jsstring) :
  adj_has g v = true <-> In v (adj_keys g).
Proof.
  unfold adj_has, adj_keys. rewrite existsb_exists, in_map_iff. split.
  - intros [e [He E]]. apply string_eqb_eq in E. exists e. auto.
  - intros [e [E He]]. exists e. split; [exact He|]. apply string_eqb_eq, E.
Qed.

Lemma neighborsOf_cons (k : jsstring) (s : list jsstring) (g : adjList) (x : jsstring) :
  neighborsOf ((k, s) :: g) x = if string_eqb k x then s else neighborsOf g x.
Proof.
  unfold neighborsOf, adj_get. cbn. destruct (string_eqb k x); reflexivity.
Qed.

Lemma neighborsOf_nil (x : jsstring) : neighborsOf [] x = [].
Proof. reflexivity. Qed.

Lemma neighborsOf_app_empty (g : adjList) (v x : jsstring) :
  neighborsOf (g ++ [(v, [])]) x = neighborsOf g x.
Proof.
  induction g as [|[k s] g IH].
  - cbn [app]. rewrite neighborsOf_cons, neighborsOf_nil.
    destruct (string_eqb v x); reflexivity.
  - cbn [app]. rewrite !neighborsOf_cons, IH. reflexivity.
Qed.

Lemma neighborsOf_addVertex (g : adjList) (v x : jsstring) :
  neighborsOf (addVertex g v) x = neighborsOf g x.
Proof.
  unfold addVertex. destruct (adj_has g v); [reflexivity|].
  apply neighborsOf_app_empty.
Qed.

Lemma keys_addVertex (g : adjList) (v k : jsstring) :
  In k (adj_keys (addVertex g v)) <-> In k (adj_keys g) \/ k = v.
Proof.
  unfold addVertex. destruct (adj_has g v) eqn:E.
  - apply adj_has_In in E. split; [tauto|]. intros [H|H]; subst; assumption.
  - unfold adj_keys. rewrite map_app, in_app_iff. cbn. intuition.
Qed.

Lemma keys_addNeighbor (g : adjList) (v w : jsstring) :
  adj_keys (addNeighbor g v w) = adj_keys g.
Proof.
  unfold adj_keys, addNeighbor. rewrite map_map. apply map_ext.
  intros [k s]. cbn. destruct (string_eqb k v); reflexivity.
Qed.

Lemma neighborsOf_addNeighbor (g : adjList) (v w x : jsstring) :
  neighborsOf (addNeighbor g v w) x =
  if string_eqb x v then
    if adj_has g v then set_add (neighborsOf g v) w else []
  else neighborsOf g x.
Proof.
  induction g as [|[k s] g IH].
  - cbn. destruct (string_eqb x v); reflexivity.
  - cbn [addNeighbor map fst snd]. fold (addNeighbor g v w).
    destruct (string_eqb k v) eqn:Ekv.
    + apply string_eqb_eq in Ekv. subst k.
      rewrite neighborsOf_cons. cbn [adj_has existsb fst].
      rewrite string_eqb_refl. cbn [orb].
      destruct (string_eqb v x) eqn:Evx.
      * apply string_eqb_eq in Evx. subst x. rewrite string_eqb_refl.
        rewrite neighborsOf_cons, string_eqb_refl. reflexivity.
      * assert (string_eqb x v = false) as ->.
        { apply string_eqb_neq. apply string_eqb_neq in Evx. congruence. }
        rewrite IH.
        assert (string_eqb x v = false) as ->.
        { apply string_eqb_neq. apply string_eqb_neq in Evx. congruence. }
        rewrite neighborsOf_cons, Evx. reflexivity.
    + rewrite neighborsOf_cons, IH. cbn [adj_has existsb fst]. rewrite Ekv.
      cbn [orb]. fold (adj_has g v).
      destruct (string_eqb k x) eqn:Ekx.
      * apply string_eqb_eq in Ekx. subst x. rewrite Ekv.
        rewrite neighborsOf_cons, string_eqb_refl. reflexivity.
      * destruct (string_eqb x v) eqn:Exv.
        -- rewrite neighborsOf_cons, Ekv. reflexivity.
        -- rewrite neighborsOf_cons, Ekx. reflexivity.
Qed.

Lemma edge_addVertex (g : adjList) (v x y : jsstring) :
  edge (addVertex g v) x y <-> edge g x y.
Proof. unfold edge. rewrite neighborsOf_addVertex. tauto. Qed.

Lemma edge_addNeighbor (g : adjList) (v w x y : jsstring) :
  In v (adj_keys g) ->
  (edge (addNeighbor g v w) x y <-> edge g x y \/ (x = v /\ y = w)).
Proof.
  intros Hv. unfold edge. rewrite neighborsOf_addNeighbor.
  apply adj_has_In in Hv. rewrite Hv.
  destruct (string_eqb x v) eqn:E.
  - apply string_eqb_eq in E. subst x. rewrite set_add_In. intuition.
  - apply string_eqb_neq in E. intuition.
Qed.

Lemma keys_addEdge (g : adjList) (a b k : jsstring) :
  In k (adj_keys (addEdge g a b)) <-> In k (adj_keys g) \/ k = a \/ k = b.
Proof.
  unfold addEdge. rewrite !keys_addNeighbor, !keys_addVertex. tauto.
Qed.

Lemma edge_addEdge (g : adjList) (a b x y : jsstring) :
  edge (addEdge g a b) x y <->
  edge g x y \/ (x = a /\ y = b) \/ (x = b /\ y = a).
Proof.
  unfold addEdge.
  rewrite edge_addNeighbor.
  2:{ rewrite keys_addNeighbor, !keys_addVertex. tauto. }
  rewrite edge_addNeighbor.
  2:{ rewrite !keys_addVertex. tauto. }
  rewrite !edge_addVertex. tauto.
Qed.

(** The edges and the vertices of the graph of [createClusters]. *)
Lemma fold_addVertex_spec (documents : list DocRef) (g : adjList) :
  let g' := fold_left (fun g doc => addVertex g (ref_id doc)) documents g in
  (forall x y, edge g' x y <-> edge g x y)
  /\ (forall k, In k (adj_keys g') <->
                In k (adj_keys g) \/ exists d, In d documents /\ ref_id d = k).
Proof.
  revert g. induction documents as [|d ds IH]; intros g; cbn.
  - split; [tauto|]. intros k. split; [tauto|]. intros [H|[d [[] _]]]. exact H.
  - destruct (IH (addVertex g (ref_id d))) as [He Hk]. split.
    + intros x y. rewrite He, edge_addVertex. tauto.
    + intros k. rewrite Hk, keys_addVertex. split.
      * intros [[H|H]|[d' [Hd E]]]; subst; eauto 8.
      * intros [H|[d' [[Hd|Hd] E]]]; subst; eauto 8.
Qed.

Lemma fold_addEdge_spec (threshold : Q) (similarities : list SimilarityResult)
    (g : adjList) :
  let g' := fold_left
              (fun g sim =>
                 if Qle_bool threshold (similarity sim)
                 then addEdge g (doc1Id sim) (doc2Id sim) else g)
              similarities g in
  (forall x y, edge g' x y <->
     edge g x y
     \/ exists s, In s similarities /\ qualifies threshold s
                  /\ ((x = doc1Id s /\ y = doc2Id s) \/ (x = doc2Id s /\ y = doc1Id s)))
  /\ (forall k, In k (adj_keys g') <->
        In k (adj_keys g)
        \/ exists s, In s similarities /\ qualifies threshold s
                     /\ (k = doc1Id s \/ k = doc2Id s)).
Proof.
  revert g. induction similarities as [|s ss IH]; intros g; cbn.
  - split; intros; (split; [tauto|]); intros [H|[s [[] _]]]; exact H.
  - destruct (Qle_bool threshold (similarity s)) eqn:Eq.
    + destruct (IH (addEdge g (doc1Id s) (doc2Id s))) as [He Hk]. split.
      * intros x y. rewrite He, edge_addEdge. split.
        -- intros [[H|H]|[s' [Hs [Hq H]]]]; [tauto| |].
           ++ right. exists s. unfold qualifies. tauto.
           ++ right. exists s'. tauto.
        -- intros [H|[s' [[Hs|Hs] [Hq H]]]]; [tauto|subst s'; tauto|].
           right. exists s'. tauto.
      * intros k. rewrite Hk, keys_addEdge. split.
        -- intros [[H|H]|[s' [Hs [Hq H]]]]; [tauto| |].
           ++ right. exists s. unfold qualifies. tauto.
           ++ right. exists s'. tauto.
        -- intros [H|[s' [[Hs|Hs] [Hq H]]]]; [tauto|subst s'; tauto|].
           right. exists s'. tauto.
    + destruct (IH g) as [He Hk]. split.
      * intros x y. rewrite He. split.
        -- intros [H|[s' [Hs [Hq H]]]]; [tauto|]. right. exists s'. tauto.
        -- intros [H|[s' [[Hs|Hs] [Hq H]]]]; [tauto| |].
           ++ subst s'. unfold qualifies in Hq. congruence.
           ++ right. exists s'. tauto.
      * intros k. rewrite Hk. split.
        -- intros [H|[s' [Hs [Hq H]]]]; [tauto|]. right. exists s'. tauto.
        -- intros [H|[s' [[Hs|Hs] [Hq H]]]]; [tauto| |].
           ++ subst s'. unfold qualifies in Hq. congruence.
           ++ right. exists s'. tauto.
Qed.

Lemma buildGraph_edge (documents : list DocRef) (similarities : list SimilarityResult)
    (threshold : Q) (x y : jsstring) :
  edge (buildGraph documents similarities threshold) x y <->
  exists s, In s similarities /\ qualifies threshold s
            /\ ((x = doc1Id s /\ y = doc2Id s) \/ (x = doc2Id s /\ y = doc1Id s)).
Proof.
  unfold buildGraph.
  destruct (fold_addEdge_spec threshold similarities
              (fold_left (fun g doc => addVertex g (ref_id doc)) documents []))
    as [He _].
  rewrite He. destruct (fold_addVertex_spec documents []) as [Hv _].
  rewrite Hv. unfold edge at 1. cbn. tauto.
Qed.

Lemma buildGraph_keys (documents : list DocRef) (similarities : list SimilarityResult)
    (threshold : Q) (k : jsstring) :
  In k (adj_keys (buildGraph documents similarities threshold)) <->
  (exists d, In d documents /\ ref_id d = k)
  \/ exists s, In s similarities /\ qualifies threshold s
               /\ (k = doc1Id s \/ k = doc2Id s).
Proof.
  unfold buildGraph.
  destruct (fold_addEdge_spec threshold similarities
              (fold_left (fun g doc => addVertex g (ref_id doc)) documents []))
    as [_ Hk].
  rewrite Hk. destruct (fold_addVertex_spec documents []) as [_ Hv].
  rewrite Hv. cbn. tauto.
Qed.

Lemma buildGraph_wf (documents : list DocRef) (similarities : list SimilarityResult)
    (threshold : Q) :
  wfGraph (buildGraph documents similarities threshold).
Proof.
  split.
  - intros x y H. apply buildGraph_edge in H. destruct H as [s [Hs [Hq H]]].
    apply buildGraph_keys. right. exists s. intuition.
  - intros x y H. apply buildGraph_edge in H. destruct H as [s [Hs [Hq H]]].
    apply buildGraph_edge. exists s. intuition.
Qed.

(** A lower threshold keeps every edge and every vertex. *)
Lemma qualifies_mono (t1 t2 : Q) (s : SimilarityResult) :
  (t1 <= t2)%Q -> qualifies t2 s -> qualifies t1 s.
Proof.
  unfold qualifies. intros H H2. apply Qle_bool_iff. apply Qle_bool_iff in H2.
  eapply Qle_trans; eassumption.
Qed.

Lemma buildGraph_edge_mono (documents : list DocRef)
    (similarities : list SimilarityResult) (t1 t2 : Q) (x y : jsstring) :
  (t1 <= t2)%Q ->
  edge (buildGraph documents similarities t2) x y ->
  edge (buildGraph documents similarities t1) x y.
Proof.
  intros Ht H. apply buildGraph_edge in H. destruct H as [s [Hs [Hq H]]].
  apply buildGraph_edge. exists s. split; [exact Hs|].
  split; [exact (qualifies_mono _ _ _ Ht Hq)|exact H].
Qed.

Lemma buildGraph_keys_mono (documents : list DocRef)
    (similarities : list SimilarityResult) (t1 t2 : Q) (k : jsstring) :
  (t1 <= t2)%Q ->
  In k (adj_keys (buildGraph documents similarities t2)) ->
  In k (adj_keys (buildGraph documents similarities t1)).
Proof.
  intros Ht H. apply buildGraph_keys in H. apply buildGraph_keys.
  destruct H as [H|[s [Hs [Hq H]]]]; [left; exact H|].
  right. exists s. split; [exact Hs|].
  split; [exact (qualifies_mono _ _ _ Ht Hq)|exact H].
Qed.

(** ** Depth-first traversal *)

Lemma reach_trans (g : adjList) (x y z : jsstring) :
  reach g x y -> reach g y z -> reach g x z.
Proof.
  intros Hxy Hyz. induction Hyz as [|u w Hyu IH Huw].
  - exact Hxy.
  - eapply reach_step; eassumption.
Qed.

Lemma reach_edge (g : adjList) (x y : jsstring) : edge g x y -> reach g x y.
Proof. intros H. eapply reach_step; [apply reach_refl|exact H]. Qed.

Lemma filter_length_mono {A : Type} (p q : A -> bool) (l : list A) :
  (forall x, In x l -> p x = true -> q x = true) ->
  length (filter p l) <= length (filter q l).
Proof.
  induction l as [|a l IH]; intros H; cbn; [lia|].
  assert (IH' : length (filter p l) <= length (filter q l)).
  { apply IH. intros x Hx. apply H. right. exact Hx. }
  destruct (p a) eqn:Ep.
  - rewrite (H a (or_introl eq_refl) Ep). cbn. lia.
  - destruct (q a); cbn; lia.
Qed.

Lemma filter_length_strict {A : Type} (p q : A -> bool) (l : list A) (v : A) :
  (forall x, In x l -> p x = true -> q x = true) ->
  In v l -> p v = false -> q v = true ->
  length (filter p l) < length (filter q l).
Proof.
  induction l as [|a l IH]; intros H Hv Hp Hq; [destruct Hv|].
  cbn. destruct Hv as [->|Hv].
  - rewrite Hp, Hq. cbn.
    pose proof (filter_length_mono p q l (fun x Hx => H x (or_intror Hx))). lia.
  - assert (IH' : length (filter p l) < length (filter q l)).
    { apply IH; auto. intros x Hx. apply H. right. exact Hx. }
    destruct (p a) eqn:Ep.
    + rewrite (H a (or_introl eq_refl) Ep). cbn. lia.
    + destruct (q a); cbn; lia.
Qed.

Lemma unvisited_mono (g : adjList) (vis vis' : list jsstring) :
  (forall x, In x vis -> In x vis') -> unvisited g vis' <= unvisited g vis.
Proof.
  intros H. apply filter_length_mono. intros x _ Hx.
  apply negb_true_iff in Hx. apply negb_true_iff.
  apply set_has_false in Hx. apply set_has_false. auto.
Qed.

Lemma unvisited_strict (g : adjList) (vis vis' : list jsstring) (v : jsstring) :
  (forall x, In x vis -> In x vis') ->
  In v (adj_keys g) -> ~ In v vis -> In v vis' ->
  unvisited g vis' < unvisited g vis.
Proof.
  intros H Hk Hv Hv'. apply (filter_length_strict _ _ _ v).
  - intros x _ Hx. apply negb_true_iff in Hx. apply negb_true_iff.
    apply set_has_false in Hx. apply set_has_false. auto.
  - exact Hk.
  - apply negb_false_iff, set_has_In, Hv'.
  - apply negb_true_iff, set_has_false, Hv.
Qed.

Lemma set_add_new (s : list jsstring) (x : jsstring) :
  ~ In x s -> set_add s x = s ++ [x].
Proof.
  intros H. unfold set_add. apply set_has_false in H. rewrite H. reflexivity.
Qed.

Section NeighbourLoop.

Variable g : adjList.
Variable fuel : nat.
Hypothesis g_closed : forall x y, edge g x y -> In y (adj_keys g).

(** The induction hypothesis on the recursive calls. *)
Hypothesis dfs_ok :
  forall v st,
    In v (adj_keys g) -> ~ In v (fst st) -> unvisited g (fst st) <= fuel ->
    exists st', dfs fuel g v st = Some st' /\ dfsPost g v st st'.

Lemma visitNeighbors_spec (root : jsstring) (nbs : list jsstring) :
  forall st,
    (forall nb, In nb nbs -> edge g root nb) ->
    unvisited g (fst st) <= fuel ->
    exists st',
      visitNeighbors (dfs fuel g) nbs (Some st) = Some st'
      /\ neighborsPost g root nbs st st'.
Proof.
  induction nbs as [|nb rest IH]; intros [vis comp] Hnbs Hfuel.
  - exists (vis, comp). split; [reflexivity|]. exists []. cbn.
    rewrite app_nil_r. repeat split; try tauto; constructor.
  - cbn [visitNeighbors fold_left]. fold (visitNeighbors (dfs fuel g) rest).
    destruct (set_has vis nb) eqn:Ehas.
    + apply set_has_In in Ehas.
      destruct (IH (vis, comp)) as [st' [Hrun Hpost]];
        [intros; apply Hnbs; right; assumption|exact Hfuel|].
      exists st'. split; [exact Hrun|].
      destruct Hpost as [new [H1 [H2 [H3 [H4 [H5 [H6 H7]]]]]]].
      exists new. repeat split; try assumption; try apply H2.
      intros x [->|Hx]; [|apply H7, Hx]. apply H2. left. exact Ehas.
    + apply set_has_false in Ehas.
      assert (Hedge : edge g root nb) by (apply Hnbs; left; reflexivity).
      destruct (dfs_ok nb (vis, comp)) as [[vis1 comp1] [Hrun1 Hpost1]];
        [apply (g_closed root), Hedge|exact Ehas|exact Hfuel|].
      rewrite Hrun1.
      destruct Hpost1 as [new1 [A1 [A2 [A3 [A4 [A5 A6]]]]]].
      cbn [fst snd] in *.
      destruct (IH (vis1, comp1)) as [[vis2 comp2] [Hrun2 Hpost2]].
      { intros; apply Hnbs; right; assumption. }
      { cbn [fst]. etransitivity; [|exact Hfuel].
        apply unvisited_mono. intros x Hx. apply A2. left. exact Hx. }
      exists (vis2, comp2). split; [exact Hrun2|].
      destruct Hpost2 as [new2 [B1 [B2 [B3 [B4 [B5 [B6 B7]]]]]]].
      cbn [fst snd] in *.
      exists ((nb :: new1) ++ new2). repeat split.
      * rewrite B1, A1, <- app_assoc. reflexivity.
      * intros Hx. apply B2 in Hx. rewrite in_app_iff.
        destruct Hx as [Hx|Hx]; [|tauto]. apply A2 in Hx. tauto.
      * intros Hx. apply B2. rewrite in_app_iff in Hx.
        destruct Hx as [Hx|[Hx|Hx]]; [left; apply A2; tauto|left; apply A2; tauto|tauto].
      * apply NoDup_app; [exact A3|exact B3|].
        intros x Hx1 Hx2. apply (B4 x Hx2). apply A2. right. exact Hx1.
      * intros x Hx Hvis. apply in_app_iff in Hx. destruct Hx as [Hx|Hx].
        -- exact (A4 x Hx Hvis).
        -- apply (B4 x Hx). apply A2. left. exact Hvis.
      * intros x Hx. apply in_app_iff in Hx. destruct Hx as [Hx|Hx].
        -- eapply reach_trans; [apply reach_edge, Hedge|apply A5, Hx].
        -- apply B5, Hx.
      * intros x y Hx Hxy. apply in_app_iff in Hx. destruct Hx as [Hx|Hx].
        -- apply B2. left. eapply A6; eassumption.
        -- eapply B6; eassumption.
      * intros x [->|Hx]; [|apply B7, Hx].
        apply B2. left. apply A2. right. left. reflexivity.
Qed.

End NeighbourLoop.

Lemma unvisited_pos (g : adjList) (vis : list jsstring) (v : jsstring) :
  In v (adj_keys g) -> ~ In v vis -> 1 <= unvisited g vis.
Proof.
  intros Hk Hv. unfold unvisited.
  assert (H : In v (filter (fun k => negb (set_has vis k)) (adj_keys g))).
  { apply filter_In. split; [exact Hk|]. apply negb_true_iff, set_has_false, Hv. }
  destruct (filter _ _); [destruct H|cbn; lia].
Qed.

(** With fuel for every vertex not visited yet, [dfs] returns, and its
    result satisfies [dfsPost]. *)
Lemma dfs_spec (g : adjList) (fuel : nat) :
  (forall x y, edge g x y -> In y (adj_keys g)) ->
  forall v st,
    In v (adj_keys g) -> ~ In v (fst st) -> unvisited g (fst st) <= fuel ->
    exists st', dfs fuel g v st = Some st' /\ dfsPost g v st st'.
Proof.
  intros Hclosed. induction fuel as [|fuel IH]; intros v [vis comp] Hk Hv Hfuel.
  - pose proof (unvisited_pos g vis v Hk Hv). cbn [fst] in *. lia.
  - cbn [fst] in *. cbn [dfs]. rewrite (set_add_new vis v Hv).
    destruct (visitNeighbors_spec g fuel Hclosed IH v (neighborsOf g v)
                (vis ++ [v], comp ++ [v])) as [[vis' comp'] [Hrun Hpost]].
    { intros nb Hnb. exact Hnb. }
    { cbn [fst].
      assert (unvisited g (vis ++ [v]) < unvisited g vis); [|lia].
      apply (unvisited_strict g vis (vis ++ [v]) v); auto.
      - intros x Hx. apply in_app_iff. tauto.
      - apply in_app_iff. right. left. reflexivity. }
    exists (vis', comp'). split; [exact Hrun|].
    destruct Hpost as [new [B1 [B2 [B3 [B4 [B5 [B6 B7]]]]]]].
    cbn [fst snd] in *.
    exists new. cbn [fst snd]. repeat split.
    + rewrite B1, <- app_assoc. reflexivity.
    + intros Hx. apply B2 in Hx. rewrite in_app_iff in Hx. cbn in Hx |- *. tauto.
    + intros Hx. apply B2. rewrite in_app_iff. cbn in Hx |- *. tauto.
    + constructor; [|exact B3]. intros Hin. apply (B4 v Hin).
      apply in_app_iff. right. left. reflexivity.
    + intros x [->|Hx] Hvis; [exact (Hv Hvis)|].
      apply (B4 x Hx). apply in_app_iff. left. exact Hvis.
    + intros x [->|Hx]; [apply reach_refl|apply B5, Hx].
    + intros x y [->|Hx] Hxy; [apply B7, Hxy|eapply B6; eassumption].
Qed.

(** ** findConnectedComponents *)

Lemma unvisited_le_length (g : adjList) (vis : list jsstring) :
  unvisited g vis <= length g.
Proof.
  unfold unvisited, adj_keys.
  etransitivity; [apply filter_length_le|]. rewrite length_map. lia.
Qed.

Lemma componentStep_spec (g : adjList) (vis : list jsstring)
    (comps : list (list jsstring)) (v : jsstring) :
  wfGraph g -> componentsInv g vis comps -> In v (adj_keys g) ->
  exists vis' comps',
    componentStep g (Some (vis, comps)) v = Some (vis', comps')
    /\ componentsInv g vis' comps'
    /\ In v vis'
    /\ (forall x, In x vis -> In x vis').
Proof.
  intros [Hclosed Hsym] [I1 [I2 [I3 I4]]] Hk. cbn [componentStep].
  destruct (set_has vis v) eqn:Ehas.
  - apply set_has_In in Ehas. exists vis, comps.
    repeat split; auto; apply I1.
  - apply set_has_false in Ehas.
    destruct (dfs_spec g (length g) Hclosed v (vis, []) Hk Ehas
                (unvisited_le_length g vis)) as [[vis' comp] [Hrun Hpost]].
    rewrite Hrun. destruct Hpost as [new [A1 [A2 [A3 [A4 [A5 A6]]]]]].
    cbn [fst snd app] in *. subst comp.
    exists vis', (comps ++ [v :: new]).
    assert (Hcat : forall x, In x (concat (comps ++ [v :: new])) <->
                             In x (concat comps) \/ In x (v :: new)).
    { intros x. rewrite concat_app, in_app_iff. cbn [concat].
      rewrite app_nil_r. tauto. }
    split; [reflexivity|]. split; [|split].
    + repeat split.
      * intros Hx. apply Hcat. apply A2 in Hx. rewrite <- I1. exact Hx.
      * intros Hx. apply A2. apply Hcat in Hx. rewrite I1. exact Hx.
      * rewrite concat_app. cbn [concat]. rewrite app_nil_r.
        apply NoDup_app; [exact I2|exact A3|].
        intros x Hx1 Hx2. apply (A4 x Hx2). apply I1. exact Hx1.
      * intros x y Hx Hxy. apply A2 in Hx. destruct Hx as [Hx|Hx].
        -- apply A2. left. eapply I3; eassumption.
        -- eapply A6; eassumption.
      * apply Forall_app. split; [exact I4|]. constructor; [|constructor].
        exists v, new. repeat split; auto.
        intros x y Hx Hxy. pose proof (A6 x y Hx Hxy) as Hy.
        apply A2 in Hy. destruct Hy as [Hy|Hy]; [|exact Hy].
        exfalso. apply (A4 x Hx). apply (I3 y x Hy). apply Hsym, Hxy.
    + apply A2. right. left. reflexivity.
    + intros x Hx. apply A2. left. exact Hx.
Qed.

Lemma componentLoop_spec (g : adjList) (ks : list jsstring) :
  wfGraph g ->
  (forall k, In k ks -> In k (adj_keys g)) ->
  forall vis comps,
    componentsInv g vis comps ->
    exists vis' comps',
      fold_left (componentStep g) ks (Some (vis, comps)) = Some (vis', comps')
      /\ componentsInv g vis' comps'
      /\ (forall k, In k ks -> In k vis')
      /\ (forall x, In x vis -> In x vis').
Proof.
  intros Hwf. induction ks as [|k ks IH]; intros Hks vis comps Hinv.
  - exists vis, comps. cbn. repeat split; auto; try apply Hinv. tauto.
  - destruct (componentStep_spec g vis comps k Hwf Hinv)
      as [vis1 [comps1 [Hrun1 [Hinv1 [Hk1 Hsub1]]]]];
      [apply Hks; left; reflexivity|].
    destruct (IH (fun x Hx => Hks x (or_intror Hx)) vis1 comps1 Hinv1)
      as [vis2 [comps2 [Hrun2 [Hinv2 [Hk2 Hsub2]]]]].
    exists vis2, comps2. cbn [fold_left]. rewrite Hrun1.
    split; [exact Hrun2|]. split; [exact Hinv2|]. split.
    + intros x [->|Hx]; auto.
    + auto.
Qed.

(** The traversal returns, and its components are duplicate-free, pairwise
    disjoint, connected, closed, and cover every vertex. *)
Lemma findConnectedComponents_spec (g : adjList) :
  wfGraph g ->
  exists comps,
    findConnectedComponents g = Some comps
    /\ NoDup (concat comps)
    /\ Forall (goodComponent g) comps
    /\ (forall k, In k (adj_keys g) -> In k (concat comps)).
Proof.
  intros Hwf.
  destruct (componentLoop_spec g (adj_keys g) Hwf (fun k H => H) [] [])
    as [vis [comps [Hrun [[I1 [I2 [I3 I4]]] [Hall _]]]]].
  { repeat split; cbn; try tauto; constructor. }
  exists comps. unfold findConnectedComponents. rewrite Hrun.
  repeat split; auto. intros k Hk. apply I1, Hall, Hk.
Qed.

Lemma closed_reach (g : adjList) (c : list jsstring) (h x : jsstring) :
  (forall a b, In a c -> edge g a b -> In b c) ->
  In h c -> reach g h x -> In x c.
Proof.
  intros Hc Hh Hr. induction Hr as [|y z Hy IH Hyz]; [exact Hh|].
  eapply Hc; eassumption.
Qed.

Lemma reach_mono (g g' : adjList) (x y : jsstring) :
  (forall a b, edge g a b -> edge g' a b) -> reach g x y -> reach g' x y.
Proof.
  intros H Hr. induction Hr as [|u w Hu IH Huw]; [apply reach_refl|].
  eapply reach_step; [exact IH|apply H, Huw].
Qed.

Lemma NoDup_concat_In {A : Type} (l : list (list A)) (c : list A) :
  NoDup (concat l) -> In c l -> NoDup c.
Proof.
  induction l as [|a l IH]; intros Hnd Hin; [destruct Hin|].
  cbn in Hnd. apply NoDup_app_remove_l in Hnd as Hr. 
  destruct Hin as [->|Hin]; [|apply IH; assumption].
  apply NoDup_app_remove_r in Hnd. exact Hnd.
Qed.

Lemma NoDup_concat_filter {A : Type} (p : list A -> bool) (l : list (list A)) :
  NoDup (concat l) -> NoDup (concat (filter p l)).
Proof.
  induction l as [|a l IH]; intros Hnd; [constructor|].
  cbn in Hnd. pose proof (NoDup_app_remove_l _ _ Hnd) as Hr.
  cbn [filter]. destruct (p a); [|apply IH, Hr].
  cbn [concat]. apply NoDup_app.
  - eapply NoDup_app_remove_r, Hnd.
  - apply IH, Hr.
  - intros x Hx1 Hx2.
    assert (Hx3 : In x (concat l)).
    { apply in_concat in Hx2. destruct Hx2 as [c [Hc Hx]].
      apply filter_In in Hc. apply in_concat. exists c. tauto. }
    revert Hx1 Hx3. clear -Hnd. revert x.
    induction a as [|b a IHa]; intros x Hx1 Hx3; [destruct Hx1|].
    cbn in Hnd. inversion Hnd as [|? ? Hnotin Hnd']; subst.
    destruct Hx1 as [->|Hx1].
    + apply Hnotin. apply in_app_iff. right. exact Hx3.
    + exact (IHa Hnd' x Hx1 Hx3).
Qed.

(** Distinct positions of a list of lists whose concatenation has no
    duplicates hold disjoint lists. *)
Lemma NoDup_concat_disjoint {A : Type} (l : list (list A)) :
  NoDup (concat l) ->
  forall i j ci cj x,
    i <> j -> nth_error l i = Some ci -> nth_error l j = Some cj ->
    In x ci -> ~ In x cj.
Proof.
  induction l as [|a l IH]; intros Hnd i j ci cj x Hij Hi Hj Hxi Hxj.
  - destruct i; discriminate.
  - cbn in Hnd.
    assert (Hdisj : forall y c, In y a -> In c l -> ~ In y c).
    { intros y c Hy Hc Hyc. clear -Hnd Hy Hc Hyc.
      induction a as [|b a IHa]; [destruct Hy|].
      cbn in Hnd. inversion Hnd as [|? ? Hnotin Hnd']; subst.
      destruct Hy as [->|Hy].
      - apply Hnotin. apply in_app_iff. right. apply in_concat. exists c. tauto.
      - exact (IHa Hnd' Hy). }
    destruct i as [|i], j as [|j]; cbn in Hi, Hj.
    + congruence.
    + inversion Hi; subst. apply (Hdisj x cj Hxi); [|exact Hxj].
      eapply nth_error_In, Hj.
    + inversion Hj; subst. apply (Hdisj x ci Hxj); [|exact Hxi].
      eapply nth_error_In, Hi.
    + apply (IH (NoDup_app_remove_l _ _ Hnd) i j ci cj x); auto.
Qed.

Lemma mapi_from_ids (similarities : list SimilarityResult) (l : list (list jsstring))
    (start : nat) :
  map cluster_id (mapi_from (toCluster similarities) start l) = seq start (length l).
Proof.
  revert start. induction l as [|c l IH]; intros start; [reflexivity|].
  cbn. rewrite IH. reflexivity.
Qed.

Lemma mapi_from_documents (similarities : list SimilarityResult)
    (l : list (list jsstring)) (start : nat) :
  map cluster_documents (mapi_from (toCluster similarities) start l) = l.
Proof.
  revert start. induction l as [|c l IH]; intros start; [reflexivity|].
  cbn. rewrite IH. reflexivity.
Qed.

Lemma mapi_from_length {A B : Type} (f : nat -> A -> B) (l : list A) (start : nat) :
  length (mapi_from f start l) = length l.
Proof.
  revert start. induction l as [|c l IH]; intros start; [reflexivity|].
  cbn. rewrite IH. reflexivity.
Qed.

(** [createClusters] in terms of the components of the graph. *)
Lemma createClusters_components (documents : list DocRef)
    (similarities : list SimilarityResult) (threshold : Q) :
  exists comps cs,
    findConnectedComponents (buildGraph documents similarities threshold) = Some comps
    /\ createClusters documents similarities threshold = Some cs
    /\ map cluster_documents cs = filter (fun comp => 1 <? length comp) comps
    /\ map cluster_id cs = seq 0 (length cs)
    /\ NoDup (concat comps)
    /\ Forall (goodComponent (buildGraph documents similarities threshold)) comps
    /\ (forall k, In k (adj_keys (buildGraph documents similarities threshold)) ->
                  In k (concat comps)).
Proof.
  destruct (findConnectedComponents_spec _
              (buildGraph_wf documents similarities threshold))
    as [comps [Hrun [Hnd [Hgood Hcover]]]].
  exists comps. eexists. split; [exact Hrun|].
  unfold createClusters. rewrite Hrun. split; [reflexivity|].
  rewrite mapi_from_documents, mapi_from_ids, mapi_from_length. auto.
Qed.

(** ** createClusters *)

(** C6. For every document list, similarity list and threshold,
    [createClusters] returns, and its clusters are the components with more
    than one member, in discovery order: no identifier occurs twice in the
    clusters taken together, so none occurs in two different clusters; every
    cluster has at least two identifiers; and the cluster ids are
    0, 1, 2, ... in that order. *)
Theorem createClusters_partition (documents : list DocRef)
    (similarities : list SimilarityResult) (threshold : Q) :
  exists comps cs,
    findConnectedComponents (buildGraph documents similarities threshold) = Some comps
    /\ createClusters documents similarities threshold = Some cs
    /\ map cluster_documents cs = filter (fun comp => 1 <? length comp) comps
    /\ map cluster_id cs = seq 0 (length cs)
    /\ NoDup (concat (map cluster_documents cs))
    /\ (forall i j ci cj x,
          i <> j -> nth_error cs i = Some ci -> nth_error cs j = Some cj ->
          In x (cluster_documents ci) -> ~ In x (cluster_documents cj))
    /\ Forall (fun c => 2 <= length (cluster_documents c)) cs.
Proof.
  destruct (createClusters_components documents similarities threshold)
    as [comps [cs [Hrun [Hcs [Hdocs [Hids [Hnd _]]]]]]].
  exists comps, cs. split; [exact Hrun|]. split; [exact Hcs|].
  split; [exact Hdocs|]. split; [exact Hids|].
  assert (Hnd' : NoDup (concat (map cluster_documents cs))).
  { rewrite Hdocs. apply NoDup_concat_filter, Hnd. }
  split; [exact Hnd'|]. split.
  - intros i j ci cj x Hij Hi Hj.
    apply (NoDup_concat_disjoint _ Hnd' i j); auto.
    + rewrite nth_error_map, Hi. reflexivity.
    + rewrite nth_error_map, Hj. reflexivity.
  - apply Forall_forall. intros c Hc.
    assert (H : In (cluster_documents c) (map cluster_documents cs)).
    { apply in_map, Hc. }
    rewrite Hdocs in H. apply filter_In in H. destruct H as [_ H].
    apply Nat.ltb_lt in H. lia.
Qed.

(** C2, amended. For every document list, similarity list and thresholds
    [t1 <= t2], [createClusters] returns at both thresholds, and every
    cluster returned at [t2] is contained in some cluster returned at [t1],
    which therefore is at least as large. (The number of clusters is left
    out: it can grow when a cluster falls apart.) *)
Theorem createClusters_refines (documents : list DocRef)
    (similarities : list SimilarityResult) (t1 t2 : Q) :
  (t1 <= t2)%Q ->
  exists cs1 cs2,
    createClusters documents similarities t1 = Some cs1
    /\ createClusters documents similarities t2 = Some cs2
    /\ forall c2, In c2 cs2 ->
         exists c1, In c1 cs1
                    /\ incl (cluster_documents c2) (cluster_documents c1)
                    /\ length (cluster_documents c2) <= length (cluster_documents c1).
Proof.
  intros Ht.
  destruct (createClusters_components documents similarities t1)
    as [comps1 [cs1 [_ [Hcs1 [Hdocs1 [_ [Hnd1 [Hgood1 Hcover1]]]]]]]].
  destruct (createClusters_components documents similarities t2)
    as [comps2 [cs2 [_ [Hcs2 [Hdocs2 [_ [Hnd2 [Hgood2 _]]]]]]]].
  exists cs1, cs2. split; [exact Hcs1|]. split; [exact Hcs2|].
  intros c2 Hc2.
  assert (H2 : In (cluster_documents c2) (map cluster_documents cs2)).
  { apply in_map, Hc2. }
  rewrite Hdocs2 in H2. apply filter_In in H2. destruct H2 as [Hin2 Hlen2].
  apply Nat.ltb_lt in Hlen2.
  rewrite Forall_forall in Hgood1, Hgood2.
  destruct (Hgood2 _ Hin2) as [h [t [Hc [Hh [Hreach _]]]]].
  assert (Hh1 : In h (concat comps1)).
  { apply Hcover1. eapply buildGraph_keys_mono; eassumption. }
  apply in_concat in Hh1. destruct Hh1 as [comp1 [Hin1 Hhin]].
  destruct (Hgood1 _ Hin1) as [h1 [t1' [_ [_ [_ Hclosed1]]]]].
  assert (Hincl : incl (cluster_documents c2) comp1).
  { intros x Hx. apply (closed_reach _ comp1 h x Hclosed1 Hhin).
    apply (reach_mono (buildGraph documents similarities t2)).
    - intros a b. apply buildGraph_edge_mono, Ht.
    - apply Hreach, Hx. }
  assert (Hle : length (cluster_documents c2) <= length comp1).
  { apply NoDup_incl_length; [|exact Hincl].
    eapply NoDup_concat_In; eassumption. }
  assert (H1 : In comp1 (map cluster_documents cs1)).
  { rewrite Hdocs1. apply filter_In. split; [exact Hin1|].
    apply Nat.ltb_lt. lia. }
  apply in_map_iff in H1. destruct H1 as [c1 [E Hc1]].
  exists c1. rewrite E. auto.
Qed.

(** The theorem at the example data, for the thresholds 40 and 50. *)
Lemma createClusters_refines_witness :
  exists cs1 cs2,
    createClusters abcd_documents abcd_similarities 40%Q = Some cs1
    /\ createClusters abcd_documents abcd_similarities 50%Q = Some cs2
    /\ forall c2, In c2 cs2 ->
         exists c1, In c1 cs1
                    /\ incl (cluster_documents c2) (cluster_documents c1)
                    /\ length (cluster_documents c2) <= length (cluster_documents c1).
Proof.
  apply (createClusters_refines abcd_documents abcd_similarities 40%Q 50%Q).
  discriminate.
Defined.

(** C2 as stated fails in its last part: with similarities a-b 50, c-d 50
    and b-c 40, the threshold 40 yields the one cluster {a, b, c, d} and the
    higher threshold 50 the two clusters {a, b} and {c, d}. *)
Lemma createClusters_count_can_grow :
  exists cs1 cs2,
    (40 <= 50)%Q
    /\ createClusters abcd_documents abcd_similarities 40%Q = Some cs1
    /\ createClusters abcd_documents abcd_similarities 50%Q = Some cs2
    /\ map cluster_documents cs1 = [[[97]; [98]; [99]; [100]]%Z]
    /\ map cluster_documents cs2 = [[[97]; [98]]%Z; [[99]; [100]]%Z]
    /\ ~ length cs2 <= length cs1.
Proof.
  eexists. eexists. split; [discriminate|].
  split; [vm_compute; reflexivity|]. split; [vm_compute; reflexivity|].
  split; [reflexivity|]. split; [reflexivity|]. cbn. lia.
Qed.

(* ================================================================= *)
(** * Further properties *)

(** ** editDistance *)

Lemma edit_snoc_keep (x : Z) (a b : jsstring) (n : nat) :
  edit a b n -> edit (a ++ [x]) (b ++ [x]) n.
Proof.
  induction 1; cbn; try (constructor; assumption).
  apply edit_keep, edit_nil.
Qed.

Lemma edit_snoc_subst (x y : Z) (a b : jsstring) (n : nat) :
  edit a b n -> edit (a ++ [x]) (b ++ [y]) (S n).
Proof.
  induction 1; cbn; try (constructor; assumption).
  apply edit_subst, edit_nil.
Qed.

Lemma edit_snoc_delete (x : Z) (a b : jsstring) (n : nat) :
  edit a b n -> edit (a ++ [x]) b (S n).
Proof.
  induction 1; cbn; try (constructor; assumption).
  apply edit_delete, edit_nil.
Qed.

Lemma edit_snoc_insert (y : Z) (a b : jsstring) (n : nat) :
  edit a b n -> edit a (b ++ [y]) (S n).
Proof.
  induction 1; cbn; try (constructor; assumption).
  apply edit_insert, edit_nil.
Qed.

(** A script read backwards edits the reversed strings. *)
Lemma edit_rev (a b : jsstring) (n : nat) : edit a b n -> edit (rev a) (rev b) n.
Proof.
  induction 1; cbn [rev].
  - constructor.
  - apply edit_snoc_keep. assumption.
  - apply edit_snoc_subst. assumption.
  - apply edit_snoc_delete. assumption.
  - apply edit_snoc_insert. assumption.
Qed.

Lemma edit_lengths (a b : jsstring) (n : nat) :
  edit a b n -> length a <= length b + n /\ length b <= length a + n.
Proof. induction 1; cbn [length]; lia. Qed.

Lemma edit_zero (a b : jsstring) (n : nat) : edit a b n -> n = 0 -> a = b.
Proof.
  induction 1; intros Hn; try discriminate; [reflexivity|].
  f_equal. auto.
Qed.

Lemma ldist_le_max (a b : jsstring) : ldist a b <= Nat.max (length a) (length b).
Proof.
  revert b. induction a as [|x a IH]; intros b.
  - rewrite ldist_nil_l. cbn. lia.
  - destruct b as [|y b].
    + rewrite ldist_nil_r. cbn. lia.
    + rewrite ldist_cons. specialize (IH b). cbn [length].
      destruct (Z.eqb x y); lia.
Qed.

(** [editDistance] does not depend on the order of its arguments. *)
Theorem editDistance_symmetric (a b : jsstring) :
  editDistance a b = editDistance b a.
Proof. apply editDistance_sym. Qed.

(** X1. [editDistance(a, b)] is the least number of single-code-unit
    deletions, insertions and substitutions that turn [a] into [b]: some
    script has that cost, and no script is cheaper. *)
Theorem editDistance_cheapest_script (a b : jsstring) :
  edit a b (editDistance a b)
  /\ forall n, edit a b n -> editDistance a b <= n.
Proof.
  rewrite editDistance_ldist. split.
  - rewrite <- (rev_involutive a), <- (rev_involutive b) at 1.
    apply edit_rev, ldist_edit.
  - intros n H. apply edit_ldist, edit_rev, H.
Qed.

(** X2. The distance lies between the difference of the two lengths and the
    larger of them. *)
Theorem editDistance_bounds (a b : jsstring) :
  Nat.max (length a) (length b) - Nat.min (length a) (length b) <= editDistance a b
  /\ editDistance a b <= Nat.max (length a) (length b).
Proof.
  rewrite editDistance_ldist. split.
  - pose proof (edit_lengths _ _ _ (ldist_edit (rev a) (rev b))) as H.
    rewrite !length_rev in H. lia.
  - pose proof (ldist_le_max (rev a) (rev b)) as H.
    rewrite !length_rev in H. exact H.
Qed.

(** X3. The distance is 0 exactly between equal strings. *)
Theorem editDistance_zero_iff (a b : jsstring) :
  editDistance a b = 0 <-> a = b.
Proof.
  split.
  - intros H. rewrite editDistance_ldist in H.
    pose proof (ldist_edit (rev a) (rev b)) as He. rewrite H in He.
    apply edit_zero in He; [|reflexivity].
    rewrite <- (rev_involutive a), <- (rev_involutive b), He. reflexivity.
  - intros ->. rewrite editDistance_ldist. apply ldist_refl.
Qed.

(** ** longestCommonSubstring *)

Lemma isSubstring_refl (s : jsstring) : isSubstring s s.
Proof. exists [], []. rewrite app_nil_r. reflexivity. Qed.

Lemma isSubstring_length (r s : jsstring) : isSubstring r s -> length r <= length s.
Proof. intros [pre [post ->]]. rewrite !length_app. lia. Qed.

Lemma isSubstring_full (r s : jsstring) :
  isSubstring r s -> length s <= length r -> r = s.
Proof.
  intros [pre [post ->]] H. rewrite !length_app in H.
  destruct pre; [|cbn in H; lia]. destruct post; [|cbn in H; lia].
  cbn. rewrite app_nil_r. reflexivity.
Qed.

Lemma longestCommonSubstring_isSubstring_l (a b : jsstring) (cap : nat) :
  isSubstring (longestCommonSubstring a b cap) (firstn cap a).
Proof.
  destruct (longestCommonSubstring_spec a b cap) as [e [j [_ [_ [_ [Hr _]]]]]].
  rewrite Hr. apply substring_isSubstring.
Qed.

(** X4. The result is a longest common substring: no contiguous substring
    common to the two truncated inputs is longer. *)
Theorem longestCommonSubstring_maximal (a b : jsstring) (cap : nat) (r : jsstring) :
  isSubstring r (firstn cap a) -> isSubstring r (firstn cap b) ->
  length r <= length (longestCommonSubstring a b cap).
Proof. apply longestCommonSubstring_longest. Qed.

Lemma longestCommonSubstring_maximal_witness :
  length [98; 99]%Z
  <= length (longestCommonSubstring [97; 98; 99; 100]%Z [120; 98; 99; 121]%Z 3).
Proof.
  apply (longestCommonSubstring_maximal _ _ 3 [98; 99]%Z).
  - exists [97]%Z, []. reflexivity.
  - exists [120]%Z, []. reflexivity.
Defined.

(** A string compared with itself yields its first [cap] code units. *)
Theorem longestCommonSubstring_self (a : jsstring) (cap : nat) :
  longestCommonSubstring a a cap = firstn cap a.
Proof.
  apply isSubstring_full.
  - apply longestCommonSubstring_isSubstring_l.
  - apply longestCommonSubstring_longest; apply isSubstring_refl.
Qed.

(** ** rabinKarpHash and rabinKarpSearch *)

(** X5. On code units, and for a modulus up to 2^44 (so that no intermediate
    value leaves the exact range of a double), [rabinKarpHash] is the value
    of the string read as a number in base 256, reduced modulo the prime; it
    lies in [0, prime). *)
Theorem rabinKarpHash_value (s : jsstring) (prime : Z) :
  wfString s -> (0 < prime <= 2 ^ 44)%Z ->
  rabinKarpHash s prime = (poly s mod prime)%Z
  /\ (0 <= rabinKarpHash s prime < prime)%Z.
Proof.
  intros Hwf Hp.
  assert (G : forall w h0 p0,
             wfString w -> (0 <= h0)%Z -> h0 = (p0 mod prime)%Z ->
             fold_left (fun hash c => Z.rem (hash * 256 + c) prime) w h0
             = (fold_left (fun h c => (h * 256 + c)%Z) w p0 mod prime)%Z).
  { induction w as [|c w IH]; intros h0 p0 Hw Hh Hp0; cbn [fold_left].
    - exact Hp0.
    - inversion Hw as [|? ? Hc Hw']; subst. unfold codeUnit in Hc.
      apply IH; [exact Hw'| |].
      + apply Z.rem_nonneg; lia.
      + rewrite Z.rem_mod_nonneg by lia.
        rewrite <- Z.add_mod_idemp_l by lia.
        rewrite Z.mul_mod_idemp_l by lia.
        rewrite Z.add_mod_idemp_l by lia. reflexivity. }
  assert (E : rabinKarpHash s prime = (poly s mod prime)%Z).
  { unfold rabinKarpHash, poly. apply G; [exact Hwf|lia|].
    symmetry. apply Z.mod_0_l. lia. }
  split; [exact E|]. rewrite E. apply Z.mod_pos_bound. lia.
Qed.

Lemma rabinKarpHash_value_witness :
  rabinKarpHash [97; 98]%Z 101 = (poly [97; 98]%Z mod 101)%Z
  /\ (0 <= rabinKarpHash [97; 98]%Z 101 < 101)%Z.
Proof.
  apply rabinKarpHash_value.
  - repeat constructor; unfold codeUnit; lia.
  - vm_compute. split; [reflexivity|discriminate].
Defined.

(** The theorem [rabinKarpSearch_exact_short] at "ababa" and "aba". *)
Lemma rabinKarpSearch_exact_short_witness :
  rabinKarpSearch [97; 98; 97; 98; 97]%Z [97; 98; 97]%Z
  = occurrences [97; 98; 97; 98; 97]%Z [97; 98; 97]%Z.
Proof.
  apply rabinKarpSearch_exact_short.
  - repeat constructor; unfold codeUnit; lia.
  - cbn. lia.
Defined.

Lemma rollHash_NaN (text : jsstring) (m i : nat) (th : jsnum) :
  rollHash text m i NaN th = NaN.
Proof.
  unfold rollHash.
  assert (E : jsmul (charCodeAt text i) NaN = NaN).
  { destruct (charCodeAt text i); reflexivity. }
  rewrite E.
  assert (E2 : jssub th NaN = NaN) by (destruct th; reflexivity).
  rewrite E2. cbn. reflexivity.
Qed.

Lemma search_multiplier_overflow (m : nat) :
  129 <= m -> jsrem (pow256 (Z.of_nat m - 1)) 101 = NaN.
Proof.
  intros Hm. unfold pow256.
  assert (E : (Z.of_nat m - 1 <=? 127)%Z = false) by (apply Z.leb_gt; lia).
  rewrite E. reflexivity.
Qed.

(** X7. For a pattern of 129 code units or more the search reports offset 0
    when the text starts with the pattern, and nothing else: every later
    occurrence is missed, because the hash multiplier is NaN. *)
Theorem rabinKarpSearch_long_pattern (text pattern : jsstring) :
  129 <= length pattern ->
  rabinKarpSearch text pattern =
  if string_eqb (substring text 0 (length pattern)) pattern then [0] else [].
Proof.
  intros Hm. unfold rabinKarpSearch.
  set (m := length pattern) in *. set (n := length text) in *.
  destruct (n <? m) eqn:Enm.
  - apply Nat.ltb_lt in Enm.
    destruct (string_eqb (substring text 0 m) pattern) eqn:E; [|reflexivity].
    apply string_eqb_eq in E. exfalso.
    assert (Hl : length (substring text 0 m) = m) by (rewrite E; reflexivity).
    rewrite substring_0, length_firstn in Hl. fold n in Hl. lia.
  - apply Nat.ltb_ge in Enm.
    rewrite (search_multiplier_overflow m Hm).
    set (ph := ofZ (rabinKarpHash pattern 101)).
    set (res := if string_eqb (substring text 0 m) pattern then [0] else []).
    assert (Hinv :
              let st := forRange 0 (n - m + 1) (searchStep text pattern ph NaN)
                          ([], ofZ (rabinKarpHash (substring text 0 m) 101)) in
              (n - m + 1 = 0
               /\ st = ([], ofZ (rabinKarpHash (substring text 0 m) 101)))
              \/ (1 <= n - m + 1 /\ fst st = res
                  /\ (n - m + 1 <= n - m -> snd st = NaN))).
    { apply (forRange_inv
               (fun k st =>
                  (k = 0 /\ st = ([], ofZ (rabinKarpHash (substring text 0 m) 101)))
                  \/ (1 <= k /\ fst st = res /\ (k <= n - m -> snd st = NaN)))).
      - left. split; reflexivity.
      - intros k st Hk [[-> ->]|[Hk1 [Hres Hnan]]]; right.
        + split; [lia|]. unfold searchStep. fold m n. cbn [Nat.add fst snd].
          split.
          * unfold res.
            destruct (string_eqb (substring text 0 m) pattern) eqn:E.
            -- apply string_eqb_eq in E. rewrite E. unfold ph.
               rewrite jseq_ofZ_refl. reflexivity.
            -- destruct (jseq ph _); reflexivity.
          * intros Hle. assert (Hlt : (0 <? n - m) = true) by (apply Nat.ltb_lt; lia).
            rewrite Hlt. apply rollHash_NaN.
        + destruct st as [matches th]. cbn [fst snd] in *.
          specialize (Hnan ltac:(lia)). subst th matches.
          split; [lia|]. unfold searchStep. fold m n. cbn [Nat.add fst snd].
          assert (E : jseq ph NaN = false) by reflexivity. rewrite E.
          split; [reflexivity|]. intros Hle.
          destruct (k <? n - m); [apply rollHash_NaN|reflexivity]. }
    cbv zeta in Hinv. destruct Hinv as [[H0 _]|[_ [Hres _]]]; [lia|exact Hres].
Qed.

Lemma rabinKarpSearch_long_pattern_witness :
  rabinKarpSearch (repeat 97%Z 131) (repeat 97%Z 129) =
  if string_eqb (substring (repeat 97%Z 131) 0 (length (repeat 97%Z 129)))
       (repeat 97%Z 129)
  then [0] else [].
Proof.
  apply rabinKarpSearch_long_pattern. rewrite repeat_length. lia.
Defined.

From Stdlib Require Import Sorted.

Lemma search_multiplier_empty :
  jsrem (pow256 (Z.of_nat 0 - 1)) 101 = Num (1 # 256).
Proof. vm_compute. reflexivity. Qed.

(** With the empty pattern the rolled hash stays 0: the multiplier is
    1/256, and 256 * (0 - c / 256) + c = 0. *)
Lemma rollHash_empty (text : jsstring) (i : nat) (c : Z) :
  nth_error text i = Some c ->
  rollHash text 0 i (Num (1 # 256)) (ofZ 0) = ofZ 0.
Proof.
  intros Hc. unfold rollHash, charCodeAt. rewrite Nat.add_0_r, Hc.
  unfold ofZ, jsmul, jssub, jsadd.
  rewrite (jsrem_Num _ 0).
  - reflexivity.
  - rewrite !Qred_correct. field.
Qed.

(** X8. The empty pattern is found at every offset from 0 to the length of
    the text. *)
Theorem rabinKarpSearch_empty_pattern (text : jsstring) :
  rabinKarpSearch text [] = seq 0 (length text + 1).
Proof.
  unfold rabinKarpSearch. cbn [length Nat.ltb Nat.leb].
  rewrite search_multiplier_empty, Nat.sub_0_r.
  change (rabinKarpHash [] 101) with 0%Z.
  assert (E0 : substring text 0 0 = []) by (rewrite substring_0; reflexivity).
  rewrite E0. change (rabinKarpHash [] 101) with 0%Z.
  assert (Hinv :
            let st := forRange 0 (length text + 1)
                        (searchStep text [] (ofZ 0) (Num (1 # 256))) ([], ofZ 0) in
            fst st = seq 0 (length text + 1) /\ snd st = ofZ 0).
  { apply (forRange_inv (fun k st => fst st = seq 0 k /\ snd st = ofZ 0)).
    - split; reflexivity.
    - intros k [matches th] Hk [Hm Hth]. cbn [fst snd Nat.add] in *. subst.
      unfold searchStep. cbn [length fst snd]. rewrite Nat.add_0_r, Nat.sub_0_r.
      assert (Es : substring text k k = []).
      { unfold substring. rewrite Nat.min_id, Nat.max_id, Nat.sub_diag. reflexivity. }
      rewrite Es, jseq_ofZ_refl, string_eqb_refl, seq_S. cbn [Nat.add].
      split; [reflexivity|].
      destruct (k <? length text) eqn:Elt; [|reflexivity].
      apply Nat.ltb_lt in Elt.
      destruct (nth_error_lt text k Elt) as [c Hc].
      apply (rollHash_empty text k c Hc). }
  cbv zeta in Hinv. destruct Hinv as [H _]. exact H.
Qed.


Lemma StronglySorted_snoc (l : list nat) (k : nat) :
  StronglySorted lt l -> Forall (fun i => i < k) l -> StronglySorted lt (l ++ [k]).
Proof.
  induction 1 as [|a l Hs IH Ha]; intros Hk; cbn.
  - repeat constructor.
  - inversion Hk; subst. constructor; [apply IH; assumption|].
    apply Forall_app. split; [exact Ha|]. repeat constructor. assumption.
Qed.

(** X9. The offsets are reported in strictly increasing order, hence without
    repetition, and each leaves room for the whole pattern. *)
Theorem rabinKarpSearch_increasing (text pattern : jsstring) :
  StronglySorted lt (rabinKarpSearch text pattern)
  /\ Forall (fun i => i + length pattern <= length text)
       (rabinKarpSearch text pattern).
Proof.
  unfold rabinKarpSearch.
  set (m := length pattern). set (n := length text).
  destruct (n <? m) eqn:Enm; [split; constructor|].
  apply Nat.ltb_ge in Enm.
  assert (H : StronglySorted lt
                (fst (forRange 0 (n - m + 1)
                        (searchStep text pattern
                           (ofZ (rabinKarpHash pattern 101))
                           (jsrem (pow256 (Z.of_nat m - 1)) 101))
                        ([], ofZ (rabinKarpHash (substring text 0 m) 101))))
              /\ Forall (fun i => i < n - m + 1)
                   (fst (forRange 0 (n - m + 1)
                           (searchStep text pattern
                              (ofZ (rabinKarpHash pattern 101))
                              (jsrem (pow256 (Z.of_nat m - 1)) 101))
                           ([], ofZ (rabinKarpHash (substring text 0 m) 101))))).
  { apply (forRange_inv
             (fun k st => StronglySorted lt (fst st)
                          /\ Forall (fun i => i < k) (fst st))).
    - split; constructor.
    - intros k [matches th] Hk [Hs Hf]. cbn [fst snd Nat.add] in *.
      assert (Hf' : Forall (fun i => i < S k) matches).
      { eapply Forall_impl; [|exact Hf]. cbn. intros; lia. }
      unfold searchStep. cbn [fst].
      destruct (jseq _ th); [|split; assumption].
      destruct (string_eqb _ pattern); [|split; assumption].
      split; [apply StronglySorted_snoc; assumption|].
      apply Forall_app. split; [exact Hf'|]. repeat constructor. }
  destruct H as [Hs Hf]. split; [exact Hs|].
  eapply Forall_impl; [|exact Hf]. cbn. intros i Hi. fold m n. lia.
Qed.

(** ** The scores of similarityComputation.ts *)

From Stdlib Require Import Lqa.

Lemma editDistance_le_max (a b : jsstring) :
  editDistance a b <= Nat.max (length a) (length b).
Proof.
  rewrite editDistance_ldist. pose proof (ldist_le_max (rev a) (rev b)) as H.
  rewrite !length_rev in H. exact H.
Qed.

Lemma longestCommonSubstring_length_le (a b : jsstring) (cap : nat) :
  length (longestCommonSubstring a b cap)
  <= Nat.min (Nat.min (length a) (length b)) cap.
Proof.
  destruct (longestCommonSubstring_spec a b cap) as [e [j [He [Hj [Hlen _]]]]].
  pose proof (sufCell_le_l (firstn cap a) (firstn cap b) e j).
  pose proof (sufCell_le_r (firstn cap a) (firstn cap b) e j).
  rewrite length_firstn in He, Hj. lia.
Qed.

Lemma QofNat_nonneg (n : nat) : (0 <= QofNat n)%Q.
Proof. unfold QofNat. change 0%Q with (inject_Z 0). rewrite <- Zle_Qle. lia. Qed.

(** A ratio of a count to a count that is at least as large. *)
Lemma ratio_range (c a : nat) :
  c <= a -> 1 <= a -> (0 <= QofNat c / QofNat a <= 1)%Q.
Proof.
  intros Hca Ha. split.
  - apply Qle_shift_div_l; [apply QofNat_pos, Ha|].
    rewrite Qmult_0_l. apply QofNat_nonneg.
  - apply Qle_shift_div_r; [apply QofNat_pos, Ha|].
    rewrite Qmult_1_l. apply QofNat_le, Hca.
Qed.

Lemma ratio_same (a : nat) : 1 <= a -> (QofNat a / QofNat a == 1)%Q.
Proof.
  intros Ha. apply Qmult_inv_r. intros H.
  pose proof (QofNat_pos a Ha) as Hp. rewrite H in Hp. discriminate Hp.
Qed.

Lemma jaccard_sets_le (s1 s2 : list jsstring) :
  length (mkSet (filter (set_has (mkSet s2)) (mkSet s1)))
  <= length (mkSet (mkSet s1 ++ mkSet s2)).
Proof.
  apply NoDup_incl_length; [apply mkSet_NoDup|].
  intros x. rewrite !mkSet_In, filter_In, in_app_iff, !mkSet_In. tauto.
Qed.

Lemma jaccardSimilarity_bounds (s1 s2 : list jsstring) :
  (0 <= jaccardSimilarity s1 s2 <= 1)%Q.
Proof.
  unfold jaccardSimilarity.
  destruct (length (mkSet (mkSet s1 ++ mkSet s2)) =? 0) eqn:E.
  - split; discriminate.
  - apply Nat.eqb_neq in E. apply ratio_range; [apply jaccard_sets_le|lia].
Qed.

(** X10. The Jaccard score lies between 0 and 1. *)
Theorem jaccardSimilarity_range (s1 s2 : list jsstring) :
  (0 <= jaccardSimilarity s1 s2)%Q /\ (jaccardSimilarity s1 s2 <= 1)%Q.
Proof. apply jaccardSimilarity_bounds. Qed.

Lemma jaccardSimilarity_self (s : list jsstring) :
  s <> [] -> (jaccardSimilarity s s == 1)%Q.
Proof.
  intros Hs. unfold jaccardSimilarity.
  assert (E : length (mkSet (filter (set_has (mkSet s)) (mkSet s)))
              = length (mkSet (mkSet s ++ mkSet s))).
  { apply NoDup_same_length; try apply mkSet_NoDup.
    intros x. rewrite !mkSet_In, filter_In, set_has_In, in_app_iff, !mkSet_In. tauto. }
  rewrite E.
  assert (Hpos : 1 <= length (mkSet (mkSet s ++ mkSet s))).
  { destruct s as [|x s]; [congruence|].
    assert (Hx : In x (mkSet (mkSet (x :: s) ++ mkSet (x :: s)))).
    { rewrite mkSet_In, in_app_iff, mkSet_In. left. left. reflexivity. }
    destruct (mkSet (mkSet (x :: s) ++ mkSet (x :: s))); [destruct Hx|cbn; lia]. }
  destruct (length (mkSet (mkSet s ++ mkSet s)) =? 0) eqn:E0.
  - apply Nat.eqb_eq in E0. lia.
  - apply ratio_same, Hpos.
Qed.

Lemma jaccardSimilarity_nil : jaccardSimilarity [] [] = 0%Q.
Proof. reflexivity. Qed.

(** X11. The score is 1 exactly when the two lists are not empty and have
    the same members, and 0 exactly when they share no member. *)
Theorem jaccardSimilarity_extremes (s1 s2 : list jsstring) :
  ((jaccardSimilarity s1 s2 == 1)%Q <->
   s1 <> [] /\ forall x, In x s1 <-> In x s2)
  /\ ((jaccardSimilarity s1 s2 == 0)%Q <->
      forall x, In x s1 -> ~ In x s2).
Proof.
  unfold jaccardSimilarity.
  set (inter := mkSet (filter (set_has (mkSet s2)) (mkSet s1))).
  set (union := mkSet (mkSet s1 ++ mkSet s2)).
  assert (Hi : forall x, In x inter <-> In x s1 /\ In x s2).
  { intros x. unfold inter. rewrite mkSet_In, filter_In, set_has_In, !mkSet_In. tauto. }
  assert (Hu : forall x, In x union <-> In x s1 \/ In x s2).
  { intros x. unfold union. rewrite mkSet_In, in_app_iff, !mkSet_In. tauto. }
  assert (Hle : length inter <= length union) by apply jaccard_sets_le.
  destruct (length union =? 0) eqn:E0.
  - apply Nat.eqb_eq in E0.
    assert (Hnil : forall x, ~ In x union).
    { intros x Hx. destruct union; [destruct Hx|discriminate]. }
    split.
    + split; [intros H; discriminate H|].
      intros [Hne _]. destruct s1 as [|x s1]; [congruence|].
      exfalso. apply (Hnil x), Hu. left. left. reflexivity.
    + split; [|reflexivity]. intros _ x Hx _. apply (Hnil x), Hu. left. exact Hx.
  - apply Nat.eqb_neq in E0.
    assert (Hpos : (0 < QofNat (length union))%Q) by (apply QofNat_pos; lia).
    assert (Hnz : ~ (QofNat (length union) == 0)%Q).
    { intros H. rewrite H in Hpos. discriminate Hpos. }
    split.
    + split.
      * intros H.
        assert (Heq : length inter = length union).
        { assert (Hq : (QofNat (length inter) == QofNat (length union))%Q).
          { rewrite <- (Qmult_div_r (QofNat (length inter)) (QofNat (length union)))
              by exact Hnz.
            rewrite H. ring. }
          unfold QofNat, Qeq in Hq. cbn in Hq. lia. }
        assert (Hincl : incl union inter).
        { apply NoDup_length_incl; [apply mkSet_NoDup|lia|].
          intros x Hx. apply Hu. apply Hi in Hx. tauto. }
        split.
        -- destruct s1 as [|x s1]; [|congruence]. exfalso.
           assert (length inter = 0).
           { destruct inter as [|y l] eqn:Ei; [reflexivity|].
             assert (In y []) by (apply (Hi y); left; reflexivity). contradiction. }
           lia.
        -- intros x. split; intros Hx.
           ++ assert (In x inter) by (apply Hincl, Hu; tauto). apply Hi. assumption.
           ++ assert (In x inter) by (apply Hincl, Hu; tauto). apply Hi. assumption.
      * intros [Hne Hsame].
        assert (Heq : length inter = length union).
        { apply NoDup_same_length; try apply mkSet_NoDup.
          intros x. rewrite Hi, Hu, (Hsame x). tauto. }
        rewrite Heq. apply ratio_same. lia.
    + split.
      * intros H x Hx1 Hx2.
        assert (Hq : (QofNat (length inter) == 0)%Q).
        { rewrite <- (Qmult_div_r (QofNat (length inter)) (QofNat (length union)))
            by exact Hnz.
          rewrite H. ring. }
        assert (length inter = 0).
        { unfold QofNat, Qeq in Hq. cbn in Hq. lia. }
        assert (Hin : In x inter) by (apply Hi; tauto).
        destruct inter; [destruct Hin|discriminate].
      * intros Hdisj.
        assert (E : length inter = 0).
        { destruct inter as [|y l] eqn:Ei; [reflexivity|]. exfalso.
          assert (Hy : In y (y :: l)) by (left; reflexivity).
          apply Hi in Hy. exact (Hdisj y (proj1 Hy) (proj2 Hy)). }
        rewrite E. unfold Qdiv. change (QofNat 0) with 0%Q. ring.
Qed.

Lemma weighted_range (a b c : Q) :
  (0 <= a <= 1)%Q -> (0 <= b <= 1)%Q -> (0 <= c <= 1)%Q ->
  (0 <= a * (5 # 10) + b * (3 # 10) + c * (2 # 10) <= 1)%Q.
Proof. intros. lra. Qed.

(** The edit score and the common-substring score of two contents. *)
Lemma editScore_range (sample1 sample2 : jsstring) :
  (0 <= (if Nat.max (length sample1) (length sample2) =? 0 then 0
         else 1 - QofNat (editDistance sample1 sample2)
                  / QofNat (Nat.max (length sample1) (length sample2))) <= 1)%Q.
Proof.
  destruct (Nat.max (length sample1) (length sample2) =? 0) eqn:E.
  - split; discriminate.
  - apply Nat.eqb_neq in E.
    pose proof (ratio_range _ _ (editDistance_le_max sample1 sample2)
                  ltac:(lia)) as H.
    lra.
Qed.

Lemma lcsScore_range (c1 c2 : jsstring) (cap : nat) :
  (0 <= (if Nat.min (Nat.min (length c1) (length c2)) cap =? 0 then 0
         else QofNat (length (longestCommonSubstring c1 c2 cap))
              / QofNat (Nat.min (Nat.min (length c1) (length c2)) cap)) <= 1)%Q.
Proof.
  destruct (Nat.min (Nat.min (length c1) (length c2)) cap =? 0) eqn:E.
  - split; discriminate.
  - apply Nat.eqb_neq in E.
    apply ratio_range; [apply longestCommonSubstring_length_le|lia].
Qed.

(** X12. [computeSimilarity] lies between 0 and 1. *)
Theorem computeSimilarity_range (c1 c2 : jsstring) :
  (0 <= computeSimilarity c1 c2)%Q /\ (computeSimilarity c1 c2 <= 1)%Q.
Proof.
  unfold computeSimilarity. apply weighted_range.
  - apply jaccardSimilarity_bounds.
  - apply editScore_range.
  - apply lcsScore_range.
Qed.

(** X13. [computeSimilarity] does not depend on the order of the two
    contents. *)
Theorem computeSimilarity_symmetric (c1 c2 : jsstring) :
  computeSimilarity c1 c2 = computeSimilarity c2 c1.
Proof.
  unfold computeSimilarity.
  rewrite (jaccardSimilarity_sym (createShingles c1 3)).
  rewrite (editDistance_sym (substring c1 0 500) (substring c2 0 500)).
  rewrite (Nat.max_comm (length (substring c1 0 500))).
  rewrite (longestCommonSubstring_length_sym c1 c2 1000).
  rewrite (Nat.min_comm (length c1) (length c2)).
  reflexivity.
Qed.

Lemma editDistance_refl (s : jsstring) : editDistance s s = 0.
Proof. rewrite editDistance_ldist. apply ldist_refl. Qed.

(** X14. A content compared with itself scores 1 when it has a 3-word
    shingle, only 0.5 when it is not empty but has none (fewer than three
    tokens), and 0 when it is empty. *)
Theorem computeSimilarity_self (c : jsstring) :
  (computeSimilarity c c ==
   (match createShingles c 3 with [] => 0 | _ => 5 # 10 end)
   + (match c with [] => 0 | _ => 5 # 10 end))%Q.
Proof.
  unfold computeSimilarity.
  assert (HJ : (jaccardSimilarity (createShingles c 3) (createShingles c 3)
                == match createShingles c 3 with [] => 0 | _ => 1 end)%Q).
  { destruct (createShingles c 3) as [|sh l] eqn:E; [reflexivity|].
    apply jaccardSimilarity_self. congruence. }
  rewrite HJ.
  rewrite (editDistance_refl (substring c 0 500)).
  rewrite longestCommonSubstring_self, Nat.max_id, Nat.min_id, substring_0.
  rewrite !length_firstn.
  destruct c as [|x c'].
  - cbn. destruct (createShingles [] 3); reflexivity.
  - set (s := x :: c').
    assert (Hl : 1 <= length s) by (cbn; lia).
    destruct (Nat.min 500 (length s) =? 0) eqn:E1;
      [apply Nat.eqb_eq in E1; lia|].
    rewrite (Nat.min_comm 1000 (length s)).
    destruct (Nat.min (length s) 1000 =? 0) eqn:E2;
      [apply Nat.eqb_eq in E2; lia|].
    rewrite ratio_same by lia.
    change (QofNat 0) with 0%Q.
    destruct (createShingles s 3); field;
      intros H; pose proof (QofNat_pos (Nat.min 500 (length s)) ltac:(lia)) as Hp;
      rewrite H in Hp; discriminate Hp.
Qed.

(** ** The results of computeAllSimilarities *)

Lemma pairs_prefix_length (n k : nat) :
  k <= n ->
  2 * length (flat_map (fun i => map (fun j => (i, j)) (seq (i + 1) (n - (i + 1))))
                (seq 0 k))
  = k * (2 * n - k - 1).
Proof.
  induction k as [|k IH]; intros Hk; [reflexivity|].
  rewrite seq_S, flat_map_app, length_app. cbn [flat_map Nat.add].
  rewrite app_nil_r, length_map, length_seq.
  specialize (IH ltac:(lia)).
  assert (E : exists d, n = k + 1 + d) by (exists (n - (k + 1)); lia).
  destruct E as [d ->].
  replace (k + 1 + d - (k + 1)) with d by lia.
  replace (2 * (k + 1 + d) - S k - 1) with (k + 2 * d) by lia.
  replace (2 * (k + 1 + d) - k - 1) with (k + 1 + 2 * d) in IH by lia.
  rewrite Nat.mul_add_distr_l, IH. ring.
Qed.

Lemma pairs_length (n : nat) : 2 * length (pairs n) = n * (n - 1).
Proof.
  unfold pairs. rewrite (pairs_prefix_length n n (le_n n)).
  destruct n; [reflexivity|]. f_equal. lia.
Qed.

(** Every result is the one of a pair of positions. *)
Lemma computeAllSimilarities_In (documents : list Document) (r : SimilarityResult) :
  In r (computeAllSimilarities documents) ->
  exists i j di dj,
    i < j /\ nth_error documents i = Some di /\ nth_error documents j = Some dj
    /\ r = pairResult documents
             (map (fun d => createShingles (doc_content d) 3) documents)
             (map (fun d => wordCount (doc_content d)) documents) i j.
Proof.
  intros Hin. rewrite computeAllSimilarities_pairs in Hin.
  apply in_map_iff in Hin. destruct Hin as [[i j] [Hr Hp]]. cbn [fst snd] in Hr.
  apply pairs_In in Hp.
  destruct (nth_error documents i) as [di|] eqn:Hi;
    [|apply nth_error_None in Hi; lia].
  destruct (nth_error documents j) as [dj|] eqn:Hj;
    [|apply nth_error_None in Hj; lia].
  exists i, j, di, dj. repeat split; auto; lia.
Qed.

(** X15. For [n] documents there are [n (n - 1) / 2] results, and each one
    carries the identifiers and names of two documents, the first of which
    comes earlier in the list. *)
Theorem computeAllSimilarities_count (documents : list Document) :
  length (computeAllSimilarities documents)
  = length documents * (length documents - 1) / 2
  /\ Forall
       (fun r =>
          exists i j di dj,
            i < j /\ nth_error documents i = Some di
            /\ nth_error documents j = Some dj
            /\ doc1Id r = doc_id di /\ doc2Id r = doc_id dj
            /\ doc1Name r = doc_name di /\ doc2Name r = doc_name dj)
       (computeAllSimilarities documents).
Proof.
  split.
  - rewrite computeAllSimilarities_pairs, length_map.
    rewrite <- (pairs_length (length documents)).
    rewrite Nat.mul_comm, Nat.div_mul; lia.
  - apply Forall_forall. intros r Hr.
    destruct (computeAllSimilarities_In documents r Hr)
      as [i [j [di [dj [Hij [Hi [Hj ->]]]]]]].
    exists i, j, di, dj. unfold pairResult. cbn.
    rewrite (docAt_nth_error _ _ _ Hi), (docAt_nth_error _ _ _ Hj).
    repeat split; auto.
Qed.

Lemma compositeOf_range (c1 c2 : jsstring) (J : Q) :
  (0 <= J <= 1)%Q -> (0 <= compositeOf c1 c2 J <= 1)%Q.
Proof.
  intros HJ. unfold compositeOf.
  destruct (negb (Qle_bool J (15 # 100))); [|exact HJ].
  apply weighted_range; [exact HJ|apply editScore_range|apply lcsScore_range].
Qed.

(** X16. In every result the primary similarity equals the match metric and
    lies between 0 and 100, the raw match count is at most the average word
    count, which is at least 1, and the composite score lies between 0 and
    100. *)
Theorem computeAllSimilarities_ranges (documents : list Document) :
  Forall
    (fun r =>
       similarity r = matchMetric r
       /\ 1 <= avgWords r
       /\ rawMatchCount r <= avgWords r
       /\ (0 <= similarity r <= 100)%Q
       /\ (0 <= compositeScore r <= 100)%Q)
    (computeAllSimilarities documents).
Proof.
  apply Forall_forall. intros r Hr.
  destruct (computeAllSimilarities_In documents r Hr)
    as [i [j [di [dj [Hij [Hi [Hj ->]]]]]]].
  destruct (pairResult_fields documents i j di dj Hi Hj)
    as [_ [_ [F3 [F4 [F5 [F6 F7]]]]]].
  pose proof (commonCount_le_avgWords (doc_content di) (doc_content dj)) as Hle.
  split; [symmetry; exact F6|]. rewrite F3, F4, F5, F7.
  split; [lia|]. split; [exact Hle|]. split.
  - pose proof (ratio_range _ _ Hle ltac:(lia)) as H. lra.
  - pose proof (compositeOf_range (doc_content di) (doc_content dj) _
                  (jaccardSimilarity_bounds (createShingles (doc_content di) 3)
                     (createShingles (doc_content dj) 3))) as H.
    lra.
Qed.

Lemma Forall2_map_In {A B : Type} (R : A -> B -> Prop) (f : A -> B) (l : list A) :
  (forall x, In x l -> R x (f x)) -> Forall2 R l (map f l).
Proof.
  induction l as [|x l IH]; intros H; cbn; constructor.
  - apply H. left. reflexivity.
  - apply IH. intros y Hy. apply H. right. exact Hy.
Qed.

(** X17. The results follow the pairs [(i, j)], [i < j], in loop order, and
    the result of a pair holds a matched section exactly when its similarity
    is at least 5 and the longest common substring of the contents of
    documents [i] and [j] (computed with cap 2000) has more than 50 code
    units: then it holds one entry, the first 200 code units of that
    substring followed by "...", and otherwise none. *)
Theorem computeAllSimilarities_matchedSections (documents : list Document) :
  Forall2
    (fun p r =>
       exists di dj,
         fst p < snd p
         /\ nth_error documents (fst p) = Some di
         /\ nth_error documents (snd p) = Some dj
         /\ doc1Id r = doc_id di /\ doc2Id r = doc_id dj
         /\ (((5 <= similarity r)%Q
              /\ 50 < length (longestCommonSubstring
                                (doc_content di) (doc_content dj) 2000)
              /\ matchedSections r =
                 [firstn 200 (longestCommonSubstring
                                (doc_content di) (doc_content dj) 2000)
                  ++ ellipsis])
             \/ (~ ((5 <= similarity r)%Q
                    /\ 50 < length (longestCommonSubstring
                                      (doc_content di) (doc_content dj) 2000))
                 /\ matchedSections r = [])))
    (pairs (length documents)) (computeAllSimilarities documents).
Proof.
  rewrite computeAllSimilarities_pairs. apply Forall2_map_In.
  intros [i j] Hp. cbn [fst snd]. apply pairs_In in Hp.
  destruct (nth_error documents i) as [di|] eqn:Hi;
    [|apply nth_error_None in Hi; lia].
  destruct (nth_error documents j) as [dj|] eqn:Hj;
    [|apply nth_error_None in Hj; lia].
  exists di, dj. split; [lia|]. split; [reflexivity|]. split; [reflexivity|].
  unfold pairResult. cbn [matchedSections similarity doc1Id doc2Id].
  rewrite (docAt_nth_error _ _ _ Hi), (docAt_nth_error _ _ _ Hj).
  split; [reflexivity|]. split; [reflexivity|].
  destruct (Qle_bool 5 _) eqn:E5.
  - apply Qle_bool_iff in E5.
    destruct (50 <? length _) eqn:E50.
    + apply Nat.ltb_lt in E50. left. split; [exact E5|]. split; [exact E50|].
      rewrite substring_0. reflexivity.
    + apply Nat.ltb_ge in E50. right. split; [|reflexivity].
      intros [_ H]. lia.
  - right. split; [|reflexivity]. intros [H _].
    apply Qle_bool_iff in H. congruence.
Qed.

(** ** Clusters and chains of similarities *)

Lemma reach_chained (documents : list DocRef) (similarities : list SimilarityResult)
    (threshold : Q) (x y : jsstring) :
  reach (buildGraph documents similarities threshold) x y
  <-> chained similarities threshold x y.
Proof.
  split.
  - induction 1 as [|u w Hr IH He]; [constructor|].
    eapply chained_step; [exact IH|]. apply buildGraph_edge in He. exact He.
  - induction 1 as [|u w Hr IH He]; [constructor|].
    eapply reach_step; [exact IH|]. apply buildGraph_edge. exact He.
Qed.

Lemma reach_sym (g : adjList) (x y : jsstring) :
  (forall a b, edge g a b -> edge g b a) -> reach g x y -> reach g y x.
Proof.
  intros Hsym. induction 1 as [|u w Hr IH He]; [constructor|].
  eapply reach_trans; [|exact IH]. apply reach_edge, Hsym, He.
Qed.

(** A path that leaves [x] starts with an edge to another vertex. *)
Lemma reach_leaves (g : adjList) (x y : jsstring) :
  reach g x y -> y = x \/ exists z, z <> x /\ edge g x z.
Proof.
  induction 1 as [|u w Hr IH He]; [left; reflexivity|].
  destruct IH as [->|IH]; [|right; exact IH].
  destruct (string_dec w x) as [->|Hne]; [left; reflexivity|].
  right. exists w. split; assumption.
Qed.

Lemma two_members (c : list jsstring) (x : jsstring) :
  NoDup c -> 2 <= length c -> exists y, In y c /\ y <> x.
Proof.
  intros Hnd Hlen. destruct c as [|a [|b c']]; cbn in Hlen; try lia.
  destruct (string_dec a x) as [->|Ha].
  - exists b. split; [right; left; reflexivity|].
    inversion Hnd as [|? ? Hnotin _]; subst. intros ->. apply Hnotin. left. reflexivity.
  - exists a. split; [left; reflexivity|exact Ha].
Qed.

(** The clusters in terms of the components they come from. *)
Lemma createClusters_members (documents : list DocRef)
    (similarities : list SimilarityResult) (threshold : Q) :
  exists cs,
    createClusters documents similarities threshold = Some cs
    /\ (forall c, In c cs ->
          NoDup (cluster_documents c) /\ 2 <= length (cluster_documents c)
          /\ goodComponent (buildGraph documents similarities threshold)
               (cluster_documents c))
    /\ (forall comp x,
          goodComponent (buildGraph documents similarities threshold) comp ->
          In x comp ->
          In x (adj_keys (buildGraph documents similarities threshold)) ->
          exists comp', (forall y, In y comp -> In y comp') /\ NoDup comp'
                        /\ (2 <= length comp' ->
                            exists c, In c cs /\ cluster_documents c = comp'))
    /\ (forall x,
          In x (adj_keys (buildGraph documents similarities threshold)) ->
          exists comp', In x comp' /\ NoDup comp'
                        /\ goodComponent
                             (buildGraph documents similarities threshold) comp'
                        /\ (2 <= length comp' ->
                            exists c, In c cs /\ cluster_documents c = comp')).
Proof.
  destruct (createClusters_components documents similarities threshold)
    as [comps [cs [_ [Hcs [Hdocs [_ [Hnd [Hgood Hcover]]]]]]]].
  rewrite Forall_forall in Hgood.
  exists cs. split; [exact Hcs|].
  assert (Hcl : forall comp', In comp' comps -> 2 <= length comp' ->
                  exists c, In c cs /\ cluster_documents c = comp').
  { intros comp' Hin Hlen.
    assert (H : In comp' (map cluster_documents cs)).
    { rewrite Hdocs. apply filter_In. split; [exact Hin|]. apply Nat.ltb_lt. lia. }
    apply in_map_iff in H. destruct H as [c [E Hc]]. exists c. auto. }
  assert (Hkey : forall x,
            In x (adj_keys (buildGraph documents similarities threshold)) ->
            exists comp', In comp' comps /\ In x comp').
  { intros x Hx. apply Hcover in Hx. apply in_concat in Hx. exact Hx. }
  split; [|split].
  - intros c Hc.
    assert (H : In (cluster_documents c) (map cluster_documents cs)) by (apply in_map, Hc).
    rewrite Hdocs in H. apply filter_In in H. destruct H as [Hin Hlen].
    apply Nat.ltb_lt in Hlen.
    split; [eapply NoDup_concat_In; eassumption|]. split; [lia|]. apply Hgood, Hin.
  - intros comp x [h [t [-> [Hh [Hreach Hclosed]]]]] Hx Hxk.
    destruct (Hkey h Hh) as [comp' [Hin' Hh']].
    destruct (Hgood comp' Hin') as [h' [t' [_ [_ [_ Hclosed']]]]].
    exists comp'. split.
    + intros y Hy. apply (closed_reach _ comp' h y Hclosed' Hh'). apply Hreach, Hy.
    + split; [eapply NoDup_concat_In; eassumption|]. apply Hcl, Hin'.
  - intros x Hx. destruct (Hkey x Hx) as [comp' [Hin' Hx']].
    exists comp'. split; [exact Hx'|].
    split; [eapply NoDup_concat_In; eassumption|].
    split; [apply Hgood, Hin'|]. apply Hcl, Hin'.
Qed.

(** X18. A cluster is a class of chained identifiers: for a member [x] of a
    cluster, [y] belongs to the same cluster exactly when a chain of
    similarities at or above the threshold leads from [x] to [y]. *)
Theorem createClusters_chained (documents : list DocRef)
    (similarities : list SimilarityResult) (threshold : Q) :
  exists cs,
    createClusters documents similarities threshold = Some cs
    /\ forall c x y,
         In c cs -> In x (cluster_documents c) ->
         (In y (cluster_documents c) <-> chained similarities threshold x y).
Proof.
  destruct (createClusters_members documents similarities threshold)
    as [cs [Hcs [Hgood _]]].
  exists cs. split; [exact Hcs|]. intros c x y Hc Hx.
  destruct (Hgood c Hc) as [_ [_ [h [t [E [Hh [Hreach Hclosed]]]]]]].
  rewrite <- reach_chained with (documents := documents).
  pose proof (buildGraph_wf documents similarities threshold) as [_ Hsym].
  split.
  - intros Hy. eapply reach_trans; [|apply Hreach, Hy].
    apply reach_sym; [exact Hsym|]. apply Hreach, Hx.
  - intros Hr. apply (closed_reach _ _ x y Hclosed Hx Hr).
Qed.

(** Two different identifiers that are linked lie in one cluster. *)
Lemma linked_same_cluster (documents : list DocRef)
    (similarities : list SimilarityResult) (threshold : Q) (cs : list Cluster)
    (x y : jsstring) :
  createClusters documents similarities threshold = Some cs ->
  linked similarities threshold x y -> y <> x ->
  exists c, In c cs /\ In x (cluster_documents c) /\ In y (cluster_documents c).
Proof.
  intros Hcs0 Hl Hne.
  destruct (createClusters_members documents similarities threshold)
    as [cs' [Hcs [_ [_ Hkey]]]].
  rewrite Hcs0 in Hcs. injection Hcs as <-.
  pose proof (buildGraph_wf documents similarities threshold) as [Hclosedg Hsym].
  apply (proj2 (buildGraph_edge documents similarities threshold x y)) in Hl.
  assert (Hxk : In x (adj_keys (buildGraph documents similarities threshold))).
  { apply (Hclosedg y x), Hsym, Hl. }
  destruct (Hkey x Hxk) as [comp [Hx [Hnd [[h [t [E [Hh [Hreach Hclosed]]]]] Hcl]]]].
  assert (Hy : In y comp) by (eapply Hclosed; eassumption).
  destruct Hcl as [c [Hc Ec]].
  - destruct comp as [|a [|b l]]; cbn; try lia.
    + destruct Hx.
    + destruct Hx as [<-|[]]. destruct Hy as [<-|[]]. congruence.
  - exists c. rewrite Ec. auto.
Qed.

(** X19. An identifier belongs to a cluster exactly when a similarity at or
    above the threshold links it to a different identifier. *)
Theorem createClusters_clustered (documents : list DocRef)
    (similarities : list SimilarityResult) (threshold : Q) :
  exists cs,
    createClusters documents similarities threshold = Some cs
    /\ forall x,
         (exists c, In c cs /\ In x (cluster_documents c))
         <-> exists y, y <> x /\ linked similarities threshold x y.
Proof.
  destruct (createClusters_members documents similarities threshold)
    as [cs [Hcs [Hgood _]]].
  exists cs. split; [exact Hcs|]. intros x.
  pose proof (buildGraph_wf documents similarities threshold) as [Hclosedg Hsym].
  split.
  - intros [c [Hc Hx]].
    destruct (Hgood c Hc) as [Hnd [Hlen [h [t [E [Hh [Hreach Hclosed]]]]]]].
    destruct (two_members _ x Hnd Hlen) as [y [Hy Hne]].
    assert (Hr : reach (buildGraph documents similarities threshold) x y).
    { eapply reach_trans; [|apply Hreach, Hy].
      apply reach_sym; [exact Hsym|]. apply Hreach, Hx. }
    destruct (reach_leaves _ _ _ Hr) as [->|[z [Hz He]]]; [congruence|].
    exists z. split; [exact Hz|]. apply buildGraph_edge in He. exact He.
  - intros [y [Hne Hl]].
    destruct (linked_same_cluster _ _ _ _ x y Hcs Hl Hne) as [c [Hc [Hx _]]].
    exists c. auto.
Qed.

(** ** The average similarity of a cluster *)

Lemma sum_from (f : SimilarityResult -> Q) (l : list SimilarityResult) (acc : Q) :
  (fold_left (fun sum s => sum + f s) l acc
   == acc + fold_left (fun sum s => sum + f s) l 0)%Q.
Proof.
  revert acc. induction l as [|x l IH]; intros acc; cbn.
  - ring.
  - rewrite IH. rewrite (IH (0 + f x)%Q). ring.
Qed.

Lemma sum_lower (f : SimilarityResult -> Q) (l : list SimilarityResult) (lo : Q) :
  (forall x, In x l -> (lo <= f x)%Q) ->
  (QofNat (length l) * lo <= fold_left (fun sum s => sum + f s) l 0)%Q.
Proof.
  induction l as [|x l IH]; intros H.
  - cbn [fold_left length]. change (QofNat 0) with 0%Q. lra.
  - cbn [fold_left length]. rewrite sum_from.
    assert (E : (QofNat (S (length l)) == QofNat (length l) + 1)%Q).
    { unfold QofNat. rewrite Nat2Z.inj_succ. unfold Z.succ. rewrite inject_Z_plus.
      reflexivity. }
    rewrite E.
    pose proof (H x (or_introl eq_refl)) as Hx.
    pose proof (IH (fun y Hy => H y (or_intror Hy))) as Hl.
    lra.
Qed.

Lemma sum_upper (f : SimilarityResult -> Q) (l : list SimilarityResult) (hi : Q) :
  (forall x, In x l -> (f x <= hi)%Q) ->
  (fold_left (fun sum s => sum + f s) l 0 <= QofNat (length l) * hi)%Q.
Proof.
  induction l as [|x l IH]; intros H.
  - cbn [fold_left length]. change (QofNat 0) with 0%Q. lra.
  - cbn [fold_left length]. rewrite sum_from.
    assert (E : (QofNat (S (length l)) == QofNat (length l) + 1)%Q).
    { unfold QofNat. rewrite Nat2Z.inj_succ. unfold Z.succ. rewrite inject_Z_plus.
      reflexivity. }
    rewrite E.
    pose proof (H x (or_introl eq_refl)) as Hx.
    pose proof (IH (fun y Hy => H y (or_intror Hy))) as Hl.
    lra.
Qed.

Lemma least_member (f : SimilarityResult -> Q) (l : list SimilarityResult) :
  l <> [] -> exists a, In a l /\ forall x, In x l -> (f a <= f x)%Q.
Proof.
  induction l as [|x l IH]; [congruence|]. intros _.
  destruct l as [|y l].
  - exists x. split; [left; reflexivity|]. intros z [<-|[]]. lra.
  - destruct IH as [a [Ha Hmin]]; [discriminate|].
    destruct (Qlt_le_dec (f x) (f a)) as [Hlt|Hle].
    + exists x. split; [left; reflexivity|].
      intros z [<-|Hz]; [lra|]. specialize (Hmin z Hz). lra.
    + exists a. split; [right; exact Ha|].
      intros z [<-|Hz]; [exact Hle|]. apply Hmin, Hz.
Qed.

Lemma greatest_member (f : SimilarityResult -> Q) (l : list SimilarityResult) :
  l <> [] -> exists a, In a l /\ forall x, In x l -> (f x <= f a)%Q.
Proof.
  induction l as [|x l IH]; [congruence|]. intros _.
  destruct l as [|y l].
  - exists x. split; [left; reflexivity|]. intros z [<-|[]]. lra.
  - destruct IH as [a [Ha Hmax]]; [discriminate|].
    destruct (Qlt_le_dec (f a) (f x)) as [Hlt|Hle].
    + exists x. split; [left; reflexivity|].
      intros z [<-|Hz]; [lra|]. specialize (Hmax z Hz). lra.
    + exists a. split; [right; exact Ha|].
      intros z [<-|Hz]; [exact Hle|]. apply Hmax, Hz.
Qed.

Lemma mapi_from_In {A B : Type} (f : nat -> A -> B) (l : list A) (start : nat) (y : B) :
  In y (mapi_from f start l) -> exists i x, In x l /\ y = f i x.
Proof.
  revert start. induction l as [|x l IH]; intros start; cbn; [intros []|].
  intros [<-|H].
  - exists start, x. auto.
  - destruct (IH _ H) as [i [x' [Hx' E]]]. exists i, x'. auto.
Qed.

Lemma createClusters_toCluster (documents : list DocRef)
    (similarities : list SimilarityResult) (threshold : Q) (cs : list Cluster)
    (c : Cluster) :
  createClusters documents similarities threshold = Some cs -> In c cs ->
  c = toCluster similarities (cluster_id c) (cluster_documents c).
Proof.
  unfold createClusters.
  destruct (findConnectedComponents _) as [comps|]; [|discriminate].
  intros E Hc. injection E as <-.
  apply mapi_from_In in Hc. destruct Hc as [i [comp [_ ->]]]. reflexivity.
Qed.

(** In the exact model the guard on the number of similarities inside a
    cluster never fires,
    and the exact mean lies between the least and the greatest of them. *)
Lemma avgSimilarity_between (documents : list DocRef)
    (similarities : list SimilarityResult) (threshold : Q) :
  exists cs,
    createClusters documents similarities threshold = Some cs
    /\ forall c, In c cs ->
         exists lo hi,
           In lo similarities /\ In hi similarities
           /\ In (doc1Id lo) (cluster_documents c) /\ In (doc2Id lo) (cluster_documents c)
           /\ In (doc1Id hi) (cluster_documents c) /\ In (doc2Id hi) (cluster_documents c)
           /\ (similarity lo <= avgSimilarity c <= similarity hi)%Q.
Proof.
  destruct (createClusters_members documents similarities threshold)
    as [cs [Hcs [Hgood _]]].
  exists cs. split; [exact Hcs|]. intros c Hc.
  destruct (Hgood c Hc) as [Hnd [Hlen [h [t [E [Hh [Hreach Hclosed]]]]]]].
  pose proof (buildGraph_wf documents similarities threshold) as [_ Hsym].
  (* the cluster contains both ends of a qualifying similarity *)
  assert (Hh' : In h (cluster_documents c)) by (rewrite E; left; reflexivity).
  destruct (two_members _ h Hnd Hlen) as [y [Hy Hne]].
  destruct (reach_leaves _ _ _ (Hreach y Hy)) as [Eq|[z [Hz He]]]; [contradiction|].
  assert (Hzc : In z (cluster_documents c)) by (exact (Hclosed h z Hh' He)).
  apply buildGraph_edge in He. destruct He as [s [Hs [_ Hends]]].
  set (inside := filter (fun sim => includes (cluster_documents c) (doc1Id sim)
                                    && includes (cluster_documents c) (doc2Id sim))
                   similarities).
  assert (Hin : In s inside).
  { apply filter_In. split; [exact Hs|]. unfold includes.
    apply andb_true_iff. rewrite !set_has_In.
    destruct Hends as [[-> ->]|[-> ->]]; auto. }
  assert (Hne' : inside <> []) by (intros E0; rewrite E0 in Hin; destruct Hin).
  assert (Hlen' : 1 <= length inside).
  { destruct inside; [congruence|cbn; lia]. }
  assert (Havg : (avgSimilarity c
                  == fold_left (fun sum s => sum + similarity s) inside 0
                     / QofNat (length inside))%Q).
  { rewrite (createClusters_toCluster _ _ _ _ _ Hcs Hc) at 1.
    cbn [toCluster avgSimilarity]. fold inside.
    destruct (Nat.ltb_spec 0 (length inside)); [reflexivity|lia]. }
  destruct (least_member similarity inside Hne') as [lo [Hlo Hmin]].
  destruct (greatest_member similarity inside Hne') as [hi [Hhi Hmax]].
  exists lo, hi.
  apply filter_In in Hlo as Hlo'. destruct Hlo' as [Hlo1 Hlo2].
  apply filter_In in Hhi as Hhi'. destruct Hhi' as [Hhi1 Hhi2].
  apply andb_true_iff in Hlo2, Hhi2. unfold includes in Hlo2, Hhi2.
  rewrite !set_has_In in Hlo2, Hhi2.
  repeat split; try tauto.
  - rewrite Havg. apply Qle_shift_div_l; [apply QofNat_pos, Hlen'|].
    rewrite Qmult_comm. apply sum_lower, Hmin.
  - rewrite Havg. apply Qle_shift_div_r; [apply QofNat_pos, Hlen'|].
    rewrite Qmult_comm. apply sum_upper, Hmax.
Qed.

(** X20. The average of a cluster is never taken over an empty list: for
    every cluster the given list holds a similarity at or above the
    threshold whose two identifiers are different members of the cluster,
    so the similarities with both documents in the cluster are at least
    one, and the branch for an empty selection is not taken. *)
Theorem createClusters_avgSimilarity_nonempty (documents : list DocRef)
    (similarities : list SimilarityResult) (threshold : Q) :
  exists cs,
    createClusters documents similarities threshold = Some cs
    /\ forall c, In c cs ->
         (exists s,
            In s similarities /\ qualifies threshold s
            /\ doc1Id s <> doc2Id s
            /\ In (doc1Id s) (cluster_documents c)
            /\ In (doc2Id s) (cluster_documents c))
         /\ filter (fun sim => includes (cluster_documents c) (doc1Id sim)
                               && includes (cluster_documents c) (doc2Id sim))
              similarities <> [].
Proof.
  destruct (createClusters_members documents similarities threshold)
    as [cs [Hcs [Hgood _]]].
  exists cs. split; [exact Hcs|]. intros c Hc.
  destruct (Hgood c Hc) as [Hnd [Hlen [h [t [E [Hh [Hreach Hclosed]]]]]]].
  assert (Hh' : In h (cluster_documents c)) by (rewrite E; left; reflexivity).
  destruct (two_members _ h Hnd Hlen) as [y [Hy Hne]].
  destruct (reach_leaves _ _ _ (Hreach y Hy)) as [Eq|[z [Hz He]]]; [contradiction|].
  assert (Hzc : In z (cluster_documents c)) by (exact (Hclosed h z Hh' He)).
  apply buildGraph_edge in He. destruct He as [s [Hs [Hq Hends]]].
  assert (Hboth : doc1Id s <> doc2Id s
                  /\ In (doc1Id s) (cluster_documents c)
                  /\ In (doc2Id s) (cluster_documents c)).
  { destruct Hends as [[E1 E2]|[E1 E2]]; rewrite <- E1, <- E2; repeat split;
      auto; congruence. }
  destruct Hboth as [Hdiff [H1 H2]]. split.
  - exists s. repeat split; assumption.
  - intros Hnil.
    assert (Hin : In s (filter (fun sim => includes (cluster_documents c) (doc1Id sim)
                                           && includes (cluster_documents c) (doc2Id sim))
                          similarities)).
    { apply filter_In. split; [exact Hs|]. unfold includes.
      apply andb_true_iff. rewrite !set_has_In. auto. }
    rewrite Hnil in Hin. destruct Hin.
Qed.

(** ** Breadth-first traversal *)

(** The loop over the neighbours in [bfs]: the vertices added to the queue
    are the neighbours that were not visited, each once. *)
Lemma enqueueNeighbors_spec (g : adjList) (nbs : list jsstring) :
  (forall nb, In nb nbs -> In nb (adj_keys g)) ->
  forall vis queue,
  exists added,
    enqueueNeighbors nbs (vis, queue)
    = (fst (enqueueNeighbors nbs (vis, queue)), queue ++ added)
    /\ (forall x, In x (fst (enqueueNeighbors nbs (vis, queue)))
                  <-> In x vis \/ In x added)
    /\ NoDup added
    /\ (forall x, In x added -> ~ In x vis)
    /\ (forall x, In x added -> In x nbs)
    /\ (forall nb, In nb nbs -> In nb (fst (enqueueNeighbors nbs (vis, queue))))
    /\ unvisited g (fst (enqueueNeighbors nbs (vis, queue))) + length added
       <= unvisited g vis.
Proof.
  induction nbs as [|nb rest IH]; intros Hk vis queue.
  - exists []. cbn. rewrite app_nil_r. repeat split; try tauto; try constructor. lia.
  - unfold enqueueNeighbors. cbn [fold_left].
    fold (enqueueNeighbors rest).
    assert (Hk' : forall x, In x rest -> In x (adj_keys g))
      by (intros x Hx; apply Hk; right; exact Hx).
    destruct (set_has vis nb) eqn:Ehas.
    + apply set_has_In in Ehas.
      destruct (IH Hk' vis queue) as [added [E [H2 [H3 [H4 [H5 [H6 H7]]]]]]].
      exists added. repeat split; try assumption; try apply H2.
      * intros x Hx. right. apply H5, Hx.
      * intros x [->|Hx]; [apply H2; left; exact Ehas|apply H6, Hx].
    + apply set_has_false in Ehas.
      destruct (IH Hk' (set_add vis nb) (queue ++ [nb]))
        as [added [E [H2 [H3 [H4 [H5 [H6 H7]]]]]]].
      exists (nb :: added). split; [|split; [|split; [|split; [|split; [|split]]]]].
      * rewrite E at 1. rewrite <- app_assoc. reflexivity.
      * intros x. rewrite H2, set_add_In. cbn [In]. intuition.
      * constructor; [|exact H3]. intros Hin. apply (H4 nb Hin).
        apply set_add_In. right. reflexivity.
      * intros x [<-|Hx]; [exact Ehas|]. intros Hv. apply (H4 x Hx).
        apply set_add_In. left. exact Hv.
      * intros x [<-|Hx]; [left; reflexivity|right; apply H5, Hx].
      * intros x [<-|Hx]; [|apply H6, Hx]. apply H2. left.
        apply set_add_In. right. reflexivity.
      * cbn [length].
        assert (unvisited g (set_add vis nb) < unvisited g vis).
        { apply (unvisited_strict g vis (set_add vis nb) nb).
          - intros x Hx. apply set_add_In. left. exact Hx.
          - apply Hk. left. reflexivity.
          - exact Ehas.
          - apply set_add_In. right. reflexivity. }
        unfold enqueueNeighbors in *. lia.
Qed.

Lemma bfsLoop_spec (g : adjList) (visited0 : list jsstring) (s : jsstring) :
  (forall x y, edge g x y -> In y (adj_keys g)) ->
  forall fuel visited queue component,
    bfsInv g visited0 s visited queue component ->
    unvisited g visited + length queue <= fuel ->
    exists visited' component',
      bfsLoop fuel g (visited, queue, component) = Some (visited', component')
      /\ bfsInv g visited0 s visited' [] component'.
Proof.
  intros Hclosed. induction fuel as [|fuel IH]; intros vis queue comp Hinv Hfuel.
  - destruct queue as [|v queue]; [|cbn in Hfuel; lia].
    exists vis, comp. split; [reflexivity|exact Hinv].
  - destruct queue as [|v queue].
    { exists vis, comp. split; [reflexivity|exact Hinv]. }
    cbn [bfsLoop].
    destruct (enqueueNeighbors_spec g (neighborsOf g v)
                (fun nb H => Hclosed v nb H) vis queue)
      as [added [E [H2 [H3 [H4 [H5 [H6 H7]]]]]]].
    rewrite E. set (vis1 := fst (enqueueNeighbors (neighborsOf g v) (vis, queue))) in *.
    destruct Hinv as [J1 [J2 [J3 [J4 [J5 [rest J6]]]]]].
    assert (Eapp : (comp ++ [v]) ++ queue ++ added = (comp ++ v :: queue) ++ added).
    { rewrite <- !app_assoc. reflexivity. }
    apply IH.
    + split; [|split; [|split; [|split; [|split]]]].
      * intros x. rewrite Eapp, H2, J1, (in_app_iff (comp ++ v :: queue)). tauto.
      * rewrite Eapp. apply NoDup_app; [exact J2|exact H3|].
        intros x Hx Hadd. apply (H4 x Hadd). apply J1. right. exact Hx.
      * intros x. rewrite Eapp, in_app_iff. intros [Hx|Hx]; [apply J3, Hx|].
        intros Hv. apply (H4 x Hx). apply J1. left. exact Hv.
      * intros x. rewrite Eapp, in_app_iff. intros [Hx|Hx]; [apply J4, Hx|].
        eapply reach_step; [|apply H5, Hx].
        apply J4. apply in_app_iff. right. left. reflexivity.
      * intros x y Hx Hxy. apply in_app_iff in Hx. destruct Hx as [Hx|[<-|[]]].
        -- apply H2. left. eapply J5; eassumption.
        -- apply H6, Hxy.
      * exists (rest ++ added). rewrite Eapp, J6. reflexivity.
    + rewrite length_app. cbn [length] in Hfuel. lia.
Qed.

(** With the graph closed under neighbours, [bfs] from an unvisited vertex
    returns, and it delivers what a traversal must. *)
Lemma bfs_spec (g : adjList) (visited : list jsstring) (v : jsstring) :
  (forall x y, edge g x y -> In y (adj_keys g)) ->
  In v (adj_keys g) -> ~ In v visited ->
  exists visited' component,
    bfs g visited v = Some (visited', component)
    /\ traversalPost g visited v visited' component.
Proof.
  intros Hclosed Hk Hv. unfold bfs.
  destruct (bfsLoop_spec g visited v Hclosed (length g)
              (set_add visited v) [v] [])
    as [vis' [comp [Hrun [J1 [J2 [J3 [J4 [J5 [rest J6]]]]]]]]].
  - unfold bfsInv. cbn [app]. split; [|split; [|split; [|split; [|split]]]].
    + intros x. rewrite set_add_In. cbn [In]. intuition.
    + repeat constructor. intros [].
    + intros x [<-|[]]. exact Hv.
    + intros x [<-|[]]. constructor.
    + intros x y [].
    + exists []. reflexivity.
  - cbn [length].
    assert (unvisited g (set_add visited v) < unvisited g visited).
    { apply (unvisited_strict g visited (set_add visited v) v); auto.
      - intros x Hx. apply set_add_In. left. exact Hx.
      - apply set_add_In. right. reflexivity. }
    pose proof (unvisited_le_length g visited). lia.
  - exists vis', comp. split; [exact Hrun|].
    rewrite app_nil_r in *. subst comp. exists rest.
    repeat split; auto; apply J1.
Qed.

Lemma dfs_traversalPost (g : adjList) (visited : list jsstring) (v : jsstring) :
  (forall x y, edge g x y -> In y (adj_keys g)) ->
  In v (adj_keys g) -> ~ In v visited ->
  exists visited' component,
    dfs (length g) g v (visited, []) = Some (visited', component)
    /\ traversalPost g visited v visited' component.
Proof.
  intros Hclosed Hk Hv.
  destruct (dfs_spec g (length g) Hclosed v (visited, []) Hk Hv
              (unvisited_le_length g visited)) as [[vis' comp] [Hrun Hpost]].
  exists vis', comp. split; [exact Hrun|].
  destruct Hpost as [new [A1 [A2 [A3 [A4 [A5 A6]]]]]]. cbn [fst snd app] in *.
  exists new. repeat split; auto; apply A2.
Qed.

(** A traversal from an unvisited vertex extends the components found so
    far by one more. *)
Lemma traversalPost_inv (g : adjList) (vis vis' comp : list jsstring)
    (comps : list (list jsstring)) (v : jsstring) :
  wfGraph g -> componentsInv g vis comps -> In v (adj_keys g) ->
  traversalPost g vis v vis' comp ->
  componentsInv g vis' (comps ++ [comp])
  /\ (forall x, In x comp <-> reach g v x).
Proof.
  intros [Hclosed Hsym] [I1 [I2 [I3 I4]]] Hk [new [-> [A2 [A3 [A4 [A5 A6]]]]]].
  assert (Hcat : forall x, In x (concat (comps ++ [v :: new])) <->
                           In x (concat comps) \/ In x (v :: new)).
  { intros x. rewrite concat_app, in_app_iff. cbn [concat].
    rewrite app_nil_r. tauto. }
  assert (Hcl : forall x y, In x (v :: new) -> edge g x y -> In y (v :: new)).
  { intros x y Hx Hxy. pose proof (A6 x y Hx Hxy) as Hy.
    apply A2 in Hy. destruct Hy as [Hy|Hy]; [|exact Hy].
    exfalso. apply (A4 x Hx). apply (I3 y x Hy). apply Hsym, Hxy. }
  split.
  - repeat split.
    + intros Hx. apply Hcat. apply A2 in Hx. rewrite <- I1. exact Hx.
    + intros Hx. apply A2. apply Hcat in Hx. rewrite I1. exact Hx.
    + rewrite concat_app. cbn [concat]. rewrite app_nil_r.
      apply NoDup_app; [exact I2|exact A3|].
      intros x Hx1 Hx2. apply (A4 x Hx2). apply I1. exact Hx1.
    + intros x y Hx Hxy. apply A2 in Hx. destruct Hx as [Hx|Hx].
      * apply A2. left. eapply I3; eassumption.
      * eapply A6; eassumption.
    + apply Forall_app. split; [exact I4|]. constructor; [|constructor].
      exists v, new. repeat split; auto.
  - intros x. split; [apply A5|].
    intros Hr. apply (closed_reach g (v :: new) v x Hcl); [left; reflexivity|exact Hr].
Qed.

Section TwoTraversals.

Variable g : adjList.
Hypothesis g_wf : wfGraph g.
Variables runA runB
  : list jsstring -> jsstring -> option (list jsstring * list jsstring).
Hypothesis runA_ok :
  forall vis v, In v (adj_keys g) -> ~ In v vis ->
    exists vis' comp, runA vis v = Some (vis', comp) /\ traversalPost g vis v vis' comp.
Hypothesis runB_ok :
  forall vis v, In v (adj_keys g) -> ~ In v vis ->
    exists vis' comp, runB vis v = Some (vis', comp) /\ traversalPost g vis v vis' comp.

(** Two traversals run over the same vertices find, one after the other,
    components with the same start and the same members. *)
Lemma stepWith_lockstep (ks : list jsstring) :
  (forall k, In k ks -> In k (adj_keys g)) ->
  forall visA compsA visB compsB,
    componentsInv g visA compsA -> componentsInv g visB compsB ->
    (forall x, In x visA <-> In x visB) ->
    Forall2 sameComponent compsA compsB ->
    exists visA' compsA' visB' compsB',
      fold_left (stepWith runA) ks (Some (visA, compsA)) = Some (visA', compsA')
      /\ fold_left (stepWith runB) ks (Some (visB, compsB)) = Some (visB', compsB')
      /\ componentsInv g visA' compsA' /\ componentsInv g visB' compsB'
      /\ (forall x, In x visA' <-> In x visB')
      /\ Forall2 sameComponent compsA' compsB'
      /\ (forall x, In x visA -> In x visA')
      /\ (forall k, In k ks -> In k visA').
Proof.
  induction ks as [|k ks IH]; intros Hks visA compsA visB compsB IA IB Hsame Hrel.
  - exists visA, compsA, visB, compsB. cbn.
    split; [reflexivity|]. split; [reflexivity|]. tauto.
  - assert (Hk : In k (adj_keys g)) by (apply Hks; left; reflexivity).
    assert (Hks' : forall x, In x ks -> In x (adj_keys g))
      by (intros x Hx; apply Hks; right; exact Hx).
    cbn [fold_left stepWith].
    destruct (set_has visA k) eqn:EA.
    + assert (EB : set_has visB k = true)
        by (apply set_has_In, Hsame, set_has_In, EA).
      rewrite EB.
      destruct (IH Hks' visA compsA visB compsB IA IB Hsame Hrel)
        as [vA [cA [vB [cB [R1 [R2 [R3 [R4 [R5 [R6 [R7 R8]]]]]]]]]]].
      exists vA, cA, vB, cB. repeat (split; [assumption|]).
      intros x [<-|Hx]; [|apply R8, Hx]. apply R7, set_has_In, EA.
    + assert (EB : set_has visB k = false).
      { apply set_has_false. intros H. apply Hsame in H.
        apply set_has_false in EA. contradiction. }
      rewrite EB. apply set_has_false in EA, EB.
      destruct (runA_ok visA k Hk EA) as [vA1 [cA1 [RunA PA]]].
      destruct (runB_ok visB k Hk EB) as [vB1 [cB1 [RunB PB]]].
      rewrite RunA, RunB.
      destruct (traversalPost_inv g visA vA1 cA1 compsA k g_wf IA Hk PA) as [IA1 MA].
      destruct (traversalPost_inv g visB vB1 cB1 compsB k g_wf IB Hk PB) as [IB1 MB].
      destruct PA as [newA [EcA [A2 [A3 _]]]].
      destruct PB as [newB [EcB [B2 [B3 _]]]].
      assert (Hmem : forall x, In x cA1 <-> In x cB1)
        by (intros x; rewrite MA, MB; tauto).
      destruct (IH Hks' vA1 (compsA ++ [cA1]) vB1 (compsB ++ [cB1]) IA1 IB1)
        as [vA [cA [vB [cB [R1 [R2 [R3 [R4 [R5 [R6 [R7 R8]]]]]]]]]]].
      * intros x. rewrite A2, B2, Hsame. rewrite <- EcA, <- EcB, Hmem. tauto.
      * apply Forall2_app; [exact Hrel|]. constructor; [|constructor].
        split; [subst; reflexivity|].
        apply NoDup_Permutation; [subst; exact A3|subst; exact B3|exact Hmem].
      * exists vA, cA, vB, cB. repeat (split; [assumption|]). split.
        -- intros x Hx. apply R7, A2. left. exact Hx.
        -- intros x [<-|Hx]; [|apply R8, Hx]. apply R7, A2. right. left. reflexivity.
Qed.

End TwoTraversals.

(** X21. The breadth-first variant finds the components of the depth-first
    one: both return, with as many components, and the components at the
    same position start at the same vertex and have the same members. *)
Theorem findConnectedComponentsBFS_same (g : adjList) :
  wfGraph g ->
  exists dfsComponents bfsComponents,
    findConnectedComponents g = Some dfsComponents
    /\ findConnectedComponentsBFS g = Some bfsComponents
    /\ Forall2 sameComponent dfsComponents bfsComponents.
Proof.
  intros Hwf. pose proof Hwf as [Hclosed _].
  destruct (stepWith_lockstep g Hwf
              (fun vis v => dfs (length g) g v (vis, [])) (bfs g)
              (fun vis v => dfs_traversalPost g vis v Hclosed)
              (fun vis v => bfs_spec g vis v Hclosed)
              (adj_keys g) (fun k H => H) [] [] [] [])
    as [vA [cA [vB [cB [R1 [R2 [_ [_ [_ [R6 _]]]]]]]]]].
  - repeat split; cbn; try tauto; constructor.
  - repeat split; cbn; try tauto; constructor.
  - tauto.
  - constructor.
  - exists cA, cB. unfold findConnectedComponents, findConnectedComponentsBFS.
    change (componentStep g)
      with (stepWith (fun vis v => dfs (length g) g v (vis, []))).
    change (componentStepBFS g) with (stepWith (bfs g)).
    rewrite R1, R2. auto.
Qed.

(** The graph of the example data at threshold 35 is well formed. *)
Lemma findConnectedComponentsBFS_same_witness :
  exists dfsComponents bfsComponents,
    findConnectedComponents (buildGraph abcd_documents abcd_similarities 35)
    = Some dfsComponents
    /\ findConnectedComponentsBFS (buildGraph abcd_documents abcd_similarities 35)
       = Some bfsComponents
    /\ Forall2 sameComponent dfsComponents bfsComponents.
Proof.
  apply findConnectedComponentsBFS_same. apply buildGraph_wf.
Defined.

(** ** The graph data and the worker *)

Lemma findIndexFrom_spec {A : Type} (p : A -> bool) (l : list A) (i : Z) :
  (findIndexFrom p l i = (-1)%Z /\ forall x, In x l -> p x = false)
  \/ exists k c,
       nth_error l k = Some c /\ p c = true
       /\ (forall j c', j < k -> nth_error l j = Some c' -> p c' = false)
       /\ findIndexFrom p l i = (i + Z.of_nat k)%Z.
Proof.
  revert i. induction l as [|x l IH]; intros i.
  - left. split; [reflexivity|]. intros x [].
  - cbn [findIndexFrom]. destruct (p x) eqn:Ex.
    + right. exists 0, x. repeat split; auto; [lia|lia].
    + destruct (IH (i + 1)%Z) as [[E Hall]|[k [c [Hk [Hc [Hbefore E]]]]]].
      * left. split; [exact E|]. intros y [<-|Hy]; auto.
      * right. exists (S k), c. repeat split; auto; [|lia].
        intros [|j] c' Hj Hc'; cbn in Hc'.
        -- injection Hc' as <-. exact Ex.
        -- apply (Hbefore j c'); [lia|exact Hc'].
Qed.

Lemma mapi_from_Forall2 {A B : Type} (f : nat -> A -> B) (l : list A) (start : nat) :
  Forall2 (fun x y => exists i, y = f i x) l (mapi_from f start l).
Proof.
  revert start. induction l as [|x l IH]; intros start; cbn; constructor.
  - exists start. reflexivity.
  - apply IH.
Qed.

Lemma mapi_from_map_Forall2 {A B C : Type} (f : nat -> B -> C) (h : A -> B)
    (l : list A) (start : nat) :
  Forall2 (fun x y => exists i, y = f i (h x)) l (mapi_from f start (map h l)).
Proof.
  revert start. induction l as [|x l IH]; intros start; cbn; constructor.
  - exists start. reflexivity.
  - apply IH.
Qed.

(** What [createGraphData] writes into the node of a document. *)
Lemma toNode_cluster {coord : Type} (circleX circleY : nat -> nat -> coord)
    (count : nat) (clusters : list Cluster) (index : nat) (doc : DocRef) :
  (node_cluster (toNode circleX circleY count clusters index doc) = (-1)%Z
   /\ node_z (toNode circleX circleY count clusters index doc) = 0%Z
   /\ forall c, In c clusters -> ~ In (ref_id doc) (cluster_documents c))
  \/ exists k c,
       nth_error clusters k = Some c
       /\ In (ref_id doc) (cluster_documents c)
       /\ (forall j c', j < k -> nth_error clusters j = Some c' ->
                        ~ In (ref_id doc) (cluster_documents c'))
       /\ node_cluster (toNode circleX circleY count clusters index doc) = Z.of_nat k
       /\ node_z (toNode circleX circleY count clusters index doc)
          = (2 * Z.of_nat k)%Z.
Proof.
  cbn [toNode node_cluster node_z]. unfold clusterIndexOf.
  destruct (findIndexFrom_spec
              (fun c => includes (cluster_documents c) (ref_id doc)) clusters 0)
    as [[E Hall]|[k [c [Hk [Hc [Hbefore E]]]]]]; rewrite E.
  - left. cbn. repeat split. intros c Hc. apply set_has_false. apply (Hall c Hc).
  - right. exists k, c. cbn [Z.add].
    destruct (Z.leb_spec 0 (Z.of_nat k)); [|lia].
    repeat split; auto.
    + apply set_has_In, Hc.
    + intros j c' Hj Hc'. apply set_has_false. apply (Hbefore j c' Hj Hc').
    + lia.
Qed.

(** X22. [createGraphData] makes one node per document, in order, with the
    document's identifier and name. A document that no cluster lists gets
    cluster -1 and height 0; any other gets the position [k] of the first
    cluster that lists it, and height [2 k]. *)
Theorem createGraphData_nodes {coord : Type} (circleX circleY : nat -> nat -> coord)
    (documents : list DocRef) (similarities : list SimilarityResult)
    (clusters : list Cluster) :
  Forall2
    (fun doc node =>
       node_id node = ref_id doc /\ node_name node = ref_name doc
       /\ ((node_cluster node = (-1)%Z /\ node_z node = 0%Z
            /\ forall c, In c clusters -> ~ In (ref_id doc) (cluster_documents c))
           \/ exists k c,
                nth_error clusters k = Some c
                /\ In (ref_id doc) (cluster_documents c)
                /\ (forall j c', j < k -> nth_error clusters j = Some c' ->
                                 ~ In (ref_id doc) (cluster_documents c'))
                /\ node_cluster node = Z.of_nat k
                /\ node_z node = (2 * Z.of_nat k)%Z))
    documents
    (fst (createGraphData circleX circleY documents similarities clusters)).
Proof.
  cbn [createGraphData fst].
  eapply Forall2_impl; [|apply mapi_from_Forall2].
  intros doc node [i ->]. split; [reflexivity|]. split; [reflexivity|].
  apply toNode_cluster.
Qed.

Lemma graphEdges_In (similarities : list SimilarityResult) (e : GraphEdge) :
  In e (graphEdges similarities) <->
  exists s, In s similarities /\ qualifies 35 s
            /\ e = mkGraphEdge (doc1Id s) (doc2Id s) (similarity s).
Proof.
  unfold graphEdges. rewrite in_map_iff. split.
  - intros [s [<- Hs]]. apply filter_In in Hs. destruct Hs as [Hs Hq].
    exists s. auto.
  - intros [s [Hs [Hq ->]]]. exists s. split; [reflexivity|].
    apply filter_In. auto.
Qed.

(** X23. The edges of the graph data are the links of the clustering at
    threshold 35: two identifiers are joined by an edge, in one direction or
    the other, exactly when they are neighbours in the graph [createClusters]
    builds for threshold 35; and no edge has a similarity below 35. *)
Theorem createGraphData_edges {coord : Type} (circleX circleY : nat -> nat -> coord)
    (documents : list DocRef) (similarities : list SimilarityResult)
    (clusters : list Cluster) :
  (forall x y,
     (exists e,
        In e (snd (createGraphData circleX circleY documents similarities clusters))
        /\ ((x = edge_source e /\ y = edge_target e)
            \/ (x = edge_target e /\ y = edge_source e)))
     <-> edge (buildGraph documents similarities 35) x y)
  /\ Forall (fun e => (35 <= edge_similarity e)%Q)
       (snd (createGraphData circleX circleY documents similarities clusters)).
Proof.
  cbn [createGraphData snd]. split.
  - intros x y. rewrite buildGraph_edge. split.
    + intros [e [He Hxy]]. apply graphEdges_In in He.
      destruct He as [s [Hs [Hq ->]]]. exists s. cbn in Hxy. auto.
    + intros [s [Hs [Hq Hxy]]].
      exists (mkGraphEdge (doc1Id s) (doc2Id s) (similarity s)).
      split; [apply graphEdges_In; exists s; auto|exact Hxy].
  - apply Forall_forall. intros e He. apply graphEdges_In in He.
    destruct He as [s [_ [Hq ->]]]. apply Qle_bool_iff, Hq.
Qed.

(** The identifiers and the similarity of a result. *)
Lemma computeAllSimilarities_result (documents : list Document) (r : SimilarityResult) :
  In r (computeAllSimilarities documents) ->
  In (doc1Id r) (map doc_id documents) /\ In (doc2Id r) (map doc_id documents)
  /\ (0 <= similarity r <= 100)%Q.
Proof.
  intros Hr.
  destruct (computeAllSimilarities_In documents r Hr)
    as [i [j [di [dj [Hij [Hi [Hj ->]]]]]]].
  destruct (pairResult_fields documents i j di dj Hi Hj)
    as [F1 [F2 [F3 [F4 [F5 [F6 F7]]]]]].
  pose proof (commonCount_le_avgWords (doc_content di) (doc_content dj)) as Hle.
  split; [|split].
  - unfold pairResult. cbn [doc1Id]. rewrite (docAt_nth_error _ _ _ Hi).
    apply in_map. eapply nth_error_In, Hi.
  - unfold pairResult. cbn [doc2Id]. rewrite (docAt_nth_error _ _ _ Hj).
    apply in_map. eapply nth_error_In, Hj.
  - rewrite F5. pose proof (ratio_range _ _ Hle ltac:(lia)) as H. lra.
Qed.

Lemma map_toDocRef (documents : list Document) :
  map ref_id (map toDocRef documents) = map doc_id documents.
Proof. rewrite map_map. reflexivity. Qed.

Lemma reach_key (g : adjList) (x y : jsstring) :
  (forall a b, edge g a b -> In b (adj_keys g)) ->
  In x (adj_keys g) -> reach g x y -> In y (adj_keys g).
Proof.
  intros Hclosed Hx. induction 1 as [|u w Hr IH He]; [exact Hx|].
  eapply Hclosed, He.
Qed.

(** The worker returns, and this is what it returns. *)
Lemma analysisWorker_returns {coord : Type} (circleX circleY : nat -> nat -> coord)
    (documents : list Document) :
  exists clusters,
    createClusters (map toDocRef documents) (computeAllSimilarities documents) 35
    = Some clusters
    /\ analysisWorker circleX circleY documents
       = Some (computeAllSimilarities documents, clusters,
               createGraphData circleX circleY (map toDocRef documents)
                 (computeAllSimilarities documents) clusters).
Proof.
  destruct (createClusters_members (map toDocRef documents)
              (computeAllSimilarities documents) 35) as [cs [Hcs _]].
  exists cs. split; [exact Hcs|]. unfold analysisWorker. rewrite Hcs. reflexivity.
Qed.

(** X24. The computation of the worker yields a result. Each of its clusters lists at least two
    identifiers, all different and all of posted documents, no identifier is
    listed by two clusters, and the average similarity of a cluster lies
    between 0 and 100. *)
Theorem analysisWorker_clusters {coord : Type} (circleX circleY : nat -> nat -> coord)
    (documents : list Document) :
  exists similarities clusters graph,
    analysisWorker circleX circleY documents = Some (similarities, clusters, graph)
    /\ NoDup (concat (map cluster_documents clusters))
    /\ Forall
         (fun c =>
            2 <= length (cluster_documents c)
            /\ (forall x, In x (cluster_documents c) -> In x (map doc_id documents))
            /\ (0 <= avgSimilarity c <= 100)%Q)
         clusters.
Proof.
  destruct (analysisWorker_returns circleX circleY documents) as [cs [Hcs Hrun]].
  exists (computeAllSimilarities documents), cs. eexists. split; [exact Hrun|].
  set (sims := computeAllSimilarities documents) in *.
  set (docs := map toDocRef documents) in *.
  destruct (createClusters_members docs sims 35) as [cs' [Hcs' [Hgood _]]].
  rewrite Hcs in Hcs'. injection Hcs' as <-.
  destruct (createClusters_components docs sims 35)
    as [comps [cs' [_ [Hcs' [Hdocs [_ [Hnd _]]]]]]].
  rewrite Hcs in Hcs'. injection Hcs' as <-.
  split.
  - rewrite Hdocs. apply NoDup_concat_filter, Hnd.
  - apply Forall_forall. intros c Hc.
    destruct (Hgood c Hc) as [_ [Hlen [h [t [E [Hh [Hreach _]]]]]]].
    split; [exact Hlen|]. split.
    + intros x Hx.
      pose proof (buildGraph_wf docs sims 35) as [Hclosed _].
      pose proof (reach_key _ h x Hclosed Hh (Hreach x Hx)) as Hk.
      apply buildGraph_keys in Hk. destruct Hk as [[d [Hd <-]]|[s [Hs [_ Hends]]]].
      * rewrite <- map_toDocRef. apply in_map, Hd.
      * destruct (computeAllSimilarities_result documents s Hs) as [H1 [H2 _]].
        destruct Hends as [->| ->]; assumption.
    + destruct (avgSimilarity_between docs sims 35) as [cs' [Hcs' Havg]].
      rewrite Hcs in Hcs'. injection Hcs' as <-.
      destruct (Havg c Hc) as [lo [hi [Hlo [Hhi [_ [_ [_ [_ Hbetween]]]]]]]].
      destruct (computeAllSimilarities_result documents lo Hlo) as [_ [_ Rlo]].
      destruct (computeAllSimilarities_result documents hi Hhi) as [_ [_ Rhi]].
      lra.
Qed.

Lemma nth_error_cluster_id (cs : list Cluster) (k : nat) (c : Cluster) :
  map cluster_id cs = seq 0 (length cs) -> nth_error cs k = Some c ->
  cluster_id c = k.
Proof.
  intros Hids Hk.
  assert (H : nth_error (map cluster_id cs) k = Some (cluster_id c))
    by (rewrite nth_error_map, Hk; reflexivity).
  rewrite Hids in H.
  assert (Hlt : k < length cs) by (apply nth_error_Some; congruence).
  rewrite nth_error_nth' with (d := 0) in H by (rewrite length_seq; exact Hlt).
  rewrite seq_nth in H by exact Hlt. injection H as H. cbn in H. auto.
Qed.

(** X25. In the worker's graph data the cluster number of a node is the [id]
    of the cluster that lists the document, and -1 when no cluster does; the
    height is twice the cluster number, and 0 for an unclustered node. *)
Theorem analysisWorker_nodes {coord : Type} (circleX circleY : nat -> nat -> coord)
    (documents : list Document) :
  exists similarities clusters nodes edges,
    analysisWorker circleX circleY documents
    = Some (similarities, clusters, (nodes, edges))
    /\ Forall2
         (fun doc node =>
            node_id node = doc_id doc /\ node_name node = doc_name doc
            /\ ((node_cluster node = (-1)%Z /\ node_z node = 0%Z
                 /\ forall c, In c clusters -> ~ In (doc_id doc) (cluster_documents c))
                \/ exists c,
                     In c clusters /\ In (doc_id doc) (cluster_documents c)
                     /\ node_cluster node = Z.of_nat (cluster_id c)
                     /\ node_z node = (2 * Z.of_nat (cluster_id c))%Z))
         documents nodes.
Proof.
  destruct (analysisWorker_returns circleX circleY documents) as [cs [Hcs Hrun]].
  unfold createGraphData in Hrun.
  exists (computeAllSimilarities documents), cs. do 2 eexists.
  split; [exact Hrun|].
  destruct (createClusters_components (map toDocRef documents)
              (computeAllSimilarities documents) 35)
    as [comps [cs' [_ [Hcs' [_ [Hids _]]]]]].
  rewrite Hcs in Hcs'. injection Hcs' as <-.
  eapply Forall2_impl; [|apply mapi_from_map_Forall2].
  intros doc node [i ->]. split; [reflexivity|]. split; [reflexivity|].
  destruct (toNode_cluster circleX circleY (length (map toDocRef documents)) cs i
              (toDocRef doc)) as [Hnone|[k [c [Hk [Hin [_ [E1 E2]]]]]]].
  - left. exact Hnone.
  - right. exists c. rewrite (nth_error_cluster_id cs k c Hids Hk).
    split; [eapply nth_error_In, Hk|]. auto.
Qed.

(** X26. Every edge of the worker's graph data joins the identifiers of two
    posted documents with a similarity between 35 and 100, and when the two
    identifiers differ, one cluster lists them both. *)
Theorem analysisWorker_edges {coord : Type} (circleX circleY : nat -> nat -> coord)
    (documents : list Document) :
  exists similarities clusters nodes edges,
    analysisWorker circleX circleY documents
    = Some (similarities, clusters, (nodes, edges))
    /\ Forall
         (fun e =>
            In (edge_source e) (map doc_id documents)
            /\ In (edge_target e) (map doc_id documents)
            /\ (35 <= edge_similarity e <= 100)%Q
            /\ (edge_source e <> edge_target e ->
                exists c, In c clusters
                          /\ In (edge_source e) (cluster_documents c)
                          /\ In (edge_target e) (cluster_documents c)))
         edges.
Proof.
  destruct (analysisWorker_returns circleX circleY documents) as [cs [Hcs Hrun]].
  unfold createGraphData in Hrun.
  exists (computeAllSimilarities documents), cs. do 2 eexists.
  split; [exact Hrun|].
  apply Forall_forall. intros e He. apply graphEdges_In in He.
  destruct He as [s [Hs [Hq ->]]]. cbn [edge_source edge_target edge_similarity].
  destruct (computeAllSimilarities_result documents s Hs) as [H1 [H2 [_ H100]]].
  split; [exact H1|]. split; [exact H2|]. split.
  - split; [apply Qle_bool_iff, Hq|exact H100].
  - intros Hne.
    apply (linked_same_cluster (map toDocRef documents)
             (computeAllSimilarities documents) 35 cs (doc1Id s) (doc2Id s) Hcs).
    + exists s. auto.
    + congruence.
Qed.

(** ** preprocessText *)

Lemma split_go_Forall (P : Z -> Prop) (s : jsstring) :
  Forall (fun c => isWhiteSpace c = false -> P c) s ->
  forall cur b, Forall P cur -> Forall (Forall P) (split_go s cur b).
Proof.
  induction 1 as [|c s Hc Hs IH]; intros cur b Hcur.
  - cbn. constructor; [exact Hcur|constructor].
  - cbn [split_go]. destruct (isWhiteSpace c) eqn:Ec.
    + destruct b; [apply IH, Hcur|].
      constructor; [exact Hcur|apply IH; constructor].
    + apply IH. apply Forall_app. split; [exact Hcur|].
      constructor; [apply Hc, eq_refl|constructor].
Qed.

Lemma isWordChar_not_space (c : Z) : isWordChar c = true -> isWhiteSpace c = false.
Proof.
  intros Hw. destruct (isWhiteSpace c) eqn:E; [|reflexivity].
  unfold isWhiteSpace in E. apply existsb_exists in E.
  destruct E as [x [Hin Hx]]. apply Z.eqb_eq in Hx. subst x.
  cbn [In] in Hin.
  repeat (destruct Hin as [<-|Hin]; [discriminate Hw|]). destruct Hin.
Qed.

Lemma replacePunctuation_chars (text : jsstring) :
  Forall (fun c => isWhiteSpace c = false -> isWordChar c = true)
    (replacePunctuation text).
Proof.
  unfold replacePunctuation. apply Forall_forall. intros c Hc.
  apply in_map_iff in Hc. destruct Hc as [x [<- _]].
  destruct (isWordChar x) eqn:Ew; cbn [orb]; [auto|].
  destruct (isWhiteSpace x) eqn:Es; [congruence|]. discriminate.
Qed.

(** A word: not empty and free of white space. *)
Lemma split_go_word (w rest cur : jsstring) (b : bool) :
  w <> [] -> Forall (fun c => isWhiteSpace c = false) w ->
  split_go (w ++ rest) cur b = split_go rest (cur ++ w) false.
Proof.
  intros Hne Hw. revert cur b Hne.
  induction Hw as [|c w Hc Hw IH]; intros cur b Hne; [congruence|].
  cbn [app split_go]. rewrite Hc.
  destruct w as [|c' w'].
  - reflexivity.
  - rewrite IH by discriminate. rewrite <- app_assoc. reflexivity.
Qed.

(** Splitting the single-space join of words gives the words back. *)
Lemma split_go_join (ws : list jsstring) :
  Forall (fun w => w <> [] /\ Forall (fun c => isWhiteSpace c = false) w) ws ->
  forall w0 cur b,
    w0 <> [] -> Forall (fun c => isWhiteSpace c = false) w0 ->
    split_go (join space (w0 :: ws)) cur b = (cur ++ w0) :: ws.
Proof.
  induction 1 as [|w ws [Hne Hw] Hws IH]; intros w0 cur b Hne0 Hw0.
  - cbn [join]. rewrite <- (app_nil_r w0) at 1.
    rewrite split_go_word by assumption. reflexivity.
  - change (join space (w0 :: w :: ws)) with (w0 ++ space ++ join space (w :: ws)).
    rewrite split_go_word by assumption.
    unfold space. cbn [app split_go].
    change (isWhiteSpace 32) with true. cbn iota.
    change [32%Z] with space.
    rewrite (IH w [] true Hne Hw). reflexivity.
Qed.

Lemma split_ws_join (ws : list jsstring) :
  ws <> [] ->
  Forall (fun w => w <> [] /\ Forall (fun c => isWhiteSpace c = false) w) ws ->
  split_ws (join space ws) = ws.
Proof.
  intros Hne Hws. destruct ws as [|w0 ws]; [congruence|].
  apply Forall_cons_iff in Hws. destruct Hws as [[Hne0 Hw0] Hrest].
  exact (split_go_join ws Hrest w0 [] false Hne0 Hw0).
Qed.

Section PreprocessProofs.

Variable toLowerCase : jsstring -> jsstring.

(** The words [preprocessText] keeps. *)
Lemma preprocessText_kept (text : jsstring) :
  exists kept,
    preprocessText toLowerCase text = join space kept
    /\ Forall (fun w => 2 < length w /\ ~ In w STOPWORDS
                        /\ Forall (fun c => isWordChar c = true) w) kept.
Proof.
  destruct text as [|c0 text0]; [exists []; split; [reflexivity|constructor]|].
  unfold preprocessText.
  eexists. split; [reflexivity|].
  apply Forall_forall. intros w Hw. apply filter_In in Hw. destruct Hw as [Hin Hkeep].
  unfold keepWord in Hkeep. apply andb_true_iff in Hkeep. destruct Hkeep as [Hlen Hstop].
  apply Nat.ltb_lt in Hlen. apply negb_true_iff, set_has_false in Hstop.
  split; [exact Hlen|]. split; [exact Hstop|].
  unfold split_ws in Hin.
  match type of Hin with
  | In _ ?l => assert (H : Forall (Forall (fun c => isWordChar c = true)) l)
  end.
  { apply split_go_Forall; [apply replacePunctuation_chars|constructor]. }
  rewrite Forall_forall in H. apply H, Hin.
Qed.

Lemma kept_words (kept : list jsstring) :
  Forall (fun w => 2 < length w /\ ~ In w STOPWORDS
                   /\ Forall (fun c => isWordChar c = true) w) kept ->
  Forall (fun w => w <> [] /\ Forall (fun c => isWhiteSpace c = false) w) kept.
Proof.
  intros H. eapply Forall_impl; [|exact H]. cbn beta.
  intros w [Hlen [_ Hw]]. split.
  - intros ->. cbn in Hlen. lia.
  - eapply Forall_impl; [|exact Hw]. apply isWordChar_not_space.
Qed.

(** The words of the output, as [split] and [filter(Boolean)] find them,
    are the words that were kept. *)
Lemma preprocessText_split (text : jsstring) :
  exists kept,
    preprocessText toLowerCase text = join space kept
    /\ Forall (fun w => 2 < length w /\ ~ In w STOPWORDS
                        /\ Forall (fun c => isWordChar c = true) w) kept
    /\ filter nonEmpty (split_ws (preprocessText toLowerCase text)) = kept
    /\ (kept = [] -> split_ws (preprocessText toLowerCase text) = [[]])
    /\ (kept <> [] -> split_ws (preprocessText toLowerCase text) = kept).
Proof.
  destruct (preprocessText_kept text) as [kept [E Hkept]].
  exists kept. split; [exact E|]. split; [exact Hkept|].
  pose proof (kept_words kept Hkept) as Hw. rewrite E.
  destruct kept as [|w0 kept'].
  - cbn. repeat split; congruence.
  - rewrite (split_ws_join (w0 :: kept')) by (congruence || exact Hw).
    split; [|split; congruence].
    apply filter_all. eapply Forall_impl; [|exact Hw].
    intros w [Hne _]. destruct w; [congruence|reflexivity].
Qed.

(** The stop words at the time [preprocessText] runs. *)
Lemma STOPWORDS_In (w : jsstring) :
  In w STOPWORDS_initial \/ In w PDF_TOKENS -> In w STOPWORDS.
Proof.
  intros H. unfold STOPWORDS.
  apply (proj2 (fold_set_add_In PDF_TOKENS (mkSet STOPWORDS_initial) w)).
  destruct H as [H|H]; [left|right; exact H].
  apply (proj2 (mkSet_In STOPWORDS_initial w)), H.
Qed.

(** X27. The output of [preprocessText] is the join, by single spaces, of its
    own words; every word has more than two code units, all of them of the
    class \w, and is none of the stop words, to which the PDF tokens
    belong. *)
Theorem preprocessText_words (text : jsstring) :
  let output := preprocessText toLowerCase text in
  let words := filter nonEmpty (split_ws output) in
  output = join space words
  /\ wordCount output = length words
  /\ Forall
       (fun w =>
          2 < length w
          /\ ~ In w STOPWORDS_initial /\ ~ In w PDF_TOKENS
          /\ Forall (fun c => isWordChar c = true) w)
       words.
Proof.
  intros output words. subst words output.
  destruct (preprocessText_split text) as [kept [E [Hkept [Hsplit _]]]].
  unfold wordCount. rewrite Hsplit.
  split; [exact E|]. split; [reflexivity|].
  apply Forall_forall. intros w Hw.
  rewrite Forall_forall in Hkept. destruct (Hkept w Hw) as [Hlen [Hstop Hword]].
  split; [exact Hlen|].
  split; [|split; [|exact Hword]]; intros Hin; apply Hstop, STOPWORDS_In.
  - left. exact Hin.
  - right. exact Hin.
Qed.

(** X28. On preprocessed text [createShingles] with [k >= 2] returns the
    windows of [k] consecutive words, [wordCount - k + 1] of them and none
    when there are fewer than [k] words. *)
Theorem preprocessText_createShingles (text : jsstring) (k : nat) :
  let output := preprocessText toLowerCase text in
  let words := filter nonEmpty (split_ws output) in
  createShingles output (k + 2)
  = map (fun i => join space (slice words i (i + (k + 2))))
      (seq 0 (length words - (k + 1)))
  /\ length (createShingles output (k + 2)) = wordCount output - (k + 1).
Proof.
  intros output words. subst words output.
  destruct (preprocessText_split text) as [kept [E [Hkept [Hsplit [Hnil Hcons]]]]].
  assert (H : createShingles (preprocessText toLowerCase text) (k + 2)
              = map (fun i => join space (slice kept i (i + (k + 2))))
                  (seq 0 (length kept - (k + 1)))).
  { rewrite createShingles_windows. destruct kept as [|w0 kept'].
    - rewrite (Hnil eq_refl). cbn [length].
      replace (1 + 1 - (k + 2)) with 0 by lia. reflexivity.
    - rewrite Hcons by discriminate.
      replace (length (w0 :: kept') + 1 - (k + 2))
        with (length (w0 :: kept') - (k + 1)) by lia.
      reflexivity. }
  rewrite Hsplit. split; [exact H|].
  rewrite H, length_map, length_seq. unfold wordCount. rewrite Hsplit. reflexivity.
Qed.

End PreprocessProofs.

(** ** The page: preprocessing followed by the analysis *)

Lemma preprocessText_shingle_count (toLowerCase : jsstring -> jsstring)
    (text : jsstring) :
  length (createShingles (preprocessText toLowerCase text) 3)
  = wordCount (preprocessText toLowerCase text) - 2.
Proof.
  destruct (preprocessText_split toLowerCase text)
    as [kept [E [Hkept [Hsplit [Hnil Hcons]]]]].
  rewrite createShingles_length. unfold wordCount. rewrite Hsplit.
  destruct kept as [|w0 kept'].
  - rewrite (Hnil eq_refl). reflexivity.
  - rewrite Hcons by discriminate. cbn [length]. lia.
Qed.

(** X30. On the page, where every file is preprocessed before the analysis,
    two documents share at most [avgWords - 2] shingles, so no result
    reaches a similarity of 100, whatever the files are. *)
Theorem handleFilesProcessed_below_100 {coord : Type}
    (circleX circleY : nat -> nat -> coord)
    (toLowerCase : jsstring -> jsstring) (files : list Document) :
  exists similarities clusters graph,
    handleFilesProcessed circleX circleY toLowerCase files
    = Some (similarities, clusters, graph)
    /\ Forall
         (fun r =>
            (rawMatchCount r = 0 \/ rawMatchCount r + 2 <= avgWords r)
            /\ (similarity r < 100)%Q)
         similarities.
Proof.
  unfold handleFilesProcessed.
  set (docs := map (preprocessDocument toLowerCase) files).
  destruct (analysisWorker_returns circleX circleY docs) as [cs [Hcs Hrun]].
  exists (computeAllSimilarities docs), cs. eexists. split; [exact Hrun|].
  apply Forall_forall. intros r Hr.
  destruct (computeAllSimilarities_In docs r Hr)
    as [i [j [di [dj [Hij [Hi [Hj ->]]]]]]].
  destruct (pairResult_fields docs i j di dj Hi Hj)
    as [_ [_ [F3 [F4 [F5 _]]]]].
  rewrite F3, F4, F5.
  assert (Hpre : forall k d, nth_error docs k = Some d ->
            length (createShingles (doc_content d) 3) = wordCount (doc_content d) - 2).
  { intros k d Hk. apply nth_error_In in Hk. unfold docs in Hk.
    apply in_map_iff in Hk. destruct Hk as [f [<- _]].
    apply preprocessText_shingle_count. }
  pose proof (countCommon_le_l (createShingles (doc_content di) 3)
                (createShingles (doc_content dj) 3)) as H1.
  pose proof (countCommon_le_r (createShingles (doc_content di) 3)
                (createShingles (doc_content dj) 3)) as H2.
  rewrite (Hpre i di Hi) in H1. rewrite (Hpre j dj Hj) in H2.
  set (c := countCommon _ _) in *.
  set (w1 := wordCount (doc_content di)) in *.
  set (w2 := wordCount (doc_content dj)) in *.
  assert (Hc : c = 0 \/ c + 2 <= Nat.max 1 ((w1 + w2) / 2)).
  { destruct c as [|c']; [left; reflexivity|right].
    assert (S c' + 2 <= (w1 + w2) / 2) by (apply Nat.div_le_lower_bound; lia).
    lia. }
  split; [exact Hc|].
  set (avg := Nat.max 1 ((w1 + w2) / 2)) in *.
  assert (Havg : 1 <= avg) by (unfold avg; lia).
  assert (Hlt : (QofNat c / QofNat avg < 1)%Q).
  { apply Qlt_shift_div_r; [apply QofNat_pos, Havg|].
    rewrite Qmult_1_l. unfold QofNat. rewrite <- Zlt_Qlt. lia. }
  lra.
Qed.

(** ** The PDF branch of preprocessText *)

(** No token is empty or contains a space. *)
Lemma PDF_TOKENS_letters :
  Forall (fun t => t <> [] /\ Forall (fun p => canonicalize p <> 32%Z) t) PDF_TOKENS.
Proof.
  apply Forall_forall. intros t Ht.
  assert (H : forallb (fun t => negb (length t =? 0)
                                && forallb (fun p => negb (canonicalize p =? 32)%Z) t)
                PDF_TOKENS = true) by (vm_compute; reflexivity).
  rewrite forallb_forall in H. specialize (H t Ht).
  apply andb_true_iff in H. destruct H as [H1 H2]. split.
  - intros ->. discriminate H1.
  - apply Forall_forall. intros p Hp. rewrite forallb_forall in H2.
    specialize (H2 p Hp). apply negb_true_iff, Z.eqb_neq in H2. exact H2.
Qed.

Lemma firstToken_None (tokens : list jsstring) (text : jsstring) :
  firstToken tokens text = None <->
  existsb (fun l => matchesAt l text) tokens = false.
Proof.
  induction tokens as [|t rest IH]; cbn; [tauto|].
  destruct (matchesAt t text); cbn; [split; discriminate|exact IH].
Qed.

(** A literal of letters that matches in the replaced text matched in the
    text. *)
Lemma matchesAt_replaceTokens (literal : jsstring) :
  Forall (fun p => canonicalize p <> 32%Z) literal ->
  forall text,
    matchesAt literal (replaceTokens 0 text) = true -> matchesAt literal text = true.
Proof.
  induction 1 as [|p literal Hp Hl IH]; intros text; [destruct text; reflexivity|].
  destruct text as [|c rest]; [cbn; discriminate|].
  cbn [replaceTokens].
  destruct (firstToken PDF_TOKENS (c :: rest)) as [token|].
  - cbn [matchesAt]. change (canonicalize 32) with 32%Z.
    destruct (Z.eqb_spec (canonicalize p) 32); [contradiction|discriminate].
  - cbn [matchesAt]. intros H. apply andb_true_iff in H. destruct H as [H1 H2].
    rewrite H1, (IH rest H2). reflexivity.
Qed.

Lemma existsb_matchesAt_space (tokens : list jsstring) (text : jsstring) :
  Forall (fun t => t <> [] /\ Forall (fun p => canonicalize p <> 32%Z) t) tokens ->
  existsb (fun l => matchesAt l (32%Z :: text)) tokens = false.
Proof.
  induction 1 as [|t tokens [Hne Ht] _ IH]; [reflexivity|].
  cbn [existsb]. rewrite IH, orb_false_r.
  destruct t as [|p t']; [congruence|]. cbn [matchesAt].
  apply Forall_cons_iff in Ht. destruct Ht as [Hp _].
  change (canonicalize 32) with 32%Z.
  destruct (Z.eqb_spec (canonicalize p) 32); [contradiction|reflexivity].
Qed.

Lemma existsb_matchesAt_nil (tokens : list jsstring) :
  Forall (fun t => t <> [] /\ Forall (fun p => canonicalize p <> 32%Z) t) tokens ->
  existsb (fun l => matchesAt l []) tokens = false.
Proof.
  induction 1 as [|t tokens [Hne Ht] _ IH]; [reflexivity|].
  cbn [existsb]. rewrite IH, orb_false_r.
  destruct t as [|p t']; [congruence|reflexivity].
Qed.

Lemma testAny_cons (literals : list jsstring) (c : Z) (text : jsstring) :
  testAny literals (c :: text)
  = existsb (fun l => matchesAt l (c :: text)) literals || testAny literals text.
Proof. reflexivity. Qed.

Lemma replaceTokens_clean (text : jsstring) (skip : nat) :
  testAny PDF_TOKENS (replaceTokens skip text) = false.
Proof.
  pose proof PDF_TOKENS_letters as Hlet.
  revert skip. induction text as [|c rest IH]; intros skip.
  - assert (E : replaceTokens skip [] = []) by (destruct skip; reflexivity).
    rewrite E. unfold testAny.
    rewrite (existsb_matchesAt_nil _ Hlet). reflexivity.
  - cbn [replaceTokens]. destruct skip as [|skip']; [|apply IH].
    destruct (firstToken PDF_TOKENS (c :: rest)) as [token|] eqn:E.
    + rewrite testAny_cons, (existsb_matchesAt_space _ _ Hlet), IH. reflexivity.
    + rewrite testAny_cons, IH, orb_false_r.
      apply firstToken_None in E.
      destruct (existsb (fun l => matchesAt l (c :: replaceTokens 0 rest)) PDF_TOKENS)
        eqn:Ex; [|reflexivity].
      apply existsb_exists in Ex. destruct Ex as [t [Ht Hm]].
      rewrite Forall_forall in Hlet. destruct (Hlet t Ht) as [Hne Hp].
      destruct t as [|p t']; [congruence|].
      apply Forall_cons_iff in Hp. destruct Hp as [_ Hp'].
      cbn [matchesAt] in Hm. apply andb_true_iff in Hm. destruct Hm as [Hm1 Hm2].
      apply (matchesAt_replaceTokens t' Hp') in Hm2.
      assert (Hall : existsb (fun l => matchesAt l (c :: rest)) PDF_TOKENS = true).
      { apply existsb_exists. exists (p :: t'). split; [exact Ht|].
        cbn [matchesAt]. rewrite Hm1, Hm2. reflexivity. }
      congruence.
Qed.

Lemma collapseNonPrintable_printable (text : jsstring) (inRun : bool) :
  Forall (fun c => nonPrintable c = false) (collapseNonPrintable inRun text).
Proof.
  revert inRun. induction text as [|c rest IH]; intros inRun; [constructor|].
  cbn [collapseNonPrintable]. destruct (nonPrintable c) eqn:Ec.
  - destruct inRun; [apply IH|]. constructor; [reflexivity|apply IH].
  - constructor; [exact Ec|apply IH].
Qed.

Lemma matchesAt_collapse (literal : jsstring) :
  Forall (fun p => canonicalize p <> 32%Z) literal ->
  forall text,
    matchesAt literal (collapseNonPrintable false text) = true ->
    matchesAt literal text = true.
Proof.
  induction 1 as [|p literal Hp Hl IH]; intros text; [destruct text; reflexivity|].
  destruct text as [|c rest]; [cbn; discriminate|].
  cbn [collapseNonPrintable]. destruct (nonPrintable c).
  - cbn [matchesAt]. change (canonicalize 32) with 32%Z.
    destruct (Z.eqb_spec (canonicalize p) 32); [contradiction|discriminate].
  - cbn [matchesAt]. intros H. apply andb_true_iff in H. destruct H as [H1 H2].
    rewrite H1, (IH rest H2). reflexivity.
Qed.

Lemma collapseNonPrintable_clean (text : jsstring) (inRun : bool) :
  testAny PDF_TOKENS text = false ->
  testAny PDF_TOKENS (collapseNonPrintable inRun text) = false.
Proof.
  pose proof PDF_TOKENS_letters as Hlet.
  revert inRun. induction text as [|c rest IH]; intros inRun Hclean.
  - exact Hclean.
  - rewrite testAny_cons in Hclean. apply orb_false_iff in Hclean.
    destruct Hclean as [Hhead Hrest].
    cbn [collapseNonPrintable]. destruct (nonPrintable c) eqn:Ec.
    + destruct inRun; [apply IH, Hrest|].
      rewrite testAny_cons, (existsb_matchesAt_space _ _ Hlet). apply IH, Hrest.
    + rewrite testAny_cons, (IH false Hrest), orb_false_r.
      destruct (existsb (fun l => matchesAt l (c :: collapseNonPrintable false rest))
                  PDF_TOKENS) eqn:Ex; [|reflexivity].
      apply existsb_exists in Ex. destruct Ex as [t [Ht Hm]].
      rewrite Forall_forall in Hlet. destruct (Hlet t Ht) as [Hne Hp].
      destruct t as [|p t']; [congruence|].
      apply Forall_cons_iff in Hp. destruct Hp as [_ Hp'].
      cbn [matchesAt] in Hm. apply andb_true_iff in Hm. destruct Hm as [Hm1 Hm2].
      apply (matchesAt_collapse t' Hp') in Hm2.
      assert (Hall : existsb (fun l => matchesAt l (c :: rest)) PDF_TOKENS = true).
      { apply existsb_exists. exists (p :: t'). split; [exact Ht|].
        cbn [matchesAt]. rewrite Hm1, Hm2. reflexivity. }
      congruence.
Qed.

(** X29. The two replacements [preprocessText] applies to PDF-like text leave
    no PDF token behind, in any mix of upper and lower case, and no
    non-printable code unit: a match is replaced by a space, and a space
    never completes another token. *)
Theorem preprocessText_pdf_cleaning (text : jsstring) :
  testAny PDF_TOKENS (collapseNonPrintable false (replaceTokens 0 text)) = false
  /\ Forall (fun c => nonPrintable c = false)
       (collapseNonPrintable false (replaceTokens 0 text)).
Proof.
  split.
  - apply collapseNonPrintable_clean, replaceTokens_clean.
  - apply collapseNonPrintable_printable.
Qed.
